(** * Video Voice Description Generator: the React presentation layer

    A shallow embedding of the two screens of the front end,
    [HomePage] (upload) and [EditorPage] (scene editor, audio preview,
    export), and the properties of their event handlers.

    Handlers are written in a small free monad [prog]: synchronous
    calls into the platform (React state setters, toasts, the router,
    audio elements, timers), [await] points where the handler is
    suspended until a request settles, and JavaScript's
    [try]/[catch]/[finally].  A handler reads the component state from
    the closure of the render that created it (an argument of the
    handler here) and writes it through the state setters.

    The page is a state machine over the actions of the user and the
    callbacks of the platform.  On the editor every action is one task
    of the event loop: a handler runs to its end or to its next
    [await], where it is suspended under a promise until an action
    settles the request; React renders after the task.  The numbers
    the handlers compute with are IEEE 754 doubles ([float]). *)

From Stdlib Require Import ZArith QArith Floats Uint63 Lia.
From Stdlib Require Import String Ascii List.
From stdpp Require Import base option list gmap.
Import ListNotations.

Local Open Scope string_scope.
Local Open Scope list_scope.

(** ** JavaScript values shared by both screens *)

(** A string is held as its UTF-8 bytes.  [s.length] counts UTF-16 code
    units: one for a code point of one to three bytes, two for one of
    four bytes; the bytes 128 to 191 continue a code point. *)
Fixpoint js_length (s : string) : nat :=
  match s with
  | EmptyString => 0
  | String c rest =>
      let b := nat_of_ascii c in
      (if Nat.ltb b 128 then 1
       else if Nat.ltb b 192 then 0
       else if Nat.ltb b 240 then 1
       else 2) + js_length rest
  end.

(** The [detail] of an error response as the handlers inspect it: a
    string, or a truthy value of another type (the list of objects of a
    validation error, say). *)
Inductive detail :=
| Text (s : string)
| NotText.

(** An error object as the handlers inspect it: [error.message] and
    [error.response.data.detail] of a failed request; [None] when the
    detail is absent, or falsy and not a string. *)
Record js_error := {
  message : string;
  response_detail : option detail;
}.

(** [d || s]: the empty string is falsy. *)
Definition detail_or (d : option detail) (s : string) : detail :=
  match d with
  | Some (Text x) => if String.eqb x "" then Text s else Text x
  | Some NotText => NotText
  | None => Text s
  end.

(** [s.startsWith(p)] *)
Definition startsWith (s p : string) : bool := String.prefix p s.

(** [s.split(sep)] for a one-character separator. *)
Fixpoint split (sep : ascii) (s : string) : list string :=
  match s with
  | EmptyString => [EmptyString]
  | String c rest =>
      if Ascii.eqb c sep then EmptyString :: split sep rest
      else match split sep rest with
           | seg :: segs => String c seg :: segs
           | [] => [String c EmptyString]
           end
  end.

(** [a.pop()] read for its value: the last element, [undefined] on an
    empty array (which a template literal prints as "undefined"). *)
Definition pop (a : list string) : string := List.last a "undefined".

(** [c.toUpperCase()] on ASCII, and its extension to strings. *)
Definition upper_ascii (c : ascii) : ascii :=
  let n := nat_of_ascii c in
  if (Nat.leb 97 n && Nat.leb n 122)%bool then ascii_of_nat (n - 32) else c.

Fixpoint toUpperCase (s : string) : string :=
  match s with
  | EmptyString => EmptyString
  | String c rest => String (upper_ascii c) (toUpperCase rest)
  end.

(** ** JavaScript numbers

    A number the code computes with is a double: [+], [-], [*], [/] and
    the comparisons are those of [PrimFloat].  [a >= b] is [b <=? a]. *)

(** An integer as a double; exact below 2^53. *)
Definition of_Z (z : Z) : float := PrimFloat.of_uint63 (Uint63.of_Z z).

(** [Math.min(a, b)] and [Math.max(a, b)]: [NaN] if one of them is,
    and [-0] below [+0]. *)
Definition js_min (a b : float) : float :=
  match PrimFloat.compare a b with
  | FLt => a
  | FGt => b
  | FEq => if PrimFloat.is_zero a && PrimFloat.get_sign a then a else b
  | FNotComparable => PrimFloat.nan
  end.

Definition js_max (a b : float) : float :=
  match PrimFloat.compare a b with
  | FLt => b
  | FGt => a
  | FEq => if PrimFloat.is_zero a && PrimFloat.get_sign a then b else a
  | FNotComparable => PrimFloat.nan
  end.

(** [Math.round(x)]: the integer nearest to [x], the upper one of two
    that are equally near; [NaN], the infinities and the zeros are
    returned as they are, and a result of zero has the sign of [x].  A
    double [m * 2^e] with [e >= 0] is an integer; otherwise the result
    is the floor of [(2 * m * 2^e + 1) / 2], computed exactly. *)
Definition js_round (x : float) : float :=
  match Prim2SF x with
  | S754_finite s m e =>
      if (0 <=? e)%Z then x
      else
        let n := (if s then Z.neg m else Z.pos m) in
        let z := ((2 * n + 2 ^ (- e)) / 2 ^ (1 - e))%Z in
        if (z =? 0)%Z then (if s then PrimFloat.neg_zero else PrimFloat.zero)
        else if (z <? 0)%Z then (- of_Z (- z))%float
        else of_Z z
  | _ => x
  end.

(** ** Handler programs *)

Inductive outcome (A : Type) : Type :=
| Done (a : A)
| Thrown (e : js_error).
Arguments Done {A} a.
Arguments Thrown {A} e.

Section Prog.
Context {call : Type -> Type} {request reply : Type}.

(** A handler body: it returns, throws, calls the platform
    synchronously, or awaits a request. *)
Inductive prog (A : Type) : Type :=
| Ret (a : A)
| Throw (e : js_error)
| Call {X : Type} (c : call X) (k : X -> prog A)
| Await (r : request) (k : reply -> prog A).

Arguments Ret {A} a.
Arguments Throw {A} e.
Arguments Call {A X} c k.
Arguments Await {A} r k.

Fixpoint bind {A B : Type} (p : prog A) (f : A -> prog B) : prog B :=
  match p with
  | Ret a => f a
  | Throw e => Throw e
  | Call c k => Call c (fun x => bind (k x) f)
  | Await r k => Await r (fun x => bind (k x) f)
  end.

(** [try { p } catch (error) { h error }] *)
Fixpoint try_catch {A : Type} (p : prog A) (h : js_error -> prog A) : prog A :=
  match p with
  | Ret a => Ret a
  | Throw e => h e
  | Call c k => Call c (fun x => try_catch (k x) h)
  | Await r k => Await r (fun x => try_catch (k x) h)
  end.

(** [try { p } finally { f }]: [f] runs on both exits of [p], and the
    exit of [p] is kept unless [f] itself throws. *)
Fixpoint try_finally {A : Type} (p : prog A) (f : prog unit) : prog A :=
  match p with
  | Ret a => bind f (fun _ => Ret a)
  | Throw e => bind f (fun _ => Throw e)
  | Call c k => Call c (fun x => try_finally (k x) f)
  | Await r k => Await r (fun x => try_finally (k x) f)
  end.

Definition perform {X : Type} (c : call X) : prog X := Call c Ret.

(** *** Running a handler *)

Context {world : Type}.
Variable exec : forall X : Type, call X -> world -> X * world.
Variable sent : request -> world -> world.

(** Where a handler stands when control goes back to the event loop. *)
Inductive status (A : Type) : Type :=
| Finished (o : outcome A)
| Suspended (r : request) (k : reply -> prog A).

Arguments Finished {A} o.
Arguments Suspended {A} r k.

(** One task of the event loop: the handler runs until it finishes or
    reaches its next [await]; the awaited request has been issued. *)
Fixpoint run_task {A : Type} (p : prog A) (w : world) : status A * world :=
  match p with
  | Ret a => (Finished (Done a), w)
  | Throw e => (Finished (Thrown e), w)
  | Call c k => let (x, w') := exec _ c w in run_task (k x) w'
  | Await r k => (Suspended r k, sent r w)
  end.

(** The handler run to its end against a server that settles every
    request it awaits. *)
Fixpoint run {A : Type} (server : request -> reply) (p : prog A) (w : world)
  : outcome A * world :=
  match p with
  | Ret a => (Done a, w)
  | Throw e => (Thrown e, w)
  | Call c k => let (x, w') := exec _ c w in run server (k x) w'
  | Await r k => run server (k (server r)) (sent r w)
  end.

End Prog.

Arguments prog call request reply A : clear implicits.
Arguments Ret {call request reply A} a.
Arguments Throw {call request reply A} e.
Arguments Call {call request reply A X} c k.
Arguments Await {call request reply A} r k.
Arguments Finished {call request reply A} o.
Arguments Suspended {call request reply A} r k.

Declare Scope prog_scope.
Delimit Scope prog_scope with prog.
Notation "'let!' x ':=' p 'in' q" := (bind p (fun x => q))
  (at level 10, x name, p at level 100, q at level 200, only parsing) : prog_scope.
Notation "p ';;' q" := (bind p (fun _ => q))
  (at level 100, q at level 200, only parsing, right associativity) : prog_scope.

Inductive toast_level := error | success | info.

(** [`${v}`] for a value that may be [undefined]. *)
Definition template (v : option string) : string :=
  match v with Some s => s | None => "undefined" end.

(** ** The upload screen ([HomePage]) *)

Module HomePage.

(** A [File] as the handlers see it: its name and declared MIME type. *)
Record file := { name : string; type : string }.

(** Component state, one field per [useState]. *)
Record state := {
  selectedFile : option file;
  uploading : bool;
  dragActive : bool;
}.

Definition initial : state :=
  {| selectedFile := None; uploading := false; dragActive := false |}.

(** [axios.post(url, data, config)] *)
Record request := {
  url : string;
  data : option (list (string * file));
  headers : list (string * string);
}.

(** [response.data], of which only [id] is read. *)
Record response := { id : option string }.

Inductive reply :=
| Resolved (r : response)
| Rejected (e : js_error).

(** What a handler does to the outside, in program order. *)
Inductive event :=
| PreventDefault
| StopPropagation
| SetDragActive (b : bool)
| SetSelectedFile (f : file)
| SetUploading (b : bool)
| Toast (l : toast_level) (msg : string)
| ConsoleError (label : string) (e : js_error)
| Navigate (to : string)
| Sent (r : request).

Inductive call : Type -> Type :=
| Emit (e : event) : call unit.

Abbreviation handler := (prog call request reply unit).

Record world := { st : state; log : list event }.

Definition apply_event (e : event) (s : state) : state :=
  match e with
  | SetDragActive b =>
      {| selectedFile := selectedFile s; uploading := uploading s; dragActive := b |}
  | SetSelectedFile f =>
      {| selectedFile := Some f; uploading := uploading s; dragActive := dragActive s |}
  | SetUploading b =>
      {| selectedFile := selectedFile s; uploading := b; dragActive := dragActive s |}
  | _ => s
  end.

Definition record (e : event) (w : world) : world :=
  {| st := apply_event e (st w); log := log w ++ [e] |}.

Definition exec (X : Type) (c : call X) (w : world) : X * world :=
  match c in call T return T * world with
  | Emit e => (tt, record e w)
  end.

Definition emit (e : event) : handler := perform (Emit e).

Definition axios_post (u : string) (d : option (list (string * file)))
    (h : list (string * string)) : prog call request reply response :=
  Await {| url := u; data := d; headers := h |}
        (fun r => match r with Resolved x => Ret x | Rejected e => Throw e end).

Record drag_event := { dataTransfer_files : list file }.
Record change_event := { target_files : list file }.

Section Component.
Variable BACKEND_URL : string.
Local Open Scope prog_scope.

Definition API : string := BACKEND_URL ++ "/api".

Definition handleDrop (e : drag_event) : handler :=
  emit PreventDefault ;;
  emit StopPropagation ;;
  emit (SetDragActive false) ;;
  match dataTransfer_files e with
  | file :: _ =>
      if startsWith (type file) "video/" then emit (SetSelectedFile file)
      else emit (Toast error "Please upload a video file")
  | [] => Ret tt
  end.

Definition handleFileSelect (e : change_event) : handler :=
  match target_files e with
  | file :: _ =>
      if startsWith (type file) "video/" then emit (SetSelectedFile file)
      else emit (Toast error "Please upload a video file")
  | [] => Ret tt
  end.

(** [selectedFile] is the value captured by the render that created
    the handler. *)
Definition handleUpload (selectedFile : option file) : handler :=
  match selectedFile with
  | None => emit (Toast error "Please select a video file")
  | Some f =>
      emit (SetUploading true) ;;
      let formData := [("file", f)] in
      try_finally
        (try_catch
           (let! response :=
              axios_post (API ++ "/upload") (Some formData)
                         [("Content-Type", "multipart/form-data")] in
            emit (Toast success "Video uploaded successfully!") ;;
            let projectId := template (id response) in
            emit (Toast info "Analyzing video for scene cuts...") ;;
            let! _ := axios_post (API ++ "/analyze/" ++ projectId) None [] in
            emit (Toast success "Analysis complete!") ;;
            emit (Navigate ("/editor/" ++ projectId)))
           (fun err =>
              emit (ConsoleError "Upload error:" err) ;;
              emit (Toast error "Failed to upload video")))
        (emit (SetUploading false))
  end.

(** What the user can do on the screen. *)
Inductive action :=
| Drop (e : drag_event)
| Change (e : change_event)
| ClickUpload.

(** The button is rendered only with a selection
    ([{selectedFile && (<button ... disabled={uploading}>)}]). *)
Definition enabled (s : state) (a : action) : bool :=
  match a with
  | ClickUpload => bool_decide (is_Some (selectedFile s)) && negb (uploading s)
  | _ => true
  end.

Definition handler_of (s : state) (a : action) : handler :=
  match a with
  | Drop e => handleDrop e
  | Change e => handleFileSelect e
  | ClickUpload => handleUpload (selectedFile s)
  end.

(** One action on the screen.  The upload handler is run to its end
    against the answers of [server]: it reads the selection from its
    closure and the button is disabled until it ends, so what happens
    on the screen while it waits does not change what it does. *)
Definition dispatch (server : request -> reply) (w : world) (a : action) : world :=
  if enabled (st w) a
  then snd (run exec (fun r => record (Sent r)) server (handler_of (st w) a) w)
  else w.

Definition session (server : request -> reply) (w : world) (acts : list action) : world :=
  fold_left (dispatch server) acts w.

(** The two requests of the upload flow. *)
Definition upload_request (f : file) : request :=
  {| url := API ++ "/upload"; data := Some [("file", f)];
     headers := [("Content-Type", "multipart/form-data")] |}.

Definition analyze_request (projectId : string) : request :=
  {| url := API ++ "/analyze/" ++ projectId; data := None; headers := [] |}.

End Component.

Definition mounted : world := {| st := initial; log := [] |}.

(** Projections of a log. *)
Definition events_since (w w' : world) : list event :=
  drop (length (log w)) (log w').

Definition requests (evs : list event) : list request :=
  omap (fun e => match e with Sent r => Some r | _ => None end) evs.

Definition navigations (evs : list event) : list string :=
  omap (fun e => match e with Navigate to => Some to | _ => None end) evs.

Definition error_toasts (evs : list event) : list string :=
  omap (fun e => match e with Toast error msg => Some msg | _ => None end) evs.

Definition is_video (f : file) : bool := startsWith (type f) "video/".

(** The file an action offers to the screen: [files[0]] of the event. *)
Definition offered (a : action) : option file :=
  match a with
  | Drop e => head (dataTransfer_files e)
  | Change e => head (target_files e)
  | ClickUpload => None
  end.

(** All the files of the event of an action. *)
Definition carried (a : action) : list file :=
  match a with
  | Drop e => dataTransfer_files e
  | Change e => target_files e
  | ClickUpload => []
  end.

(** The files an upload request carries. *)
Definition files_of (r : request) : list file :=
  match data r with Some d => map snd d | None => [] end.

(** The selection held by the screen is always a video. *)
Definition video_selected (w : world) : Prop :=
  forall g, selectedFile (st w) = Some g -> is_video g = true.

(** *** The drop zone while a file is dragged over it

    [handleDrag] is the handler of [onDragEnter], [onDragLeave] and
    [onDragOver] of the drop zone; of its event it reads the type. *)
Record drag_move := { event_type : string }.

Definition handleDrag (e : drag_move) : handler :=
  (emit PreventDefault ;;
   emit StopPropagation ;;
   if String.eqb (event_type e) "dragenter" || String.eqb (event_type e) "dragover"
   then emit (SetDragActive true)
   else if String.eqb (event_type e) "dragleave" then emit (SetDragActive false)
   else Ret tt)%prog.

(** What can happen on the screen, the drag events included. *)
Inductive gesture :=
| Move (e : drag_move)
| Act (a : action).

Definition gesture_step (BACKEND_URL : string) (server : request -> reply)
    (w : world) (g : gesture) : world :=
  match g with
  | Move e => snd (run exec (fun r => record (Sent r)) server (handleDrag e) w)
  | Act a => dispatch BACKEND_URL server w a
  end.

Definition gestures (BACKEND_URL : string) (server : request -> reply)
    (w : world) (gs : list gesture) : world :=
  fold_left (gesture_step BACKEND_URL server) gs w.

(** The gestures that are actions of the screen. *)
Definition acts_of (gs : list gesture) : list action :=
  omap (fun g => match g with Act a => Some a | Move _ => None end) gs.

(** The events of a log that are not about the drag itself. *)
Definition beyond_drag (evs : list event) : list event :=
  List.filter (fun e => match e with
                        | PreventDefault | StopPropagation | SetDragActive _ => false
                        | _ => true
                        end) evs.

(** The last video among the files a list of actions offers, or [sel]
    when it offers none. *)
Definition last_video (sel : option file) (acts : list action) : option file :=
  fold_left (fun sel a =>
               match offered a with
               | Some f => if is_video f then Some f else sel
               | None => sel
               end) acts sel.

(** What the screen shows of its state: the drop zone with its
    highlight and its text, and the upload button (disabled or not, with
    its label) when there is a selection. *)
Record button := { disabled : bool; label : string }.

Record view := {
  highlighted : bool;
  dropzone_text : string;
  upload_button : option button;
}.

Definition render (s : state) : view :=
  {| highlighted := dragActive s;
     dropzone_text :=
       match selectedFile s with
       | Some f => name f
       | None => "Drag and drop your video here"
       end;
     upload_button :=
       match selectedFile s with
       | Some _ =>
           Some {| disabled := uploading s;
                   label := if uploading s then "Processing..."
                            else "Upload and Analyze" |}
       | None => None
       end |}.

End HomePage.

(** ** The editor screen ([EditorPage]) *)

Module EditorPage.

(** [GET /projects/{id}]: the editor reads [original_filename] only. *)
Record project_info := { original_filename : string }.

Record scene := {
  id : string;
  timestamp : Q;
  description : string;
  thumbnail_path : string;
  audio_path : string;
}.

(** [{ ...s, description: text }] *)
Definition with_description (text : string) (s : scene) : scene :=
  {| id := id s; timestamp := timestamp s; description := text;
     thumbnail_path := thumbnail_path s; audio_path := audio_path s |}.

(** Component state, one field per [useState].  [currentAudio] holds a
    reference to an [Audio] element of the page (an index of [audios]
    below) or [null]. *)
Record state := {
  project : option project_info;
  scenes : list scene;
  loading : bool;
  editingScene : option string;
  editText : string;
  saving : bool;
  exporting : bool;
  showExportDialog : bool;
  exportFormat : string;
  currentAudio : option nat;
  exportProgress : float;
  estimatedTime : Z;
}.

Definition initial : state :=
  {| project := None; scenes := []; loading := true; editingScene := None;
     editText := ""; saving := false; exporting := false;
     showExportDialog := false; exportFormat := "mp4"; currentAudio := None;
     exportProgress := 0; estimatedTime := 0 |}.

(** *** Requests *)

Inductive request :=
| AxiosGet (url : string)
| AxiosPut (url : string) (description : string)
| AxiosPost (url : string) (format : string)
| PromiseAll (p q : request)
| Sleep (ms : Z)
| Fetch (url : string)
| ReadBlob (url : string).

(** What a settled request carries. *)
Inductive value :=
| ProjectData (p : project_info)
| ScenesData (l : list scene)
| ExportData (download_url : option string)
| FetchResponse (ok : bool)
| BlobData (content : string)
| Both (a b : value)
| Undefined.

Inductive reply :=
| Resolved (v : value)
| Rejected (e : js_error).

(** [Promise.all] resolves when both promises resolve and rejects when
    one does; when both reject, with the error of the first of the two
    here (in JavaScript, of the one that rejects first in time).  The
    promise of a timer always resolves. *)
Fixpoint settle (server : request -> reply) (r : request) : reply :=
  match r with
  | PromiseAll p q =>
      match settle server p, settle server q with
      | Resolved a, Resolved b => Resolved (Both a b)
      | Rejected e, _ => Rejected e
      | _, Rejected e => Rejected e
      end
  | Sleep _ => Resolved Undefined
  | _ => server r
  end.

(** Reading a response.  A reply of another shape than the endpoint's
    reads as [undefined] (no project, no scenes). *)
Definition project_of (v : value) : option project_info :=
  match v with ProjectData p => Some p | _ => None end.

Definition scenes_of (v : value) : list scene :=
  match v with ScenesData l => l | _ => [] end.

Definition download_url_of (v : value) : option string :=
  match v with ExportData u => u | _ => None end.

Definition ok_of (v : value) : bool :=
  match v with FetchResponse b => b | _ => false end.

Definition content_of (v : value) : string :=
  match v with BlobData c => c | _ => "" end.

(** *** Platform calls *)

(** The update the interval callback of an export passes to
    [setExportProgress], as a function of the previous value;
    [estimatedSeconds] is the estimate the callback closes over. *)
Definition progress_step (estimatedSeconds : Z) (prev : float) : float :=
  if (85 <=? prev)%float then js_min (prev + 1) 95
  else (prev + 85 / (of_Z estimatedSeconds * 2))%float.

(** The value after [n] updates by the callback of an export, from
    [prev]; the values the indicator takes from 0. *)
Fixpoint ticks (n : nat) (estimatedSeconds : Z) (prev : float) : float :=
  match n with
  | O => prev
  | S n => progress_step estimatedSeconds (ticks n estimatedSeconds prev)
  end.

Definition on_track (estimatedSeconds : Z) (v : float) : Prop :=
  exists n, v = ticks n estimatedSeconds 0.






(** The anchor element of a download. *)
Record link := { href : string; download : string }.

(** The closures the handlers hand to the platform, by name with the
    variables they close over; [invoke] below gives their bodies. *)
Inductive callback :=
(* audio.onended, audio.onerror and the catch of audio.play() *)
| OnEnded
| OnError
| OnPlayRejected
(* the callback of setInterval in handleExport *)
| ProgressTick (estimatedSeconds : Z)
(* the two callbacks of setTimeout in handleExport *)
| RemoveLink (l : link) (blobUrl : string)
| CloseDialog.

(** What a handler does to the outside, in program order. *)
Inductive event :=
(* the state setters; UpdateExportProgress is setExportProgress(prev => ...) *)
| SetProject (p : option project_info)
| SetScenes (l : list scene)
| SetLoading (b : bool)
| SetEditingScene (i : option string)
| SetEditText (t : string)
| SetSaving (b : bool)
| SetExporting (b : bool)
| SetShowExportDialog (b : bool)
| SetExportFormat (f : string)
| SetCurrentAudio (a : option nat)
| SetExportProgress (v : float)
| UpdateExportProgress (estimatedSeconds : Z)
| SetEstimatedTime (t : Z)
(* sonner (ToastNotText: a toast given a value that is not a string),
   the console, the router, the network *)
| Toast (l : toast_level) (msg : string)
| ToastNotText (l : toast_level)
| ConsoleError (label : string) (e : js_error)
| Navigate (to : string)
| Sent (r : request)
(* audio elements: new Audio(src), then the element by reference *)
| Created (a : nat) (src : string)
| SetOnEnded (a : nat) (cb : callback)
| SetOnError (a : nat) (cb : callback)
| Pause (a : nat)
| SetCurrentTime (a : nat) (t : Q)
| Play (a : nat) (catch : callback)
(* timers *)
| IntervalSet (timer : nat) (cb : callback) (ms : Z)
| ClearInterval (timer : nat)
| TimeoutSet (cb : callback) (ms : Z)
(* the download *)
| ObjectURLCreated (content url : string)
| RevokeObjectURL (url : string)
| AppendLink (l : link)
| ClickLink (l : link)
| RemoveChild (l : link).

(** The calls of a handler: those that return nothing, and the three
    that return a reference. *)
Inductive call : Type -> Type :=
| Emit (e : event) : call unit
| NewAudio (src : string) : call nat
| SetInterval (cb : callback) (ms : Z) : call nat
| CreateObjectURL (content : string) : call string.

Abbreviation handler := (prog call request reply unit).

(** *** The page *)

(** An [Audio] element; [play_catch] is the handler attached to the
    promise of [play()]. *)
Record audio := {
  src : string;
  paused : bool;
  currentTime : Q;
  onended : option callback;
  onerror : option callback;
  play_catch : option callback;
}.

Definition new_audio (url : string) : audio :=
  {| src := url; paused := true; currentTime := 0; onended := None;
     onerror := None; play_catch := None |}.

Definition pause (x : audio) : audio :=
  {| src := src x; paused := true; currentTime := currentTime x;
     onended := onended x; onerror := onerror x; play_catch := play_catch x |}.

Definition seek (t : Q) (x : audio) : audio :=
  {| src := src x; paused := paused x; currentTime := t;
     onended := onended x; onerror := onerror x; play_catch := play_catch x |}.

Definition play (cb : callback) (x : audio) : audio :=
  {| src := src x; paused := false; currentTime := currentTime x;
     onended := onended x; onerror := onerror x; play_catch := Some cb |}.

Definition set_onended (cb : callback) (x : audio) : audio :=
  {| src := src x; paused := paused x; currentTime := currentTime x;
     onended := Some cb; onerror := onerror x; play_catch := play_catch x |}.

Definition set_onerror (cb : callback) (x : audio) : audio :=
  {| src := src x; paused := paused x; currentTime := currentTime x;
     onended := onended x; onerror := Some cb; play_catch := play_catch x |}.

(** The component state together with what the page holds besides it:
    the audio elements created so far, the running interval timers, the
    pending timeouts, the handlers suspended at an [await] (by promise),
    and the log of everything done. *)
Record world := {
  st : state;
  audios : list audio;
  intervals : gmap nat callback;
  next_timer : nat;
  timeouts : list callback;
  pending : gmap nat (request * (reply -> handler));
  next_promise : nat;
  log : list event;
}.

Definition on_st (f : state -> state) (w : world) : world :=
  {| st := f (st w); audios := audios w; intervals := intervals w;
     next_timer := next_timer w; timeouts := timeouts w;
     pending := pending w; next_promise := next_promise w; log := log w |}.

Definition on_audios (f : list audio -> list audio) (w : world) : world :=
  {| st := st w; audios := f (audios w); intervals := intervals w;
     next_timer := next_timer w; timeouts := timeouts w;
     pending := pending w; next_promise := next_promise w; log := log w |}.

Definition on_intervals (f : gmap nat callback -> gmap nat callback)
    (next : nat) (w : world) : world :=
  {| st := st w; audios := audios w; intervals := f (intervals w);
     next_timer := next; timeouts := timeouts w;
     pending := pending w; next_promise := next_promise w; log := log w |}.

Definition on_timeouts (f : list callback -> list callback) (w : world) : world :=
  {| st := st w; audios := audios w; intervals := intervals w;
     next_timer := next_timer w; timeouts := f (timeouts w);
     pending := pending w; next_promise := next_promise w; log := log w |}.

Definition on_log (f : list event -> list event) (w : world) : world :=
  {| st := st w; audios := audios w; intervals := intervals w;
     next_timer := next_timer w; timeouts := timeouts w;
     pending := pending w; next_promise := next_promise w; log := f (log w) |}.

Definition apply_setter (e : event) (s : state) : state :=
  match e with
  | SetProject p =>
      {| project := p; scenes := scenes s; loading := loading s;
         editingScene := editingScene s; editText := editText s;
         saving := saving s; exporting := exporting s;
         showExportDialog := showExportDialog s;
         exportFormat := exportFormat s;
         currentAudio := currentAudio s;
         exportProgress := exportProgress s;
         estimatedTime := estimatedTime s |}
  | SetScenes l =>
      {| project := project s; scenes := l; loading := loading s;
         editingScene := editingScene s; editText := editText s;
         saving := saving s; exporting := exporting s;
         showExportDialog := showExportDialog s;
         exportFormat := exportFormat s;
         currentAudio := currentAudio s;
         exportProgress := exportProgress s;
         estimatedTime := estimatedTime s |}
  | SetLoading b =>
      {| project := project s; scenes := scenes s; loading := b;
         editingScene := editingScene s; editText := editText s;
         saving := saving s; exporting := exporting s;
         showExportDialog := showExportDialog s;
         exportFormat := exportFormat s;
         currentAudio := currentAudio s;
         exportProgress := exportProgress s;
         estimatedTime := estimatedTime s |}
  | SetEditingScene i =>
      {| project := project s; scenes := scenes s;
         loading := loading s; editingScene := i;
         editText := editText s; saving := saving s;
         exporting := exporting s;
         showExportDialog := showExportDialog s;
         exportFormat := exportFormat s;
         currentAudio := currentAudio s;
         exportProgress := exportProgress s;
         estimatedTime := estimatedTime s |}
  | SetEditText t =>
      {| project := project s; scenes := scenes s;
         loading := loading s; editingScene := editingScene s;
         editText := t; saving := saving s; exporting := exporting s;
         showExportDialog := showExportDialog s;
         exportFormat := exportFormat s;
         currentAudio := currentAudio s;
         exportProgress := exportProgress s;
         estimatedTime := estimatedTime s |}
  | SetSaving b =>
      {| project := project s; scenes := scenes s;
         loading := loading s; editingScene := editingScene s;
         editText := editText s; saving := b;
         exporting := exporting s;
         showExportDialog := showExportDialog s;
         exportFormat := exportFormat s;
         currentAudio := currentAudio s;
         exportProgress := exportProgress s;
         estimatedTime := estimatedTime s |}
  | SetExporting b =>
      {| project := project s; scenes := scenes s;
         loading := loading s; editingScene := editingScene s;
         editText := editText s; saving := saving s; exporting := b;
         showExportDialog := showExportDialog s;
         exportFormat := exportFormat s;
         currentAudio := currentAudio s;
         exportProgress := exportProgress s;
         estimatedTime := estimatedTime s |}
  | SetShowExportDialog b =>
      {| project := project s; scenes := scenes s;
         loading := loading s; editingScene := editingScene s;
         editText := editText s; saving := saving s;
         exporting := exporting s; showExportDialog := b;
         exportFormat := exportFormat s;
         currentAudio := currentAudio s;
         exportProgress := exportProgress s;
         estimatedTime := estimatedTime s |}
  | SetExportFormat f =>
      {| project := project s; scenes := scenes s;
         loading := loading s; editingScene := editingScene s;
         editText := editText s; saving := saving s;
         exporting := exporting s;
         showExportDialog := showExportDialog s; exportFormat := f;
         currentAudio := currentAudio s;
         exportProgress := exportProgress s;
         estimatedTime := estimatedTime s |}
  | SetCurrentAudio a =>
      {| project := project s; scenes := scenes s;
         loading := loading s; editingScene := editingScene s;
         editText := editText s; saving := saving s;
         exporting := exporting s;
         showExportDialog := showExportDialog s;
         exportFormat := exportFormat s; currentAudio := a;
         exportProgress := exportProgress s;
         estimatedTime := estimatedTime s |}
  | SetExportProgress v =>
      {| project := project s; scenes := scenes s;
         loading := loading s; editingScene := editingScene s;
         editText := editText s; saving := saving s;
         exporting := exporting s;
         showExportDialog := showExportDialog s;
         exportFormat := exportFormat s;
         currentAudio := currentAudio s; exportProgress := v;
         estimatedTime := estimatedTime s |}
  | UpdateExportProgress est =>
      {| project := project s; scenes := scenes s;
         loading := loading s; editingScene := editingScene s;
         editText := editText s; saving := saving s;
         exporting := exporting s;
         showExportDialog := showExportDialog s;
         exportFormat := exportFormat s;
         currentAudio := currentAudio s;
         exportProgress := progress_step est (exportProgress s);
         estimatedTime := estimatedTime s |}
  | SetEstimatedTime t =>
      {| project := project s; scenes := scenes s;
         loading := loading s; editingScene := editingScene s;
         editText := editText s; saving := saving s;
         exporting := exporting s;
         showExportDialog := showExportDialog s;
         exportFormat := exportFormat s;
         currentAudio := currentAudio s;
         exportProgress := exportProgress s; estimatedTime := t |}
  | _ => s
  end.

(** What an event does to the page.  An element or a timer gets the
    next free reference, which is the one its event names when the
    event comes from [exec] below. *)
Definition apply_event (e : event) (w : world) : world :=
  match e with
  | Created _ url => on_audios (fun l => l ++ [new_audio url]) w
  | SetOnEnded a cb => on_audios (alter (set_onended cb) a) w
  | SetOnError a cb => on_audios (alter (set_onerror cb) a) w
  | Pause a => on_audios (alter pause a) w
  | SetCurrentTime a t => on_audios (alter (seek t) a) w
  | Play a cb => on_audios (alter (play cb) a) w
  | IntervalSet _ cb _ =>
      on_intervals (insert (next_timer w) cb) (S (next_timer w)) w
  | ClearInterval timer => on_intervals (delete timer) (next_timer w) w
  | TimeoutSet cb _ => on_timeouts (fun l => l ++ [cb]) w
  | _ => on_st (apply_setter e) w
  end.

Definition record (e : event) (w : world) : world :=
  on_log (fun l => l ++ [e]) (apply_event e w).

(** The world after a list of events, in order. *)
Definition replay (evs : list event) (w : world) : world :=
  fold_left (fun w e => record e w) evs w.

Definition exec (X : Type) (c : call X) (w : world) : X * world :=
  match c in call T return T * world with
  | Emit e => (tt, record e w)
  | NewAudio url =>
      let a := length (audios w) in (a, record (Created a url) w)
  | SetInterval cb ms =>
      let timer := next_timer w in (timer, record (IntervalSet timer cb ms) w)
  | CreateObjectURL content =>
      let u := ("blob:" ++ content)%string in (u, record (ObjectURLCreated content u) w)
  end.

(** Issuing a request; [Promise.all] issues both of its requests. *)
Fixpoint sent (r : request) (w : world) : world :=
  match r with
  | PromiseAll p q => sent q (sent p w)
  | _ => record (Sent r) w
  end.

Definition emit (e : event) : handler := perform (Emit e).

(** [toast.error(v)] and the like for a value that may not be a string. *)
Definition toast_value (l : toast_level) (v : detail) : event :=
  match v with
  | Text msg => Toast l msg
  | NotText => ToastNotText l
  end.

(** [await p]: the value of [p], or its rejection thrown. *)
Definition await (r : request) : prog call request reply value :=
  Await r (fun x => match x with Resolved v => Ret v | Rejected e => Throw e end).

(** [s || d] on strings: the empty string is falsy. *)
Definition or_else (s : option string) (d : string) : string :=
  match s with
  | Some x => if String.eqb x "" then d else x
  | None => d
  end.

(** *** The handlers

    A handler takes as arguments the state variables it reads: they
    are those of the render that created it. *)

Section Component.
Variable BACKEND_URL : string.
Variable projectId : string.
Local Open Scope prog_scope.

Definition API : string := BACKEND_URL ++ "/api".

Definition loadProject : handler :=
  try_finally
    (try_catch
       (let! both :=
          await (PromiseAll (AxiosGet (API ++ "/projects/" ++ projectId))
                            (AxiosGet (API ++ "/projects/" ++ projectId ++ "/scenes"))) in
        let (projectRes, scenesRes) :=
          match both with Both a b => (a, b) | _ => (Undefined, Undefined) end in
        emit (SetProject (project_of projectRes)) ;;
        emit (SetScenes (scenes_of scenesRes)))
       (fun err =>
          emit (ConsoleError "Load error:" err) ;;
          emit (Toast error "Failed to load project")))
    (emit (SetLoading false)).

Definition handleEditScene (currentAudio : option nat) (scene : scene) : handler :=
  match currentAudio with
  | Some a =>
      emit (Pause a) ;;
      emit (SetCurrentTime a 0) ;;
      emit (SetCurrentAudio None)
  | None => Ret tt
  end ;;
  emit (SetEditingScene (Some (id scene))) ;;
  emit (SetEditText (description scene)).

Definition handleSaveScene (scenes : list scene) (editText : string)
    (sceneId : string) : handler :=
  emit (SetSaving true) ;;
  try_finally
    (try_catch
       (let! _ := await (AxiosPut (API ++ "/scenes/" ++ sceneId) editText) in
        emit (SetScenes
                (map (fun s => if String.eqb (id s) sceneId
                               then with_description editText s else s)
                     scenes)) ;;
        emit (SetEditingScene None) ;;
        emit (Toast success "Scene updated successfully!"))
       (fun err =>
          emit (ConsoleError "Save error:" err) ;;
          emit (Toast error "Failed to save scene")))
    (emit (SetSaving false)).

(** [Math.max(5, (scenes.length * 2) + 3)] *)
Definition estimate (scenes : list scene) : Z :=
  Z.max 5 (Z.of_nat (length scenes) * 2 + 3).

Definition handleExport (project : option project_info) (scenes : list scene)
    (exportFormat : string) : handler :=
  emit (SetExporting true) ;;
  emit (SetExportProgress 0) ;;
  let estimatedSeconds := estimate scenes in
  emit (SetEstimatedTime estimatedSeconds) ;;
  let! progressInterval := perform (SetInterval (ProgressTick estimatedSeconds) 500) in
  try_finally
    (try_catch
       (emit (Toast info ("Exporting video as " ++ toUpperCase exportFormat ++ "...")) ;;
        let! response := await (AxiosPost (API ++ "/export/" ++ projectId) exportFormat) in
        emit (ClearInterval progressInterval) ;;
        emit (SetExportProgress 100) ;;
        let! _ := await (Sleep 500) in
        emit (Toast success "Starting download...") ;;
        let downloadUrl := (BACKEND_URL ++ template (download_url_of response))%string in
        try_catch
          (let! fileResponse := await (Fetch downloadUrl) in
           (if ok_of fileResponse then Ret tt
            else Throw {| message := "Download failed"; response_detail := None |}) ;;
           let! blob := await (ReadBlob downloadUrl) in
           let! blobUrl := perform (CreateObjectURL (content_of blob)) in
           let link :=
             {| href := blobUrl;
                download := "exported_"
                            ++ or_else (original_filename <$> project) "video"
                            ++ "." ++ exportFormat |} in
           emit (AppendLink link) ;;
           emit (ClickLink link) ;;
           emit (TimeoutSet (RemoveLink link blobUrl) 100) ;;
           emit (Toast success "Download started!"))
          (fun downloadError =>
             emit (ConsoleError "Download error:" downloadError) ;;
             emit (Toast error "Download failed. Please try again.")) ;;
        emit (TimeoutSet CloseDialog 1500))
       (fun err =>
          emit (ClearInterval progressInterval) ;;
          emit (ConsoleError "Export error:" err) ;;
          let errorMessage :=
            detail_or (response_detail err)
                      (or_else (Some (message err)) "Failed to export video") in
          let displayMessage :=
            match errorMessage with
            | Text s =>
                if Nat.ltb 100 (js_length s)
                then Text "Video export failed. Please check if all scenes have valid audio."
                else errorMessage
            | NotText => errorMessage
            end in
          emit (toast_value error displayMessage) ;;
          emit (SetExportProgress 0) ;;
          emit (SetEstimatedTime 0)))
    (emit (SetExporting false)).

Definition playAudio (currentAudio : option nat) (audioPath : string) : handler :=
  match currentAudio with
  | Some a =>
      emit (Pause a) ;;
      emit (SetCurrentTime a 0)
  | None => Ret tt
  end ;;
  let fileName := pop (split "/" audioPath) in
  let audioUrl := (API ++ "/audio/" ++ projectId ++ "/" ++ fileName)%string in
  let! audio := perform (NewAudio audioUrl) in
  emit (SetOnEnded audio OnEnded) ;;
  emit (SetOnError audio OnError) ;;
  emit (SetCurrentAudio (Some audio)) ;;
  emit (Play audio OnPlayRejected).

(** The bodies of the closures; [err] is the argument the platform
    passes, which only the rejection handler of [play()] reads. *)
Definition invoke (cb : callback) (err : js_error) : handler :=
  match cb with
  | OnEnded => emit (SetCurrentAudio None)
  | OnError =>
      emit (Toast error "Failed to play audio") ;;
      emit (SetCurrentAudio None)
  | OnPlayRejected =>
      emit (ConsoleError "Audio play error:" err) ;;
      emit (Toast error "Failed to play audio") ;;
      emit (SetCurrentAudio None)
  | ProgressTick estimatedSeconds =>
      emit (UpdateExportProgress estimatedSeconds)
  | RemoveLink l blobUrl =>
      emit (RemoveChild l) ;;
      emit (RevokeObjectURL blobUrl)
  | CloseDialog =>
      emit (SetShowExportDialog false) ;;
      emit (SetExportProgress 0) ;;
      emit (SetEstimatedTime 0)
  end.

(** The cleanup of the effect that depends on [currentAudio]; React
    runs it, with the value of the render that registered it, when a
    later render has another value. *)
Definition audio_cleanup (currentAudio : option nat) : handler :=
  match currentAudio with
  | Some a => emit (Pause a)
  | None => Ret tt
  end.

(** *** The screen and what can happen on it *)

Record card := {
  number : nat;
  shown : scene;
  thumbnailUrl : string;
  editing : bool;
}.

Inductive view :=
| Spinner
| Page (title : option string) (cards : list card) (exportDialog : bool).

Definition render (s : state) : view :=
  if loading s then Spinner
  else Page (original_filename <$> project s)
         (imap (fun index scene =>
                  {| number := index + 1;
                     shown := scene;
                     thumbnailUrl :=
                       API ++ "/thumbnail/" ++ projectId ++ "/"
                           ++ pop (split "/" (thumbnail_path scene));
                     editing := bool_decide (editingScene s = Some (id scene)) |})
               (scenes s))
         (showExportDialog s).

Definition cards_of (v : view) : list card :=
  match v with Spinner => [] | Page _ c _ => c end.

Inductive action :=
(* controls of a scene card, by its index *)
| ClickEdit (index : nat)
| ClickPlay (index : nat)
| TypeText (index : nat) (text : string)
| ClickSave (index : nat)
| ClickCancel (index : nat)
(* header and export dialog *)
| ClickBack
| OpenExport
| ChooseFormat (format : string)
| ConfirmExport
| CloseExport
(* the platform calling back *)
| AudioEnded (a : nat)
| AudioError (a : nat)
| PlayRejected (a : nat) (err : js_error)
| Tick (timer : nat)
| Timeout (n : nat)
(* the request awaited under [promise] settles as [server] answers it *)
| Settled (promise : nat) (server : request -> reply).

Definition no_error : js_error := {| message := ""; response_detail := None |}.

(** The handler an action starts, if the screen offers the action: a
    card shows its save and cancel buttons in edit mode and its edit and
    play buttons otherwise, and the dialog disables its controls during
    an export. *)
Definition handler_of (w : world) (a : action) : option handler :=
  let s := st w in
  let card (index : nat) (edit_mode : bool) (k : scene -> handler) :=
    if loading s then None
    else sc ← scenes s !! index;
         if Bool.eqb (bool_decide (editingScene s = Some (id sc))) edit_mode
         then Some (k sc) else None in
  match a with
  | ClickEdit i => card i false (handleEditScene (currentAudio s))
  | ClickPlay i => card i false (fun sc => playAudio (currentAudio s) (audio_path sc))
  | TypeText i text => card i true (fun _ => emit (SetEditText text))
  | ClickSave i =>
      if saving s then None
      else card i true (fun sc => handleSaveScene (scenes s) (editText s) (id sc))
  | ClickCancel i => card i true (fun _ => emit (SetEditingScene None))
  | ClickBack => if loading s then None else Some (emit (Navigate "/"))
  | OpenExport => if loading s then None else Some (emit (SetShowExportDialog true))
  | ChooseFormat f =>
      if loading s || negb (showExportDialog s) || exporting s then None
      else Some (emit (SetExportFormat f))
  | ConfirmExport =>
      if loading s || negb (showExportDialog s) || exporting s then None
      else Some (handleExport (project s) (scenes s) (exportFormat s))
  | CloseExport =>
      if loading s || negb (showExportDialog s) || exporting s then None
      else Some (emit (SetShowExportDialog false))
  | AudioEnded a => x ← audios w !! a; cb ← onended x; Some (invoke cb no_error)
  | AudioError a => x ← audios w !! a; cb ← onerror x; Some (invoke cb no_error)
  | PlayRejected a err => x ← audios w !! a; cb ← play_catch x; Some (invoke cb err)
  | Tick timer => cb ← intervals w !! timer; Some (invoke cb no_error)
  | Timeout n => cb ← timeouts w !! n; Some (invoke cb no_error)
  | Settled promise server =>
      '(r, k) ← pending w !! promise; Some (k (settle server r))
  end.

(** A timeout fires once and a promise settles once. *)
Definition consume (a : action) (w : world) : world :=
  match a with
  | Timeout n => on_timeouts (delete n) w
  | Settled promise _ =>
      {| st := st w; audios := audios w; intervals := intervals w;
         next_timer := next_timer w; timeouts := timeouts w;
         pending := delete promise (pending w);
         next_promise := next_promise w; log := log w |}
  | _ => w
  end.

(** A handler that stops at an [await] waits under a new promise. *)
Definition suspend (r : request) (k : reply -> handler) (w : world) : world :=
  {| st := st w; audios := audios w; intervals := intervals w;
     next_timer := next_timer w; timeouts := timeouts w;
     pending := <[next_promise w := (r, k)]> (pending w);
     next_promise := S (next_promise w); log := log w |}.

(** After a task React renders; if [currentAudio] is another value than
    at the render before, the cleanup registered then runs (the effect
    [useEffect(() => () => { if (currentAudio) currentAudio.pause() },
    [currentAudio])]). *)
Definition commit (rendered : option nat) (w : world) : world :=
  if decide (currentAudio (st w) = rendered) then w
  else snd (run_task exec sent (audio_cleanup rendered) w).

(** One task of the event loop: the handler runs to its end or to its
    next [await], and React renders. *)
Definition task (h : handler) (w : world) : world :=
  let rendered := currentAudio (st w) in
  commit rendered
    match run_task exec sent h w with
    | (Finished _, w') => w'
    | (Suspended r k, w') => suspend r k w'
    end.

Definition dispatch (w : world) (a : action) : world :=
  match handler_of w a with
  | Some h => task h (consume a w)
  | None => w
  end.

Definition session (w : world) (acts : list action) : world :=
  fold_left dispatch acts w.

(** The page after its first render: the effect of the mount has
    started [loadProject].  ([projectId] does not change, so this effect
    runs once; its cleanup closes over the [currentAudio] of the first
    render, which is [null].) *)
Definition mounted : world :=
  task loadProject
    {| st := initial; audios := []; intervals := ∅; next_timer := 0;
       timeouts := []; pending := ∅; next_promise := 0; log := [] |}.

(** *** Vocabulary of the properties *)

(** The event a platform call logs. *)
Definition event_of {X : Type} (c : call X) (w : world) : event :=
  match c with
  | Emit e => e
  | NewAudio url => Created (length (audios w)) url
  | SetInterval cb ms => IntervalSet (next_timer w) cb ms
  | CreateObjectURL content => ObjectURLCreated content ("blob:" ++ content)
  end.

Definition is_sent (e : event) : Prop :=
  match e with Sent _ => True | _ => False end.

(** Every event the handler can log satisfies [Q], however its
    requests settle. *)
Inductive emits (Q : event -> Prop) {A : Type} : prog call request reply A -> Prop :=
| emits_Ret (a : A) : emits Q (Ret a)
| emits_Throw (e : js_error) : emits Q (Throw e)
| emits_Call {X : Type} (c : call X) (k : X -> prog call request reply A) :
    (forall w, Q (event_of c w)) -> (forall x, emits Q (k x)) ->
    emits Q (Call c k)
| emits_Await (r : request) (k : reply -> prog call request reply A) :
    (forall rep, emits Q (k rep)) -> emits Q (Await r k).

Definition get_project : request :=
  AxiosGet (API ++ "/projects/" ++ projectId).

Definition get_scenes : request :=
  AxiosGet (API ++ "/projects/" ++ projectId ++ "/scenes").

(** Card [index] shows [sc] with its edit and play buttons. *)
Definition displayed (w : world) (index : nat) (sc : scene) : Prop :=
  loading (st w) = false
  /\ scenes (st w) !! index = Some sc
  /\ editingScene (st w) <> Some (id sc).

(** The save button of card [index], which shows [sc], is offered. *)
Definition save_offered (w : world) (index : nat) (sc : scene) : Prop :=
  loading (st w) = false
  /\ saving (st w) = false
  /\ scenes (st w) !! index = Some sc
  /\ editingScene (st w) = Some (id sc).

Definition save_request (sceneId text : string) : request :=
  AxiosPut (API ++ "/scenes/" ++ sceneId) text.

(** The confirm button of the export dialog is offered. *)
Definition export_offered (w : world) : Prop :=
  loading (st w) = false
  /\ showExportDialog (st w) = true
  /\ exporting (st w) = false.

Definition export_request (format : string) : request :=
  AxiosPost (API ++ "/export/" ++ projectId) format.

(** The page [n] ticks into an export confirmed at [w]. *)
Definition ticking (w : world) (n : nat) : world :=
  session (dispatch w ConfirmExport) (replicate n (Tick (next_timer w))).

(** The action settles the request awaited under [p]. *)
Definition settles (p : nat) (a : action) : bool :=
  match a with Settled q _ => Nat.eqb q p | _ => false end.

(** What holds of the timer [t] and the promise [p] of an export from
    its start on: until the request settles its handler waits under [p]
    and will clear [t] when resumed; afterwards [t] is not running. *)
Definition export_inv (t p : nat) (settled : bool) (w : world) : Prop :=
  t < next_timer w /\ p < next_promise w
  /\ if settled
     then pending w !! p = None /\ intervals w !! t = None
     else exists r k,
            pending w !! p = Some (r, k)
            /\ forall rep w0, intervals (snd (run_task exec sent (k rep) w0)) !! t = None.

(** The clip [a] is playing: its element is not paused. *)
Definition playing (w : world) (a : nat) : Prop :=
  exists x, audios w !! a = Some x /\ paused x = false.

Definition at_most_one_playing (w : world) : Prop :=
  forall a b, playing w a -> playing w b -> a = b.

(** No clip is playing but, possibly, [t]. *)
Definition only_playing (t : option nat) (w : world) : Prop :=
  forall a, playing w a -> t = Some a.

Definition is_play (e : event) : Prop :=
  match e with Play _ _ => True | _ => False end.

(** [P] holds of the page before the events of [l] and after each. *)
Fixpoint always (P : world -> Prop) (l : list event) (w : world) : Prop :=
  P w /\ match l with
         | [] => True
         | e :: l' => always P l' (record e w)
         end.

(** A list of events that takes the page from "no clip is playing but
    [t]" to "no clip is playing but [t']": nothing is played while
    another clip may be playing. *)
Inductive flight : option nat -> list event -> option nat -> Prop :=
| flight_nil (t : option nat) : flight t [] t
| flight_other (t t' : option nat) (e : event) (l : list event) :
    ~ is_play e -> flight t l t' -> flight t (e :: l) t'
| flight_pause (a : nat) (t' : option nat) (l : list event) :
    flight None l t' -> flight (Some a) (Pause a :: l) t'
| flight_play (t : option nat) (b : nat) (cb : callback) (t' : option nat)
    (l : list event) :
    (t = None \/ t = Some b) ->
    flight (Some b) l t' -> flight t (Play b cb :: l) t'.

(** Events that neither start a clip nor move the tracked reference. *)
Definition quiet (e : event) : Prop :=
  match e with Play _ _ | SetCurrentAudio _ => False | _ => True end.

(** How a task leaves the page: with its handler finished, or
    suspended under a new promise. *)
Definition finish (s : status unit) (w : world) : world :=
  match s with
  | Finished _ => w
  | Suspended r k => suspend r k w
  end.

(** The events of the render after a handler that logged [l]. *)
Definition cleanup_events (l : list event) (w : world) : list event :=
  if decide (currentAudio (st (replay l w)) = currentAudio (st w)) then []
  else match currentAudio (st w) with
       | Some a => [Pause a]
       | None => []
       end.

(** What the page keeps between tasks: no clip is playing but the
    tracked one, the tracked reference is an element of the page, and
    the suspended handlers are quiet. *)
Definition tracked (w : world) : Prop := only_playing (currentAudio (st w)) w.

Definition valid_ref (w : world) : Prop :=
  forall t, currentAudio (st w) = Some t -> t < length (audios w).

Definition pending_quiet (w : world) : Prop :=
  forall p r k, pending w !! p = Some (r, k) -> forall rep, emits quiet (k rep).

Definition audio_inv (w : world) : Prop :=
  tracked w /\ valid_ref w /\ pending_quiet w.

(** Events that leave the scene list and the two busy flags alone. *)
Definition keep (e : event) : Prop :=
  match e with
  | SetScenes _ | SetSaving _ | SetLoading _ => False
  | _ => True
  end.

(** The suspended handler runs to its end when it is resumed. *)
Definition finishes (k : reply -> handler) : Prop :=
  forall rep w, exists o, fst (run_task exec sent (k rep) w) = Finished o.

(** At most one suspended handler writes the scene list, and the page
    is loading or saving while it waits. *)
Definition one_writer (w : world) : Prop :=
  exists writer : option nat,
    forall p r k, pending w !! p = Some (r, k) ->
      (forall rep, emits keep (k rep))
      \/ (writer = Some p /\ finishes k
          /\ (saving (st w) = true \/ loading (st w) = true)).

(** The page while the save awaited under [p] is in flight: the scene
    list is [l] and no other suspended handler writes it. *)
Definition saving_under (p : nat) (r : request) (k : reply -> handler)
    (l : list scene) (w : world) : Prop :=
  p < next_promise w
  /\ pending w !! p = Some (r, k)
  /\ scenes (st w) = l
  /\ saving (st w) = true
  /\ forall q r' k', q <> p -> pending w !! q = Some (r', k') ->
       forall rep, emits keep (k' rep).

(** The handlers the page can start, by what they do to the audio:
    nothing, or one of the three ways the source touches it. *)
Inductive handler_class (cur : option nat) : handler -> Prop :=
| class_quiet (h : handler) : emits quiet h -> handler_class cur h
| class_edit (a : nat) (sc : scene) :
    cur = Some a -> handler_class cur (handleEditScene (Some a) sc)
| class_play (path : string) :
    handler_class cur (playAudio cur path)
| class_clear (cb : callback) (err : js_error) :
    cb = OnEnded \/ cb = OnError \/ cb = OnPlayRejected ->
    handler_class cur (invoke cb err).

(** The address [playAudio] gives the element it creates. *)
Definition audio_url (audioPath : string) : string :=
  API ++ "/audio/" ++ projectId ++ "/" ++ pop (split "/" audioPath).

(** What [playAudio] logs when it creates the element [b]. *)
Definition play_events (cur : option nat) (b : nat) (url : string) : list event :=
  match cur with
  | Some a => [Pause a; SetCurrentTime a 0]
  | None => []
  end
  ++ [Created b url; SetOnEnded b OnEnded; SetOnError b OnError;
      SetCurrentAudio (Some b); Play b OnPlayRejected].

(** What the error toast of an export that failed with [err] is given. *)
Definition display_message (err : js_error) : detail :=
  let errorMessage :=
    detail_or (response_detail err)
              (or_else (Some (message err)) "Failed to export video") in
  match errorMessage with
  | Text s =>
      if Nat.ltb 100 (js_length s)
      then Text "Video export failed. Please check if all scenes have valid audio."
      else errorMessage
  | NotText => errorMessage
  end.

(** The address an export is downloaded from and the anchor element
    that is clicked for it. *)
Definition download_from (response : value) : string :=
  BACKEND_URL ++ template (download_url_of response).

Definition download_link (project : option project_info) (exportFormat : string)
    (blob : value) : link :=
  {| href := "blob:" ++ content_of blob;
     download := "exported_" ++ or_else (original_filename <$> project) "video"
                 ++ "." ++ exportFormat |}.

(** What the handler of an export logs when the download fails. *)
Definition download_failed (e : js_error) : list event :=
  [ConsoleError "Download error:" e;
   Toast error "Download failed. Please try again.";
   TimeoutSet CloseDialog 1500;
   SetExporting false].

(** The actions of the user, as opposed to the callbacks of the
    platform. *)
Definition control (a : action) : bool :=
  match a with
  | ClickEdit _ | ClickPlay _ | TypeText _ _ | ClickSave _ | ClickCancel _
  | ClickBack | OpenExport | ChooseFormat _ | ConfirmExport | CloseExport => true
  | _ => false
  end.

(** The three callbacks of an audio element. *)
Definition audio_callback (a : action) : bool :=
  match a with
  | AudioEnded _ | AudioError _ | PlayRejected _ _ => true
  | _ => false
  end.

(** Events that give an audio element the callbacks of [playAudio]. *)
Definition wired (e : event) : Prop :=
  match e with
  | SetOnEnded _ cb => cb = OnEnded
  | SetOnError _ cb => cb = OnError
  | Play _ cb => cb = OnPlayRejected
  | _ => True
  end.

(** The callbacks of the elements of the page are those of
    [playAudio], and the suspended handlers set no other. *)
Definition callbacks_wired (l : list audio) : Prop :=
  forall a x, l !! a = Some x ->
    (forall cb, onended x = Some cb -> cb = OnEnded)
    /\ (forall cb, onerror x = Some cb -> cb = OnError)
    /\ (forall cb, play_catch x = Some cb -> cb = OnPlayRejected).

Definition wired_inv (w : world) : Prop :=
  callbacks_wired (audios w)
  /\ forall p r k, pending w !! p = Some (r, k) -> forall rep, emits wired (k rep).

(** *** Leaving the page

    The cleanup of the effect of the mount
    ([useEffect(() => { loadProject(); return () => {...} }, [projectId])])
    closes over the [currentAudio] of the render that registered it. *)
Definition mount_cleanup (currentAudio : option nat) : handler :=
  match currentAudio with
  | Some a =>
      emit (Pause a) ;;
      emit (SetCurrentTime a 0)
  | None => Ret tt
  end.

(** When the page is left React runs the cleanups of both effects: that
    of the mount, registered by the first render, and that of the effect
    on [currentAudio], registered by the last render that changed it. *)
Definition unmount (w : world) : world :=
  snd (run_task exec sent
         (mount_cleanup (currentAudio initial) ;;
          audio_cleanup (currentAudio (st w))) w).

(** *** The export dialog

    The progress panel: its caption, the percentage, the estimated
    time that remains (when shown) and whether "Almost done..." is
    shown. *)
Record progress_panel := {
  caption : string;
  percent : float;
  remaining : option float;
  almost_done : bool;
}.

Record dialog := {
  chosen : string;
  controls_disabled : bool;
  confirm_label : string;
  panel : option progress_panel;
}.

Definition render_dialog (s : state) : option dialog :=
  if loading s || negb (showExportDialog s) then None
  else Some
    {| chosen := exportFormat s;
       controls_disabled := exporting s;
       confirm_label :=
         if exporting s then "Exporting..."
         else "Export as " ++ toUpperCase (exportFormat s);
       panel :=
         if exporting s
         then Some
           {| caption := if (95 <=? exportProgress s)%float
                         then "Finalizing export..." else "Processing video...";
              percent := js_round (exportProgress s);
              remaining :=
                if Z.ltb 0 (estimatedTime s) && (exportProgress s <? 95)%float
                then Some (js_max 1 (js_round (of_Z (estimatedTime s)
                                               * (1 - exportProgress s / 85))))
                else None;
              almost_done := (95 <=? exportProgress s)%float
                             && (exportProgress s <? 100)%float |}
         else None |}.





(** *** The life of an export *)








End Component.

Definition events_since (w w' : world) : list event :=
  drop (length (log w)) (log w').

End EditorPage.

(** ** Sample data *)

Definition clip_mp4 : HomePage.file :=
  {| HomePage.name := "clip.mp4"; HomePage.type := "video/mp4" |}.

Definition notes_pdf : HomePage.file :=
  {| HomePage.name := "notes.pdf"; HomePage.type := "application/pdf" |}.

Definition offline : js_error :=
  {| message := "Network Error"; response_detail := None |}.

(** A server that creates project "p1" and analyses it. *)
Definition server_ok (r : HomePage.request) : HomePage.reply :=
  HomePage.Resolved {| HomePage.id := Some "p1" |}.

(** A server that creates project "p1" and fails to analyse it. *)
Definition server_no_analysis (r : HomePage.request) : HomePage.reply :=
  match HomePage.data r with
  | Some _ => HomePage.Resolved {| HomePage.id := Some "p1" |}
  | None => HomePage.Rejected offline
  end.

Definition clip_selected : HomePage.world :=
  HomePage.dispatch "http://localhost:8001" server_ok HomePage.mounted
    (HomePage.Drop {| HomePage.dataTransfer_files := [clip_mp4] |}).

(** A project of two scenes and a server that answers every request. *)
Definition door_scene : EditorPage.scene :=
  {| EditorPage.id := "s1"; EditorPage.timestamp := 1 # 2;
     EditorPage.description := "A door opens.";
     EditorPage.thumbnail_path := "/data/p1/thumbs/s1.jpg";
     EditorPage.audio_path := "/data/p1/audio/s1.mp3" |}.

Definition street_scene : EditorPage.scene :=
  {| EditorPage.id := "s2"; EditorPage.timestamp := 21 # 5;
     EditorPage.description := "A street at night.";
     EditorPage.thumbnail_path := "/data/p1/thumbs/s2.jpg";
     EditorPage.audio_path := "/data/p1/audio/s2.mp3" |}.

Definition editor_server (l : list EditorPage.scene) (r : EditorPage.request)
  : EditorPage.reply :=
  match r with
  | EditorPage.AxiosGet u =>
      if String.eqb u "http://localhost:8001/api/projects/p1"
      then EditorPage.Resolved
             (EditorPage.ProjectData {| EditorPage.original_filename := "clip.mp4" |})
      else EditorPage.Resolved (EditorPage.ScenesData l)
  | EditorPage.AxiosPost _ _ =>
      EditorPage.Resolved (EditorPage.ExportData (Some "/api/download/p1"))
  | EditorPage.Fetch _ => EditorPage.Resolved (EditorPage.FetchResponse true)
  | EditorPage.ReadBlob _ => EditorPage.Resolved (EditorPage.BlobData "video")
  | _ => EditorPage.Resolved EditorPage.Undefined
  end.

Definition editor_session (l : list EditorPage.scene) (acts : list EditorPage.action)
  : EditorPage.world :=
  EditorPage.session "http://localhost:8001" "p1"
    (EditorPage.mounted "http://localhost:8001" "p1")
    (EditorPage.Settled 0 (editor_server l) :: acts).

(** The two scenes loaded, and the first one playing. *)
Definition door_playing : EditorPage.world :=
  editor_session [door_scene; street_scene] [EditorPage.ClickPlay 0].

(** The first scene in edit mode with a new draft. *)
Definition door_edited : EditorPage.world :=
  editor_session [door_scene; street_scene]
    [EditorPage.ClickEdit 0; EditorPage.TypeText 0 "A red door opens."].

(** A project of one scene with the export dialog open. *)
Definition dialog_open : EditorPage.world :=
  editor_session [door_scene] [EditorPage.OpenExport].

Definition export_refused : js_error :=
  {| message := "Request failed with status code 500";
     response_detail := Some (Text "Export failed") |}.

(** A server that stores the upload and answers without an id. *)
Definition server_no_id (r : HomePage.request) : HomePage.reply :=
  HomePage.Resolved {| HomePage.id := None |}.

(** An editor server that is not reachable, and one that exports but
    does not serve the file. *)
Definition editor_offline (r : EditorPage.request) : EditorPage.reply :=
  EditorPage.Rejected offline.

Definition no_download (r : EditorPage.request) : EditorPage.reply :=
  match r with
  | EditorPage.Fetch _ => EditorPage.Rejected offline
  | _ => editor_server [door_scene] r
  end.

(** The page just after an export of the one-scene project was
    downloaded: the dialog is still open and its two timeouts are
    pending. *)
Definition export_done : EditorPage.world :=
  editor_session [door_scene]
    [EditorPage.OpenExport; EditorPage.ConfirmExport;
     EditorPage.Settled 1 (editor_server [door_scene]);
     EditorPage.Settled 2 (editor_server [door_scene]);
     EditorPage.Settled 3 (editor_server [door_scene]);
     EditorPage.Settled 4 (editor_server [door_scene])].

(** * Properties *)

Section HomePageProperties.
Import HomePage.
Variable BACKEND_URL : string.
Variable server : request -> reply.

Local Abbreviation dispatch := (HomePage.dispatch BACKEND_URL server).
Local Abbreviation session := (HomePage.session BACKEND_URL server).
Local Abbreviation upload_request := (HomePage.upload_request BACKEND_URL).
Local Abbreviation analyze_request := (HomePage.analyze_request BACKEND_URL).

Lemma events_since_app (w : world) (l : list event) (w' : world) :
  log w' = log w ++ l -> events_since w w' = l.
Proof.
  intros E. unfold events_since. rewrite E. by rewrite drop_app_length.
Qed.

(** Every task appends to the log; what it sends carries the
    selection of the render it ran in, and a selection it makes is a
    video. *)
Lemma dispatch_spec (w : world) (a : action) :
  exists evs : list event,
    log (dispatch w a) = log w ++ evs
    /\ (forall r g, r ∈ requests evs -> g ∈ files_of r ->
          selectedFile (st w) = Some g)
    /\ (selectedFile (st (dispatch w a)) = selectedFile (st w)
        \/ exists g, selectedFile (st (dispatch w a)) = Some g
                     /\ offered a = Some g /\ is_video g = true).
Proof.
  destruct w as [s l].
  destruct a as [[fs]|[fs]|];
    unfold dispatch, handler_of, handleDrop, handleFileSelect, handleUpload;
    simpl.
  - destruct fs as [|f fs]; simpl.
    + eexists. rewrite <- !app_assoc. split; [reflexivity|].
      split; [|by left]. simpl. intros r g Hr. inversion Hr.
    + unfold is_video. destruct (startsWith (type f) "video/") eqn:V; simpl.
      * eexists. rewrite <- !app_assoc. split; [reflexivity|].
        split; [simpl; intros r g Hr; inversion Hr|]. right. eauto.
      * eexists. rewrite <- !app_assoc. split; [reflexivity|].
        split; [simpl; intros r g Hr; inversion Hr|]. by left.
  - destruct fs as [|f fs]; simpl.
    + exists []. rewrite app_nil_r. split; [done|].
      split; [|by left]. simpl. intros r g Hr. inversion Hr.
    + unfold is_video. destruct (startsWith (type f) "video/") eqn:V; simpl.
      * eexists. split; [reflexivity|].
        split; [simpl; intros r g Hr; inversion Hr|]. right. eauto.
      * eexists. split; [reflexivity|].
        split; [simpl; intros r g Hr; inversion Hr|]. by left.
  - destruct s as [[f|] u d]; simpl;
      [|exists []; rewrite app_nil_r; split; [done|];
        split; [simpl; intros r g Hr; inversion Hr|by left]].
    destruct u; simpl;
      [exists []; rewrite app_nil_r; split; [done|];
        split; [simpl; intros r g Hr; inversion Hr|by left]|].
    destruct (server _) as [r1|e1]; simpl;
      [destruct (server _) as [r2|e2]; simpl|];
      (eexists; rewrite <- !app_assoc; split; [reflexivity|];
       split; [|by left]; simpl; intros r g Hr Hg;
       repeat (apply elem_of_cons in Hr as [->|Hr]); try (by inversion Hr);
       simpl in Hg; try (by inversion Hg);
       apply list_elem_of_singleton in Hg; by subst).
Qed.

Lemma dispatch_log (w : world) (a : action) :
  log (dispatch w a) = log w ++ events_since w (dispatch w a).
Proof.
  destruct (dispatch_spec w a) as (evs & E & _).
  by rewrite (events_since_app _ _ _ E).
Qed.

Lemma session_log (acts : list action) (w : world) :
  log (session w acts) = log w ++ events_since w (session w acts).
Proof.
  revert w. induction acts as [|a acts IH]; intros w; simpl.
  - unfold events_since. by rewrite drop_all, app_nil_r.
  - symmetry. rewrite IH at 1. rewrite dispatch_log, <- app_assoc.
    apply (f_equal (app (log w))), events_since_app.
    rewrite IH at 1. by rewrite dispatch_log, <- app_assoc.
Qed.

Lemma dispatch_video_selected (w : world) (a : action) :
  video_selected w -> video_selected (dispatch w a).
Proof.
  intros I g Hg. destruct (dispatch_spec w a) as (_ & _ & _ & [E|(g' & E & _ & V)]).
  - apply I. by rewrite <- E.
  - rewrite E in Hg. by inversion Hg; subst.
Qed.

Lemma session_video_selected (acts : list action) (w : world) :
  video_selected w -> video_selected (session w acts).
Proof.
  revert w. induction acts as [|a acts IH]; intros w I; simpl; [done|].
  by apply IH, dispatch_video_selected.
Qed.

(** Whatever the user does, every request carries videos only. *)
Lemma session_sends_videos (acts : list action) (w : world) (r : request) (g : file) :
  video_selected w ->
  r ∈ requests (events_since w (session w acts)) -> g ∈ files_of r ->
  is_video g = true.
Proof.
  revert w. induction acts as [|a acts IH]; intros w I Hr Hg; simpl in Hr.
  - unfold events_since in Hr. rewrite drop_all in Hr. inversion Hr.
  - destruct (dispatch_spec w a) as (evs & E & S & _).
    assert (events_since w (session (dispatch w a) acts)
            = evs ++ events_since (dispatch w a) (session (dispatch w a) acts)) as X.
    { apply events_since_app. rewrite session_log, E. by rewrite app_assoc. }
    rewrite X in Hr. unfold requests in Hr. rewrite omap_app in Hr.
    apply elem_of_app in Hr as [Hr|Hr].
    + apply I. by apply (S r g).
    + apply (IH (dispatch w a)); [by apply dispatch_video_selected|done|done].
Qed.

Lemma mounted_video_selected : video_selected mounted.
Proof. intros g Hg. inversion Hg. Qed.

(** What a drop or a file selection logs, by the first file of its
    event, and what it does to the selection. *)
Lemma offer_spec (w : world) (a : action) :
  a <> ClickUpload ->
  let w' := dispatch w a in
  requests (events_since w w') = []
  /\ error_toasts (events_since w w')
     = match offered a with
       | Some g => if is_video g then [] else ["Please upload a video file"]
       | None => []
       end
  /\ selectedFile (st w')
     = match offered a with
       | Some g => if is_video g then Some g else selectedFile (st w)
       | None => selectedFile (st w)
       end.
Proof.
  intros Na w'. subst w'. destruct w as [s l]. unfold is_video.
  destruct a as [[fs]|[fs]|]; [| |done];
    (destruct fs as [|g fs];
     unfold dispatch, handler_of, handleDrop, handleFileSelect; simpl;
     [|destruct (startsWith (type g) "video/"); simpl];
     (split; [|split; [|done]]);
     (erewrite events_since_app;
      [|simpl; rewrite <- ?app_assoc; try reflexivity; by rewrite app_nil_r]);
     done).
Qed.

(** C4 (as the code has it): of the files of a drop or of a file
    selection the handlers examine the first only.  For every file [f]
    of the event whose declared MIME type does not begin with "video/":
    the action sends nothing and does not select [f]; the error toast is
    shown exactly when the first file of the event is not a video, so
    when [f] is the first file it is shown and the selection stays as it
    was; and whatever the user does afterwards, no request carries [f],
    nor any other file that is not a video. *)
Theorem non_video_file_rejected (before : list action) (a : action) (f : file) :
  f ∈ carried a -> is_video f = false ->
  let w := session mounted before in
  let w' := dispatch w a in
  requests (events_since w w') = []
  /\ selectedFile (st w') <> Some f
  /\ error_toasts (events_since w w')
     = match offered a with
       | Some g => if is_video g then [] else ["Please upload a video file"]
       | None => []
       end
  /\ (offered a = Some f ->
      error_toasts (events_since w w') = ["Please upload a video file"]
      /\ selectedFile (st w') = selectedFile (st w))
  /\ forall (later : list action) (r : request),
       r ∈ requests (events_since w' (session w' later)) ->
       (f ∉ files_of r) /\ forall g, g ∈ files_of r -> is_video g = true.
Proof.
  intros C V w w'.
  assert (a <> ClickUpload) as Na by (intros ->; inversion C).
  destruct (offer_spec w a Na) as (R & T & S). fold w' in R, T, S.
  assert (video_selected w) as Iw
    by apply session_video_selected, mounted_video_selected.
  assert (video_selected w') as Iw' by by apply dispatch_video_selected.
  split; [done|].
  split; [intros Hf; apply Iw' in Hf; congruence|].
  split; [done|].
  split; [intros O; rewrite T, S, O, V; done|].
  intros later r Hr.
  assert (forall g, g ∈ files_of r -> is_video g = true) as Vs.
  { intros g Hg. by eapply (session_sends_videos later w'). }
  split; [|done]. intros Hf. apply Vs in Hf. congruence.
Qed.

(** The upload button pressed on a screen that holds [f] and is not
    uploading: the log of the whole flow, by how the two requests settle. *)
Lemma upload_flow (w : world) (f : file) :
  selectedFile (st w) = Some f -> uploading (st w) = false ->
  let w' := dispatch w ClickUpload in
  selectedFile (st w') = Some f
  /\ uploading (st w') = false
  /\ events_since w w' =
      [SetUploading true; Sent (upload_request f)] ++
      match server (upload_request f) with
      | Resolved r =>
          let projectId := template (id r) in
          [Toast success "Video uploaded successfully!";
           Toast info "Analyzing video for scene cuts...";
           Sent (analyze_request projectId)] ++
          match server (analyze_request projectId) with
          | Resolved _ =>
              [Toast success "Analysis complete!";
               Navigate ("/editor/" ++ projectId)]
          | Rejected err =>
              [ConsoleError "Upload error:" err;
               Toast error "Failed to upload video"]
          end
      | Rejected err =>
          [ConsoleError "Upload error:" err;
           Toast error "Failed to upload video"]
      end ++ [SetUploading false].
Proof.
  destruct w as [[sel u d] l]. simpl. intros -> ->.
  unfold dispatch, handler_of, handleUpload, HomePage.upload_request,
    HomePage.analyze_request; simpl.
  destruct (server _) as [r1|e1]; simpl;
    [destruct (server _) as [r2|e2]; simpl|];
    (split; [done|]; split; [done|];
     apply events_since_app; simpl; by rewrite <- !app_assoc).
Qed.

(** C5: when the upload request returns a project id, exactly one
    analysis request follows, for that id; the handler navigates to the
    editor of that id only when the analysis request succeeded too, after
    both requests, and does not navigate otherwise. *)
Theorem upload_then_analyze_then_navigate (w : world) (f : file) (pid : string) :
  selectedFile (st w) = Some f -> uploading (st w) = false ->
  server (upload_request f) = Resolved {| id := Some pid |} ->
  let evs := events_since w (dispatch w ClickUpload) in
  requests evs = [upload_request f; analyze_request pid]
  /\ match server (analyze_request pid) with
     | Resolved _ =>
         exists pre mid,
           evs = pre ++ Sent (upload_request f) :: mid ++
                 Sent (analyze_request pid) ::
                 [Toast success "Analysis complete!";
                  Navigate ("/editor/" ++ pid); SetUploading false]
           /\ navigations pre = [] /\ navigations mid = []
     | Rejected _ => navigations evs = []
     end.
Proof.
  intros Sel U Up evs. subst evs.
  destruct (upload_flow w f Sel U) as (_ & _ & ->). rewrite Up. simpl.
  destruct (server (analyze_request pid)) as [r2|e2]; simpl.
  - split; [done|]. exists [SetUploading true].
    exists [Toast success "Video uploaded successfully!";
            Toast info "Analyzing video for scene cuts..."].
    by split.
  - by split.
Qed.

(** C6: when the upload request or the analysis request fails, the
    error toast is shown, the handler does not navigate, the selection is
    the same file, and each request was sent once. *)
Theorem upload_failure_reported (w : world) (f : file) :
  selectedFile (st w) = Some f -> uploading (st w) = false ->
  (exists err, server (upload_request f) = Rejected err)
  \/ (exists r err, server (upload_request f) = Resolved r
        /\ server (analyze_request (template (id r))) = Rejected err) ->
  let w' := dispatch w ClickUpload in
  let evs := events_since w w' in
  error_toasts evs = ["Failed to upload video"]
  /\ navigations evs = []
  /\ selectedFile (st w') = Some f
  /\ (requests evs = [upload_request f]
      \/ exists projectId, requests evs = [upload_request f; analyze_request projectId]).
Proof.
  intros Sel U Fail w' evs. subst evs w'.
  destruct (upload_flow w f Sel U) as (S' & _ & ->).
  destruct Fail as [(err & ->)|(r & err & -> & Hr)]; simpl.
  - repeat split; try done. by left.
  - rewrite Hr. simpl. repeat split; try done. right. by eexists.
Qed.

(** C10: with a video selected, a non-video file that is selected or
    dropped leaves the selection as it was, and the upload button then
    uploads the video selected before. *)
Theorem rejected_file_keeps_selection (w : world) (a : action) (v f : file) :
  selectedFile (st w) = Some v -> uploading (st w) = false ->
  offered a = Some f -> is_video f = false ->
  let w1 := dispatch w a in
  let w2 := dispatch w1 ClickUpload in
  selectedFile (st w1) = Some v
  /\ exists rest, requests (events_since w1 w2) = upload_request v :: rest.
Proof.
  intros Sel U O V w1 w2.
  assert (selectedFile (st w1) = Some v /\ uploading (st w1) = false) as [S1 U1].
  { subst w1. clear w2. destruct w as [[sel u d] l]. simpl in Sel, U. subst.
    unfold is_video in V.
    destruct a as [[fs]|[fs]|]; simpl in O; try discriminate;
      destruct fs as [|f' fs]; simpl in O; try discriminate;
      injection O as ->;
      unfold dispatch, handler_of, handleDrop, handleFileSelect; simpl;
      by rewrite V. }
  split; [done|]. subst w2.
  destruct (upload_flow w1 v S1 U1) as (_ & _ & ->). simpl.
  by eexists.
Qed.

End HomePageProperties.

(** Concrete instances. *)

Lemma non_video_file_rejected_witness :
  let a := HomePage.Drop {| HomePage.dataTransfer_files := [notes_pdf; clip_mp4] |} in
  let w := HomePage.session "http://localhost:8001" server_ok HomePage.mounted
             [HomePage.Drop {| HomePage.dataTransfer_files := [clip_mp4] |}] in
  let w' := HomePage.dispatch "http://localhost:8001" server_ok w a in
  notes_pdf ∈ HomePage.carried a
  /\ HomePage.is_video notes_pdf = false
  /\ HomePage.requests (HomePage.events_since w w') = []
  /\ HomePage.error_toasts (HomePage.events_since w w') = ["Please upload a video file"]
  /\ HomePage.selectedFile (HomePage.st w') = Some clip_mp4.
Proof.
  assert (notes_pdf ∈ [notes_pdf; clip_mp4]) as C by repeat constructor.
  split; [exact C|]. split; [reflexivity|].
  destruct (non_video_file_rejected "http://localhost:8001" server_ok
              [HomePage.Drop {| HomePage.dataTransfer_files := [clip_mp4] |}]
              (HomePage.Drop {| HomePage.dataTransfer_files := [notes_pdf; clip_mp4] |})
              notes_pdf C eq_refl) as (R & _ & _ & O & _).
  split; [exact R|]. exact (O eq_refl).
Defined.

(** C4 as stated fails for a file that is not the first of its event:
    when a video and a document are dropped together, video first, the
    document is ignored without an error toast and the video is
    selected. *)
Lemma later_file_ignored_silently :
  let a := HomePage.Drop {| HomePage.dataTransfer_files := [clip_mp4; notes_pdf] |} in
  let w' := HomePage.dispatch "http://localhost:8001" server_ok HomePage.mounted a in
  notes_pdf ∈ HomePage.carried a
  /\ HomePage.is_video notes_pdf = false
  /\ HomePage.error_toasts (HomePage.events_since HomePage.mounted w') = []
  /\ HomePage.selectedFile (HomePage.st w') = Some clip_mp4.
Proof.
  split; [by repeat constructor|]. split; [reflexivity|]. split; reflexivity.
Qed.

Lemma upload_then_analyze_then_navigate_witness :
  HomePage.requests
    (HomePage.events_since clip_selected
       (HomePage.dispatch "http://localhost:8001" server_ok clip_selected
          HomePage.ClickUpload))
  = [HomePage.upload_request "http://localhost:8001" clip_mp4;
     HomePage.analyze_request "http://localhost:8001" "p1"].
Proof.
  exact (proj1 (upload_then_analyze_then_navigate "http://localhost:8001"
                  server_ok clip_selected clip_mp4 "p1" eq_refl eq_refl eq_refl)).
Defined.

Lemma upload_failure_reported_witness :
  let w' := HomePage.dispatch "http://localhost:8001" server_no_analysis
              clip_selected HomePage.ClickUpload in
  HomePage.error_toasts (HomePage.events_since clip_selected w')
    = ["Failed to upload video"]
  /\ HomePage.navigations (HomePage.events_since clip_selected w') = []
  /\ HomePage.selectedFile (HomePage.st w') = Some clip_mp4.
Proof.
  destruct (upload_failure_reported "http://localhost:8001" server_no_analysis
              clip_selected clip_mp4 eq_refl eq_refl) as (T & N & S & _).
  - right. exists {| HomePage.id := Some "p1" |}, offline. split; reflexivity.
  - split; [exact T|]. split; [exact N|exact S].
Defined.

Lemma rejected_file_keeps_selection_witness :
  let a := HomePage.Drop {| HomePage.dataTransfer_files := [notes_pdf; clip_mp4] |} in
  HomePage.selectedFile
    (HomePage.st (HomePage.dispatch "http://localhost:8001" server_ok clip_selected a))
  = Some clip_mp4.
Proof.
  exact (proj1 (rejected_file_keeps_selection "http://localhost:8001" server_ok
                  clip_selected
                  (HomePage.Drop {| HomePage.dataTransfer_files := [notes_pdf; clip_mp4] |})
                  clip_mp4 notes_pdf eq_refl eq_refl eq_refl eq_refl)).
Defined.

Section EditorPageProperties.
Import EditorPage.
Variable BACKEND_URL : string.
Variable projectId : string.

Local Abbreviation dispatch := (EditorPage.dispatch BACKEND_URL projectId).
Local Abbreviation session := (EditorPage.session BACKEND_URL projectId).
Local Abbreviation handler_of := (EditorPage.handler_of BACKEND_URL projectId).
Local Abbreviation mounted := (EditorPage.mounted BACKEND_URL projectId).
Local Abbreviation run_task := (run_task exec sent).
Local Abbreviation get_project := (EditorPage.get_project BACKEND_URL projectId).
Local Abbreviation get_scenes := (EditorPage.get_scenes BACKEND_URL projectId).
Local Abbreviation save_request := (EditorPage.save_request BACKEND_URL).
Local Abbreviation export_request := (EditorPage.export_request BACKEND_URL projectId).
Local Abbreviation ticking := (EditorPage.ticking BACKEND_URL projectId).
Local Abbreviation audio_url := (EditorPage.audio_url BACKEND_URL projectId).
Local Abbreviation handler_class := (EditorPage.handler_class BACKEND_URL projectId).

(** *** Logs *)

Lemma since_app (w : world) (l : list event) (w' : world) :
  log w' = log w ++ l -> events_since w w' = l.
Proof.
  intros E. unfold events_since. rewrite E. by rewrite drop_app_length.
Qed.

Lemma replay_app (l1 l2 : list event) (w : world) :
  replay (l1 ++ l2) w = replay l2 (replay l1 w).
Proof. unfold replay. by rewrite fold_left_app. Qed.

Lemma log_record (e : event) (w : world) : log (record e w) = log w ++ [e].
Proof. by destruct e. Qed.

Lemma log_replay (l : list event) (w : world) : log (replay l w) = log w ++ l.
Proof.
  revert w. induction l as [|e l IH]; intros w; simpl.
  - by rewrite app_nil_r.
  - by rewrite IH, log_record, <- app_assoc.
Qed.

Lemma exec_record {X : Type} (c : call X) (w : world) :
  snd (exec X c w) = record (event_of c w) w.
Proof. by destruct c. Qed.

Lemma sent_replay (r : request) (w : world) :
  exists l, sent r w = replay l w /\ Forall is_sent l.
Proof.
  revert w.
  induction r as [u|u d|u f|r1 IHr1 r2 IHr2|ms|u|u]; intros w;
    try (eexists [_]; split; [reflexivity|by repeat constructor]).
  simpl. destruct (IHr1 w) as (l1 & E1 & F1).
  destruct (IHr2 (sent r1 w)) as (l2 & E2 & F2).
  exists (l1 ++ l2). split; [by rewrite replay_app, <- E1, <- E2|].
  by apply Forall_app.
Qed.

Lemma emits_bind (Q : event -> Prop) {A B : Type}
    (p : prog call request reply A) (f : A -> prog call request reply B) :
  emits Q p -> (forall a, emits Q (f a)) -> emits Q (bind p f).
Proof. induction 1; intros Hf; simpl; try constructor; auto. Qed.

Lemma emits_try_catch (Q : event -> Prop) {A : Type}
    (p : prog call request reply A) (h : js_error -> prog call request reply A) :
  emits Q p -> (forall e, emits Q (h e)) -> emits Q (try_catch p h).
Proof. induction 1; intros Hh; simpl; try constructor; auto. Qed.

Lemma emits_try_finally (Q : event -> Prop) {A : Type}
    (p : prog call request reply A) (f : prog call request reply unit) :
  emits Q p -> emits Q f -> emits Q (try_finally p f).
Proof.
  induction 1; intros Hf; simpl; try constructor; auto;
    apply emits_bind; auto; intros; constructor.
Qed.

(** A handler changes the page through its events only; they are the
    events [emits] speaks of, and the handler it leaves suspended emits
    the same kind. *)
Lemma run_task_emits (Q : event -> Prop) {A : Type}
    (h : prog call request reply A) (w : world) :
  (forall r, Q (Sent r)) -> emits Q h ->
  exists l,
    snd (run_task h w) = replay l w
    /\ Forall Q l
    /\ match fst (run_task h w) with
       | Suspended r k => forall rep, emits Q (k rep)
       | Finished _ => True
       end.
Proof.
  intros HS E. revert w. induction E as [a|e|X c k Hc Hk IH|r k Hk IH]; intros w; simpl.
  - by exists [].
  - by exists [].
  - pose proof (exec_record c w) as Ex.
    destruct (exec X c w) as [x w'] eqn:Ec. simpl in Ex. subst w'.
    destruct (IH x (record (event_of c w) w)) as (l & El & Fl & Hs).
    exists (event_of c w :: l). split; [done|]. split; [|done].
    constructor; [apply Hc|done].
  - destruct (sent_replay r w) as (l & -> & F). exists l. split; [done|].
    split; [|done]. eapply Forall_impl; [exact F|].
    intros e He. destruct e; by destruct He.
Qed.

Lemma emits_True {A : Type} (h : prog call request reply A) :
  emits (fun _ => True) h.
Proof. induction h; constructor; auto. Qed.

Lemma run_task_replay {A : Type} (h : prog call request reply A) (w : world) :
  exists l, snd (run_task h w) = replay l w.
Proof.
  destruct (run_task_emits (fun _ => True) h w) as (l & E & _); [done| |by exists l].
  apply emits_True.
Qed.

(** *** Loading the project *)

Lemma map_shown_imap (f : nat -> scene -> card) (l : list scene) :
  (forall i x, shown (f i x) = x) -> map shown (imap f l) = l.
Proof.
  revert f. induction l as [|x l IH]; intros f Hf; [done|].
  simpl. rewrite Hf. f_equal. apply IH. intros i y. apply Hf.
Qed.

(** C3: the mount issues both fetches and shows the spinner; scene
    cards are rendered when both have succeeded, and when one fails the
    error toast is shown and the page is rendered without project and
    without scene cards. *)
Theorem load_needs_both_fetches (server : request -> reply) :
  let w' := dispatch mounted (Settled 0 server) in
  log mounted = [Sent get_project; Sent get_scenes]
  /\ render BACKEND_URL projectId (st mounted) = Spinner
  /\ match server get_project, server get_scenes with
     | Resolved p, Resolved s =>
         events_since mounted w' =
           [SetProject (project_of p); SetScenes (scenes_of s); SetLoading false]
         /\ map shown (cards_of (render BACKEND_URL projectId (st w'))) = scenes_of s
     | Rejected err, _ | Resolved _, Rejected err =>
         events_since mounted w' =
           [ConsoleError "Load error:" err; Toast error "Failed to load project";
            SetLoading false]
         /\ render BACKEND_URL projectId (st w') = Page None [] false
     end.
Proof.
  intros w'. split; [done|]. split; [done|].
  subst w'. unfold EditorPage.dispatch, EditorPage.handler_of, EditorPage.mounted.
  unfold task, commit. simpl. rewrite lookup_insert_eq. simpl.
  unfold get_project, get_scenes.
  destruct (server _) as [p|e1]; simpl;
    [destruct (server _) as [sc|e2]; simpl|];
    (split; [by apply since_app|]); try done.
  by apply map_shown_imap.
Qed.


(** *** Editing a scene *)

Lemma displayed_handler (w : world) (index : nat) (sc : scene) :
  displayed w index sc ->
  handler_of w (ClickEdit index)
  = Some (handleEditScene (currentAudio (st w)) sc).
Proof.
  intros (L & S & E). unfold EditorPage.handler_of. rewrite L, S. simpl.
  by rewrite bool_decide_eq_false_2.
Qed.

(** C8: entering edit mode stops the tracked clip first (pause, position
    0, reference cleared) and then marks the scene as the one edited and
    seeds the draft with its description. *)
Theorem edit_stops_audio_then_seeds_draft (w : world) (index : nat) (sc : scene) :
  displayed w index sc ->
  let w' := dispatch w (ClickEdit index) in
  events_since w w' =
    match currentAudio (st w) with
    | Some a => [Pause a; SetCurrentTime a 0; SetCurrentAudio None]
    | None => []
    end
    ++ [SetEditingScene (Some (id sc)); SetEditText (description sc)]
    ++ match currentAudio (st w) with Some a => [Pause a] | None => [] end
  /\ currentAudio (st w') = None
  /\ editingScene (st w') = Some (id sc)
  /\ editText (st w') = description sc
  /\ forall a x, currentAudio (st w) = Some a -> audios w !! a = Some x ->
       exists x', audios w' !! a = Some x'
                  /\ paused x' = true /\ currentTime x' = 0%Q.
Proof.
  intros O w'. subst w'. unfold EditorPage.dispatch.
  rewrite (displayed_handler _ _ _ O). clear O.
  destruct w as [s au iv nt tos pe np lg]. destruct s. simpl.
  destruct currentAudio0 as [a|]; simpl.
  - unfold task, commit. simpl.
    split; [apply since_app; simpl; by rewrite <- !app_assoc|].
    repeat split. intros a' x [= <-] Hx.
    rewrite !list_lookup_alter_eq, Hx. simpl. by eexists.
  - unfold task, commit. simpl.
    split; [apply since_app; simpl; by rewrite <- !app_assoc|].
    repeat split. intros a x H. discriminate.
Qed.

Lemma save_offered_handler (w : world) (index : nat) (sc : scene) :
  save_offered w index sc ->
  handler_of w (ClickSave index)
  = Some (handleSaveScene BACKEND_URL (scenes (st w)) (editText (st w)) (id sc)).
Proof.
  intros (L & V & S & E). unfold EditorPage.handler_of. rewrite L, V, S. simpl.
  by rewrite bool_decide_eq_true_2.
Qed.

(** *** Timers and promises across tasks *)

(** An event leaves a timer that is not running not running: a new
    timer gets a reference that was never used. *)
Lemma record_timer_gone (e : event) (w : world) (t : nat) :
  t < next_timer w -> intervals w !! t = None ->
  t < next_timer (record e w) /\ intervals (record e w) !! t = None.
Proof.
  intros L N. destruct e; simpl; try (split; [lia|done]).
  - split; [lia|]. rewrite lookup_insert_ne; [done|lia].
  - split; [lia|]. apply lookup_delete_None. by right.
Qed.

Lemma replay_timer_gone (l : list event) (w : world) (t : nat) :
  t < next_timer w -> intervals w !! t = None ->
  t < next_timer (replay l w) /\ intervals (replay l w) !! t = None.
Proof.
  revert w. induction l as [|e l IH]; intros w L N; [done|].
  simpl. destruct (record_timer_gone e w t L N) as [L' N']. by apply IH.
Qed.

Lemma replay_next_timer (l : list event) (w : world) :
  next_timer w <= next_timer (replay l w).
Proof.
  revert w. induction l as [|e l IH]; intros w; simpl; [done|].
  etrans; [|apply IH]. destruct e; simpl; lia.
Qed.

(** Events do not touch the promises. *)
Lemma replay_pending (l : list event) (w : world) :
  pending (replay l w) = pending w /\ next_promise (replay l w) = next_promise w.
Proof.
  revert w. induction l as [|e l IH]; intros w; [done|].
  simpl. destruct (IH (record e w)) as [-> ->]. by destruct e.
Qed.

(** A task is the events of its handler, the promise it may wait
    under, and the events of the cleanup. *)
Lemma task_replay (h : handler) (w : world) :
  exists l,
    let w' := replay l w in
    task h w = w'
    \/ exists r k l',
         task h w = replay l' (suspend r k w').
Proof.
  unfold task. destruct (run_task_replay h w) as [l E].
  destruct (run_task h w) as [[o|r k] w'] eqn:R; simpl in E; subst w'.
  - unfold commit. case_decide.
    + exists l. by left.
    + destruct (run_task_replay (audio_cleanup (currentAudio (st w))) (replay l w))
        as [l' ->].
      exists (l ++ l'). left. by rewrite replay_app.
  - exists l. right. exists r, k. unfold commit. case_decide.
    + by exists [].
    + destruct (run_task_replay (audio_cleanup (currentAudio (st w)))
                  (suspend r k (replay l w))) as [l' ->].
      by exists l'.
Qed.

Lemma task_timer_gone (h : handler) (w : world) (t : nat) :
  t < next_timer w -> intervals w !! t = None ->
  t < next_timer (task h w) /\ intervals (task h w) !! t = None.
Proof.
  intros L N. destruct (task_replay h w) as [l [->|(r & k & l' & ->)]].
  - by apply replay_timer_gone.
  - apply replay_timer_gone; simpl; by apply replay_timer_gone.
Qed.

Lemma task_next_timer (h : handler) (w : world) :
  next_timer w <= next_timer (task h w).
Proof.
  destruct (task_replay h w) as [l [->|(r & k & l' & ->)]].
  - apply replay_next_timer.
  - etrans; [|apply replay_next_timer]. simpl. apply replay_next_timer.
Qed.

(** A task leaves the promises below the next one alone. *)
Lemma task_pending (h : handler) (w : world) (p : nat) :
  p < next_promise w ->
  p < next_promise (task h w) /\ pending (task h w) !! p = pending w !! p.
Proof.
  intros L. destruct (task_replay h w) as [l [->|(r & k & l' & ->)]].
  - destruct (replay_pending l w) as [-> ->]. done.
  - destruct (replay_pending l' (suspend r k (replay l w))) as [-> ->]. simpl.
    destruct (replay_pending l w) as [-> ->].
    split; [lia|]. rewrite lookup_insert_ne; [done|lia].
Qed.

Lemma consume_frame (a : action) (w : world) :
  intervals (consume a w) = intervals w
  /\ next_timer (consume a w) = next_timer w
  /\ next_promise (consume a w) = next_promise w
  /\ st (consume a w) = st w
  /\ audios (consume a w) = audios w
  /\ log (consume a w) = log w.
Proof. by destruct a. Qed.

(** *** The export progress indicator *)


Lemma session_snoc (w : world) (acts : list action) (a : action) :
  session w (acts ++ [a]) = dispatch (session w acts) a.
Proof. unfold EditorPage.session. by rewrite fold_left_app. Qed.

(** A tick of a running timer is its callback; a tick of a timer that
    is not running is nothing. *)
Lemma tick_running (w : world) (t : nat) (est : Z) :
  intervals w !! t = Some (ProgressTick est) ->
  dispatch w (Tick t) = record (UpdateExportProgress est) w.
Proof.
  intros R. unfold EditorPage.dispatch, EditorPage.handler_of. rewrite R. simpl.
  unfold task, commit. simpl. by rewrite decide_True.
Qed.

Lemma tick_stopped (w : world) (t : nat) :
  intervals w !! t = None -> dispatch w (Tick t) = w.
Proof.
  intros R. unfold EditorPage.dispatch, EditorPage.handler_of. by rewrite R.
Qed.

Lemma export_offered_handler (w : world) :
  export_offered w ->
  handler_of w ConfirmExport
  = Some (handleExport BACKEND_URL projectId (project (st w)) (scenes (st w))
            (exportFormat (st w))).
Proof.
  intros (L & D & E). unfold EditorPage.handler_of. by rewrite L, D, E.
Qed.

(** The render after a handler leaves the state and the timers as the
    handler left them. *)
Lemma task_frame (h : handler) (w : world) :
  intervals (task h w) = intervals (snd (run_task h w))
  /\ st (task h w) = st (snd (run_task h w)).
Proof.
  unfold task. destruct (run_task h w) as [[o|r k] w']; unfold commit;
    case_decide; try done; by destruct (currentAudio (st w)).
Qed.

(** Confirming an export: the log of the task, the timer it starts and
    the promise it waits under; the handler that waits clears the timer
    as soon as it is resumed, however the request settles. *)
Lemma export_begins (w : world) :
  export_offered w ->
  let w1 := dispatch w ConfirmExport in
  let est := estimate (scenes (st w)) in
  events_since w w1 =
    [SetExporting true; SetExportProgress 0; SetEstimatedTime est;
     IntervalSet (next_timer w) (ProgressTick est) 500;
     Toast info ("Exporting video as " ++ toUpperCase (exportFormat (st w)) ++ "...");
     Sent (export_request (exportFormat (st w)))]
  /\ intervals w1 !! next_timer w = Some (ProgressTick est)
  /\ exportProgress (st w1) = 0%float
  /\ next_timer w1 = S (next_timer w)
  /\ next_promise w1 = S (next_promise w)
  /\ exists k,
       pending w1 !! next_promise w = Some (export_request (exportFormat (st w)), k)
       /\ forall rep w0,
            let w' := snd (run_task (k rep) w0) in
            intervals w' !! next_timer w = None
            /\ exportProgress (st w')
               = match rep with Resolved _ => 100%float | Rejected _ => 0%float end.
Proof.
  intros O w1 est. subst w1 est. unfold EditorPage.dispatch.
  rewrite (export_offered_handler _ O). clear O. unfold export_request.
  destruct w as [s au iv nt tos pe np lg]. destruct s. simpl.
  unfold task, commit. simpl. rewrite decide_True by done. simpl.
  split; [apply since_app; simpl; by rewrite <- !app_assoc|].
  split; [apply lookup_insert_eq|].
  do 3 (split; [done|]).
  eexists. split; [apply lookup_insert_eq|].
  intros rep w0. destruct rep as [v|e]; simpl;
    try (match goal with |- context [toast_value _ ?d] => destruct d end; simpl);
    (split; [apply lookup_delete_eq|done]).
Qed.

Lemma ticking_S (w : world) (n : nat) :
  ticking w (S n) = dispatch (ticking w n) (Tick (next_timer w)).
Proof. unfold ticking. by rewrite replicate_S_end, session_snoc. Qed.

Lemma pending_record (e : event) (w : world) : pending (record e w) = pending w.
Proof. by destruct e. Qed.

(** While only the timer ticks, it keeps running, the request stays in
    flight and the value is one of those the callback computes from 0. *)
Lemma ticking_spec (w : world) (n : nat) :
  export_offered w ->
  let est := estimate (scenes (st w)) in
  intervals (ticking w n) !! next_timer w = Some (ProgressTick est)
  /\ pending (ticking w n) !! next_promise w
     = pending (ticking w 0) !! next_promise w
  /\ on_track est (exportProgress (st (ticking w n)))
  /\ ticking w (S n) = record (UpdateExportProgress est) (ticking w n).
Proof.
  intros O est. destruct (export_begins w O) as (_ & T & P0 & _).
  fold est in T.
  assert (forall w', intervals w' !! next_timer w = Some (ProgressTick est) ->
            dispatch w' (Tick (next_timer w)) = record (UpdateExportProgress est) w')
    as Step by (intros; by apply tick_running).
  induction n as [|n (IT & IP & IB & IS)].
  - split; [done|]. split; [done|]. split.
    + unfold ticking. simpl. rewrite P0. by exists 0.
    + rewrite ticking_S. by apply Step.
  - rewrite IS. split; [done|]. split; [by rewrite pending_record|].
    split; [destruct IB as [k IB]; exists (S k); simpl; by rewrite <- IB|].
    rewrite ticking_S, <- IS. apply Step. by rewrite IS.
Qed.

(** *** The timer of an export *)

Lemma dispatch_timer_gone (w : world) (a : action) (t : nat) :
  t < next_timer w -> intervals w !! t = None ->
  t < next_timer (dispatch w a) /\ intervals (dispatch w a) !! t = None.
Proof.
  intros L N. unfold EditorPage.dispatch. destruct (handler_of w a) as [h|]; [|done].
  destruct (consume_frame a w) as (Ei & En & _).
  apply task_timer_gone; by rewrite ?Ei, ?En.
Qed.

Lemma dispatch_next_timer (w : world) (a : action) :
  next_timer w <= next_timer (dispatch w a).
Proof.
  unfold EditorPage.dispatch. destruct (handler_of w a) as [h|]; [|done].
  destruct (consume_frame a w) as (_ & En & _). rewrite <- En.
  apply task_next_timer.
Qed.

Lemma dispatch_pending_other (w : world) (a : action) (p : nat) :
  settles p a = false -> p < next_promise w ->
  p < next_promise (dispatch w a)
  /\ pending (dispatch w a) !! p = pending w !! p.
Proof.
  intros S L. unfold EditorPage.dispatch. destruct (handler_of w a) as [h|]; [|done].
  destruct (consume_frame a w) as (_ & _ & Ep & _).
  destruct (task_pending h (consume a w) p) as [L' ->]; [by rewrite Ep|].
  split; [done|]. destruct a; try done. simpl in *.
  apply lookup_delete_ne. intros ->. by rewrite Nat.eqb_refl in S.
Qed.

Lemma dispatch_pending_settled (w : world) (p : nat) (server : request -> reply) :
  p < next_promise w ->
  p < next_promise (dispatch w (Settled p server))
  /\ pending (dispatch w (Settled p server)) !! p = None.
Proof.
  intros L. unfold EditorPage.dispatch.
  destruct (handler_of w (Settled p server)) as [h|] eqn:H.
  - destruct (task_pending h (consume (Settled p server) w) p) as [L' ->]; [done|].
    split; [done|]. apply lookup_delete_eq.
  - split; [done|]. unfold EditorPage.handler_of in H.
    destruct (pending w !! p) as [[r k]|]; [discriminate|done].
Qed.

Lemma export_inv_dispatch (t p : nat) (b : bool) (w : world) (a : action) :
  export_inv t p b w -> export_inv t p (b || settles p a) (dispatch w a).
Proof.
  intros (Lt & Lp & I). destruct b; simpl.
  - destruct I as [P N].
    destruct (dispatch_timer_gone w a t Lt N) as [Lt' N'].
    split; [done|]. destruct (settles p a) eqn:S.
    + destruct a; try discriminate. apply Nat.eqb_eq in S as ->.
      destruct (dispatch_pending_settled w p server Lp) as [Lp' P']. by repeat split.
    + destruct (dispatch_pending_other w a p S Lp) as [Lp' P']. rewrite P'.
      by repeat split.
  - destruct I as (r & k & P & Hk).
    split; [pose proof (dispatch_next_timer w a); lia|].
    destruct (settles p a) eqn:S.
    + destruct a; try discriminate. apply Nat.eqb_eq in S as ->.
      destruct (dispatch_pending_settled w p server Lp) as [Lp' P'].
      split; [done|]. split; [done|].
      unfold EditorPage.dispatch, EditorPage.handler_of. rewrite P. simpl.
      match goal with |- context [task ?h ?w0] =>
        destruct (task_frame h w0) as [-> _] end.
      apply Hk.
    + destruct (dispatch_pending_other w a p S Lp) as [Lp' P'].
      split; [done|]. exists r, k. by rewrite P'.
Qed.

Lemma export_inv_session (t p : nat) (acts : list action) (b : bool) (w : world) :
  export_inv t p b w ->
  export_inv t p (b || existsb (settles p) acts) (session w acts).
Proof.
  revert b w. induction acts as [|a acts IH]; intros b w I; simpl.
  - by rewrite orb_false_r.
  - rewrite orb_assoc. by apply IH, export_inv_dispatch.
Qed.

(** C9: once the export request has settled, with success or with
    failure, and whatever else happened on the page before and after
    that, the timer the export started is not running, and a tick of it
    changes nothing. *)
Theorem export_timer_cancelled (w : world) (acts : list action)
    (server : request -> reply) :
  export_offered w ->
  In (Settled (next_promise w) server) acts ->
  let t := next_timer w in
  let started := dispatch w ConfirmExport in
  let w' := session started acts in
  intervals started !! t = Some (ProgressTick (estimate (scenes (st w))))
  /\ intervals w' !! t = None
  /\ dispatch w' (Tick t) = w'.
Proof.
  intros O Hin t started w'.
  destruct (export_begins w O) as (_ & T & _ & Nt & Np & k & Pk & Hk).
  split; [done|].
  assert (export_inv t (next_promise w) false started) as I.
  { split; [subst t started; lia|]. split; [subst started; lia|].
    exists (export_request (exportFormat (st w))), k. split; [done|].
    intros rep w0. apply Hk. }
  apply (export_inv_session _ _ acts) in I. simpl in I.
  assert (existsb (settles (next_promise w)) acts = true) as X.
  { apply existsb_exists. eexists. split; [exact Hin|]. simpl. apply Nat.eqb_refl. }
  rewrite X in I. destruct I as (_ & _ & _ & N).
  split; [done|]. by apply tick_stopped.
Qed.

(** *** One clip at a time *)

Lemma only_at_most_one (t : option nat) (w : world) :
  only_playing t w -> at_most_one_playing w.
Proof. intros O a b Ha Hb. apply O in Ha, Hb. congruence. Qed.

Lemma only_weaken (t : option nat) (w : world) :
  only_playing None w -> only_playing t w.
Proof. intros O a Ha. by apply O in Ha. Qed.

Lemma playing_alter (f : audio -> audio) (a b : nat) (l : list audio) (x : audio) :
  alter f a l !! b = Some x ->
  exists y, l !! b = Some y /\ (x = y \/ (a = b /\ x = f y)).
Proof.
  rewrite list_lookup_alter. case_decide as E.
  - subst b. destruct (l !! a) as [y|]; [|done]. intros [= <-]. eauto.
  - eauto.
Qed.

(** Only [play()] starts a clip. *)
Lemma playing_record (e : event) (w : world) (a : nat) :
  ~ is_play e -> playing (record e w) a -> playing w a.
Proof.
  intros NP (x & L & P). destruct e; simpl in *; try (by exists x); try tauto.
  - apply lookup_app_Some in L as [L|[_ L]]; [by exists x|].
    apply list_lookup_singleton_Some in L as [_ <-]. discriminate.
  - apply playing_alter in L as (y & L & [->|[_ ->]]); by exists y.
  - apply playing_alter in L as (y & L & [->|[_ ->]]); by exists y.
  - apply playing_alter in L as (y & L & [->|[_ ->]]); [by exists y|discriminate].
  - apply playing_alter in L as (y & L & [->|[_ ->]]); by exists y.
Qed.

Lemma only_record (t : option nat) (e : event) (w : world) :
  ~ is_play e -> only_playing t w -> only_playing t (record e w).
Proof. intros NP O a Ha. by apply O, (playing_record e). Qed.

Lemma only_pause (a : nat) (w : world) :
  only_playing (Some a) w -> only_playing None (record (Pause a) w).
Proof.
  intros O b (x & L0 & P). simpl in L0. pose proof L0 as L.
  apply playing_alter in L as (y & L & [->|[-> ->]]); [|discriminate].
  assert (Some a = Some b) as [= ->] by (apply O; by exists y).
  rewrite list_lookup_alter_eq, L in L0. simpl in L0.
  injection L0 as E. rewrite <- E in P. discriminate.
Qed.

Lemma only_play (b : nat) (cb : callback) (w : world) :
  only_playing None w -> only_playing (Some b) (record (Play b cb) w).
Proof.
  intros O a (x & L & P). simpl in L.
  apply playing_alter in L as (y & L & [->|[-> ->]]); [|done].
  assert (None = Some a) by (apply O; by exists y). done.
Qed.

Lemma always_prefix (P : world -> Prop) (pre post : list event) (w : world) :
  always P (pre ++ post) w -> P (replay pre w).
Proof.
  revert w. induction pre as [|e pre IH]; intros w; simpl.
  - by destruct post; intros [? _].
  - intros [_ H]. by apply IH.
Qed.

Lemma flight_sound (t t' : option nat) (l : list event) (w : world) :
  flight t l t' -> only_playing t w ->
  always at_most_one_playing l w /\ only_playing t' (replay l w).
Proof.
  intros F. revert w.
  induction F as [t|t t' e l NP F IH|a t' l F IH|t b cb t' l Ht F IH];
    intros w O; simpl.
  - split; [|done]. split; [|done]. by apply (only_at_most_one t).
  - destruct (IH (record e w)) as [A O']; [by apply only_record|].
    split; [|done]. split; [|done]. by apply (only_at_most_one t).
  - destruct (IH (record (Pause a) w)) as [A O']; [by apply only_pause|].
    split; [|done]. split; [|done]. by apply (only_at_most_one (Some a)).
  - destruct (IH (record (Play b cb) w)) as [A O'].
    { destruct Ht as [->| ->]; [by apply only_play|].
      intros a (x & L & P). simpl in L.
      apply playing_alter in L as (y & L & [->|[-> ->]]); [|done].
      apply O. by exists y. }
    split; [|done]. split; [|done]. by apply (only_at_most_one t).
Qed.

Lemma quiet_flight (t : option nat) (l : list event) :
  Forall quiet l -> flight t l t.
Proof.
  induction 1 as [|e l Q F IH]; [constructor|].
  apply flight_other; [|done]. destruct e; simpl in *; tauto.
Qed.

Lemma quiet_flight_app (t t' : option nat) (pre l : list event) :
  Forall quiet pre -> flight t l t' -> flight t (pre ++ l) t'.
Proof.
  induction 1 as [|e pre Q F IH]; intros Fl; [done|].
  simpl. apply flight_other; [destruct e; simpl in *; tauto|by apply IH].
Qed.

Lemma quiet_current (l : list event) (w : world) :
  Forall quiet l -> currentAudio (st (replay l w)) = currentAudio (st w).
Proof.
  intros F. revert w. induction F as [|e l Q F IH]; intros w; [done|].
  simpl. rewrite IH. by destruct e.
Qed.

Lemma replay_audios_length (l : list event) (w : world) :
  length (audios w) <= length (audios (replay l w)).
Proof.
  revert w. induction l as [|e l IH]; intros w; simpl; [done|].
  etrans; [|apply IH].
  destruct e; simpl; rewrite ?length_alter, ?length_app; simpl; lia.
Qed.

Lemma record_suspend (e : event) (r : request) (k : reply -> handler) (w : world) :
  record e (suspend r k w) = suspend r k (record e w).
Proof. by destruct e. Qed.

Lemma replay_suspend (l : list event) (r : request) (k : reply -> handler)
    (w : world) :
  replay l (suspend r k w) = suspend r k (replay l w).
Proof.
  revert w. induction l as [|e l IH]; intros w; [done|].
  simpl. by rewrite record_suspend, IH.
Qed.

Lemma task_shape (h : handler) (w : world) (s : status unit) (l : list event) :
  run_task h w = (s, replay l w) ->
  task h w = finish s (replay (l ++ cleanup_events l w) w).
Proof.
  intros R. unfold task, commit, cleanup_events. rewrite R.
  assert (st match s with
             | Finished _ => replay l w
             | Suspended r k => suspend r k (replay l w)
             end = st (replay l w)) as -> by by destruct s.
  case_decide; [by rewrite app_nil_r|].
  destruct (currentAudio (st w)) as [a|]; simpl.
  - rewrite replay_app. destruct s as [o|r k]; simpl; [done|].
    by rewrite record_suspend.
  - by rewrite app_nil_r.
Qed.

Lemma cleanup_events_st (l : list event) (w : world) :
  st (replay (l ++ cleanup_events l w) w) = st (replay l w).
Proof.
  unfold cleanup_events. case_decide; [by rewrite app_nil_r|].
  destruct (currentAudio (st w)); [|by rewrite app_nil_r].
  by rewrite replay_app.
Qed.

(** A task whose handler logs [l] keeps the page in order if [l] and
    the cleanup after it never start a clip next to another. *)
Lemma task_safe (h : handler) (w : world) (s : status unit) (l : list event) :
  run_task h w = (s, replay l w) ->
  match s with
  | Suspended r k => forall rep, emits quiet (k rep)
  | Finished _ => True
  end ->
  flight (currentAudio (st w)) (l ++ cleanup_events l w)
         (currentAudio (st (replay l w))) ->
  valid_ref (replay l w) ->
  audio_inv w ->
  log (task h w) = log w ++ l ++ cleanup_events l w
  /\ always at_most_one_playing (l ++ cleanup_events l w) w
  /\ audio_inv (task h w).
Proof.
  intros R Hs F V (T & _ & PQ). rewrite (task_shape h w s l R).
  set (L := l ++ cleanup_events l w) in *.
  destruct (flight_sound _ _ _ w F T) as [A O].
  assert (st (finish s (replay L w)) = st (replay l w)) as Est.
  { rewrite <- (cleanup_events_st l w). by destruct s. }
  assert (audios (finish s (replay L w)) = audios (replay L w)) as Eau
    by by destruct s.
  split; [destruct s; simpl; apply log_replay|]. split; [done|].
  split; [|split].
  - intros a (x & Lx & Px). rewrite Est. apply O. exists x. by rewrite <- Eau.
  - intros t Ht. rewrite Est in Ht. apply V in Ht. rewrite Eau.
    subst L. rewrite replay_app.
    pose proof (replay_audios_length (cleanup_events l w) (replay l w)). lia.
  - intros p r k Hp. destruct (replay_pending L w) as [EP EN].
    destruct s as [o|r' k']; simpl in Hp.
    + rewrite EP in Hp. by apply (PQ p r k).
    + rewrite EP in Hp. apply lookup_insert_Some in Hp as [[_ [= <- <-]]|[_ Hp]].
      * done.
      * by apply (PQ p r k).
Qed.

Ltac quiet_handler :=
  repeat first
    [ apply emits_try_finally
    | apply emits_try_catch
    | apply emits_bind
    | apply emits_Call
    | apply emits_Await
    | apply emits_Ret
    | apply emits_Throw
    | intro
    | exact I
    | match goal with
      | |- emits _ (match ?x with _ => _ end) => destruct x
      | |- emits _ (let (_, _) := ?x in _) => destruct x
      | |- _ (event_of (Emit (toast_value _ ?d)) _) => destruct d; exact I
      end ].

Lemma loadProject_quiet : emits quiet (loadProject BACKEND_URL projectId).
Proof. unfold loadProject, await, emit, perform. quiet_handler. Qed.

Lemma handleSaveScene_quiet (l : list scene) (text sceneId : string) :
  emits quiet (handleSaveScene BACKEND_URL l text sceneId).
Proof. unfold handleSaveScene, await, emit, perform. quiet_handler. Qed.

Lemma handleExport_quiet (p : option project_info) (l : list scene) (f : string) :
  emits quiet (handleExport BACKEND_URL projectId p l f).
Proof. unfold handleExport, await, emit, perform. quiet_handler. Qed.

Lemma invoke_class (cur : option nat) (cb : callback) (err : js_error) :
  handler_class cur (invoke cb err).
Proof.
  destruct cb; try (apply class_clear; tauto);
    apply class_quiet; unfold invoke, emit, perform; quiet_handler.
Qed.

Lemma handler_class_of (w : world) (a : action) (h : handler) :
  pending_quiet w -> handler_of w a = Some h ->
  handler_class (currentAudio (st w)) h.
Proof.
  intros PQ H. unfold EditorPage.handler_of in H.
  destruct a; simpl in H;
    repeat (case_match; simplify_option_eq);
    try apply class_play;
    try (apply class_quiet; solve
           [ apply handleSaveScene_quiet
           | apply handleExport_quiet
           | unfold emit, perform; quiet_handler ]).
  - destruct (currentAudio (st w)) as [t|] eqn:C; [by apply class_edit|].
    apply class_quiet. unfold handleEditScene, emit, perform. quiet_handler.
  - destruct (audios w !! a) as [x|]; [|done]. simpl in H.
    destruct (onended x); [|done]. injection H as <-. apply invoke_class.
  - destruct (audios w !! a) as [x|]; [|done]. simpl in H.
    destruct (onerror x); [|done]. injection H as <-. apply invoke_class.
  - destruct (audios w !! a) as [x|]; [|done]. simpl in H.
    destruct (play_catch x); [|done]. injection H as <-. apply invoke_class.
  - destruct (intervals w !! timer); [|done]. injection H as <-. apply invoke_class.
  - destruct (timeouts w !! n); [|done]. injection H as <-. apply invoke_class.
  - destruct (pending w !! promise) as [[r k]|] eqn:P; [|done].
    injection H as <-. apply class_quiet. by apply (PQ promise r k).
Qed.

Lemma playAudio_run (w : world) (path : string) :
  run_task (playAudio BACKEND_URL projectId (currentAudio (st w)) path) w
  = (Finished (Done tt),
     replay (play_events (currentAudio (st w)) (length (audios w)) (audio_url path)) w).
Proof.
  unfold playAudio, play_events, audio_url.
  destruct (currentAudio (st w)) as [a|]; simpl; by rewrite ?length_alter.
Qed.

Ltac fly :=
  repeat first
    [ apply flight_nil
    | apply flight_pause
    | apply flight_play; [tauto|]
    | apply flight_other; [simpl; tauto|] ].

(** Each of these handlers, run as a task on a page in order, logs a
    list of events along which at most one clip is playing, and leaves
    the page in order. *)
Lemma class_safe (h : handler) (w : world) :
  handler_class (currentAudio (st w)) h -> audio_inv w ->
  exists L,
    log (task h w) = log w ++ L
    /\ always at_most_one_playing L w
    /\ audio_inv (task h w).
Proof.
  intros [h' Q|a sc C|path|cb err Hcb] I.
  - destruct (run_task_emits quiet h' w) as (l & E & F & Hs); [done|done|].
    destruct (run_task h' w) as [s w'] eqn:R. simpl in E, Hs. subst w'.
    assert (cleanup_events l w = []) as Ec.
    { unfold cleanup_events. rewrite decide_True; [done|by apply quiet_current]. }
    destruct (task_safe h' w s l R) as (A & B & C); try done.
    + rewrite Ec, app_nil_r, quiet_current by done. by apply quiet_flight.
    + intros t Ht. rewrite quiet_current in Ht by done.
      destruct I as (_ & V & _). apply V in Ht.
      pose proof (replay_audios_length l w). lia.
    + eauto.
  - destruct I as (T & V & PQ). 
    destruct (task_safe (handleEditScene (Some a) sc) w (Finished (Done tt))
                [Pause a; SetCurrentTime a 0; SetCurrentAudio None;
                 SetEditingScene (Some (id sc)); SetEditText (description sc)])
      as (A & B & D); try done.
    + unfold cleanup_events. simpl. rewrite C. simpl. fly.
    + eauto.
  - destruct I as (T & V & PQ).
    destruct (task_safe _ w _ _ (playAudio_run w path)) as (A & B & D);
      try done; [| |eauto].
    + unfold cleanup_events, play_events.
      destruct (currentAudio (st w)) as [a|] eqn:C; simpl.
      * rewrite decide_False; [fly|].
        intros [= E]. specialize (V a C). rewrite ?length_alter in E. lia.
      * fly.
    + intros t. unfold play_events.
      destruct (currentAudio (st w)) as [a|]; simpl; intros [= <-];
        repeat (rewrite length_alter || rewrite length_app); simpl; lia.
  - destruct I as (T & V & PQ).
    assert (exists pre, Forall quiet pre
              /\ run_task (invoke cb err) w
                 = (Finished (Done tt), replay (pre ++ [SetCurrentAudio None]) w))
      as (pre & Qp & R).
    { destruct Hcb as [->|[->| ->]].
      - by exists [].
      - exists [Toast error "Failed to play audio"]. split; [|done].
        by repeat constructor.
      - exists [ConsoleError "Audio play error:" err;
                Toast error "Failed to play audio"]. split; [|done].
        by repeat constructor. }
    assert (currentAudio (st (replay (pre ++ [SetCurrentAudio None]) w)) = None)
      as N by by rewrite replay_app.
    destruct (task_safe _ w _ _ R) as (A & B & D); try done; [| |eauto].
    + unfold cleanup_events. rewrite N, <- app_assoc.
      apply quiet_flight_app; [done|].
      destruct (currentAudio (st w)) as [a|]; simpl; fly.
    + intros t Ht. congruence.
Qed.



Lemma audios_record (e : event) (w1 w2 : world) :
  audios w1 = audios w2 -> audios (record e w1) = audios (record e w2).
Proof. intros E. destruct e; simpl; congruence. Qed.

Lemma audios_replay (l : list event) (w1 w2 : world) :
  audios w1 = audios w2 -> audios (replay l w1) = audios (replay l w2).
Proof.
  revert w1 w2. induction l as [|e l IH]; intros w1 w2 E; [done|].
  simpl. by apply IH, audios_record.
Qed.

Lemma at_most_one_audios (w1 w2 : world) :
  audios w1 = audios w2 -> at_most_one_playing w1 -> at_most_one_playing w2.
Proof.
  intros E A a b (x & Lx & Px) (y & Ly & Py). rewrite <- E in Lx, Ly.
  apply A; eexists; eauto.
Qed.

Lemma consume_inv (a : action) (w : world) :
  audio_inv w -> audio_inv (consume a w).
Proof.
  intros (T & V & PQ).
  destruct (consume_frame a w) as (_ & _ & _ & Es & Ea & _).
  split; [|split].
  - intros b (x & Lx & Px). rewrite Es. apply T. exists x. by rewrite <- Ea.
  - intros t. rewrite Es, Ea. apply V.
  - intros p r k Hp. apply (PQ p r k).
    destruct a; try done. simpl in Hp. by apply lookup_delete_Some in Hp as [_ Hp].
Qed.

(** Every task of the page, started on a page in order, logs a list of
    events along which at most one clip is playing, and leaves the page
    in order. *)
Lemma dispatch_safe (w : world) (a : action) :
  audio_inv w ->
  exists L,
    log (dispatch w a) = log w ++ L
    /\ (forall pre post, L = pre ++ post -> at_most_one_playing (replay pre w))
    /\ audio_inv (dispatch w a).
Proof.
  intros I. unfold EditorPage.dispatch.
  destruct (handler_of w a) as [h|] eqn:H.
  - destruct (consume_frame a w) as (_ & _ & _ & Es & Ea & El).
    destruct (class_safe h (consume a w)) as (L & E & A & I').
    { rewrite Es. apply (handler_class_of w a); [apply I|done]. }
    { by apply consume_inv. }
    exists L. split; [by rewrite E, El|]. split; [|done].
    intros pre post ->. apply always_prefix in A.
    apply (at_most_one_audios (replay pre (consume a w))); [|done].
    by apply audios_replay.
  - exists []. split; [by rewrite app_nil_r|]. split; [|done].
    intros pre post E. symmetry in E. apply app_eq_nil in E as [-> _].
    apply (only_at_most_one (currentAudio (st w))), I.
Qed.

Lemma mounted_inv : audio_inv mounted.
Proof.
  unfold EditorPage.mounted.
  match goal with |- audio_inv (task _ ?w0) =>
    destruct (class_safe (loadProject BACKEND_URL projectId) w0) as (_ & _ & _ & I)
  end; [apply class_quiet, loadProject_quiet| |done].
  split; [|split].
  - intros a (x & Lx & _). simpl in Lx. by rewrite lookup_nil in Lx.
  - intros t Ht. discriminate.
  - intros p r k Hp. simpl in Hp. by rewrite lookup_empty in Hp.
Qed.

Lemma session_inv (acts : list action) (w : world) :
  audio_inv w -> audio_inv (session w acts).
Proof.
  revert w. induction acts as [|a acts IH]; intros w I; [done|].
  simpl. apply IH. by destruct (dispatch_safe w a I) as (_ & _ & _ & I').
Qed.

(** C1: on the page as the user and the platform can bring it about, at
    most one clip is playing before and after every event of every task;
    and a press on a play button while a clip is tracked pauses that clip
    and resets its position, then creates the new clip, makes it the
    tracked one and plays it. *)
Theorem one_clip_at_a_time (acts : list action) (a : action) :
  let w := session mounted acts in
  let w' := dispatch w a in
  (forall pre post,
     events_since w w' = pre ++ post -> at_most_one_playing (replay pre w))
  /\ forall index sc t,
       a = ClickPlay index -> displayed w index sc ->
       currentAudio (st w) = Some t ->
       let b := length (audios w) in
       events_since w w' =
         [Pause t; SetCurrentTime t 0;
          Created b (audio_url (audio_path sc));
          SetOnEnded b OnEnded; SetOnError b OnError;
          SetCurrentAudio (Some b); Play b OnPlayRejected;
          Pause t]
       /\ currentAudio (st w') = Some b
       /\ (exists x, audios w' !! t = Some x
                     /\ paused x = true /\ currentTime x = 0%Q)
       /\ playing w' b.
Proof.
  intros w w'. assert (audio_inv w) as I by apply session_inv, mounted_inv.
  split.
  - destruct (dispatch_safe w a I) as (L & E & A & _).
    intros pre post Hev. apply (A pre post).
    rewrite <- Hev. symmetry. by apply since_app.
  - intros index sc t -> (Lo & Sc & Ed) C b. subst w'.
    unfold EditorPage.dispatch, EditorPage.handler_of. rewrite Lo, Sc. simpl.
    rewrite bool_decide_eq_false_2 by done. simpl.
    rewrite (task_shape _ _ _ _ (playAudio_run w (audio_path sc))).
    destruct I as (_ & V & _). specialize (V t C). fold b in V |- *.
    unfold cleanup_events, play_events. rewrite C. simpl.
    rewrite decide_False by (rewrite ?length_alter; intros [= E]; lia).
    simpl. split; [apply since_app; simpl; by rewrite <- !app_assoc|].
    split; [done|].
    destruct (lookup_lt_is_Some_2 (audios w) t V) as [x0 Hx0].
    assert (t <> b) as Ne by lia.
    assert (b <> t) as Ne' by lia.
    split.
    + exists (pause (seek 0 (pause x0))).
      rewrite list_lookup_alter_eq, !(list_lookup_alter_ne _ _ b t) by done.
      rewrite lookup_app_l by (rewrite !length_alter; lia).
      by rewrite !list_lookup_alter_eq, Hx0.
    + eexists. simpl.
      rewrite (list_lookup_alter_ne _ _ t b) by done.
      rewrite !list_lookup_alter_eq.
      rewrite lookup_app_r by (rewrite !length_alter; lia).
      rewrite !length_alter. fold b. rewrite Nat.sub_diag. simpl. done.
Qed.

(** *** Saving a scene *)

(** The update [handleSaveScene] makes to the list on success. *)
Lemma saved_list (l : list scene) (sceneId draft : string) :
  let l' := map (fun s => if String.eqb (id s) sceneId
                          then with_description draft s else s) l in
  length l' = length l
  /\ map id l' = map id l
  /\ forall i s, l !! i = Some s ->
       l' !! i = Some (if String.eqb (id s) sceneId
                       then {| id := id s; timestamp := timestamp s;
                               description := draft;
                               thumbnail_path := thumbnail_path s;
                               audio_path := audio_path s |}
                       else s).
Proof.
  intros l'. subst l'. split; [apply length_map|]. split.
  - rewrite map_map. apply map_ext. intros s. by destruct (id s =? sceneId)%string.
  - intros i. revert i. induction l as [|s0 l IH]; intros [|i] s H;
      simpl in *; try discriminate.
    + injection H as ->. by destruct (id s =? sceneId)%string.
    + by apply IH.
Qed.

(** Pressing Save: the log of the task and the promise it waits under;
    the handler that waits runs to its end when resumed, and on success
    sets the list to the update of the list it was created with. *)
Lemma save_begins (w : world) (index : nat) (sc : scene) :
  save_offered w index sc ->
  let w1 := dispatch w (ClickSave index) in
  let draft := editText (st w) in
  events_since w w1 = [SetSaving true; Sent (save_request (id sc) draft)]
  /\ scenes (st w1) = scenes (st w)
  /\ saving (st w1) = true
  /\ next_promise w1 = S (next_promise w)
  /\ (forall q, q <> next_promise w -> pending w1 !! q = pending w !! q)
  /\ exists k,
       pending w1 !! next_promise w = Some (save_request (id sc) draft, k)
       /\ finishes k
       /\ forall v w0,
            scenes (st (task (k (Resolved v)) w0))
            = map (fun s => if String.eqb (id s) (id sc)
                            then with_description draft s else s)
                  (scenes (st w)).
Proof.
  intros O w1 draft. subst w1 draft. unfold EditorPage.dispatch.
  rewrite (save_offered_handler _ _ _ O). clear O. unfold EditorPage.save_request.
  destruct w as [s au iv nt tos pe np lg]. destruct s. simpl.
  unfold task at 1 2 3 4 5 6, commit. simpl. rewrite decide_True by done. simpl.
  split; [apply since_app; simpl; by rewrite <- !app_assoc|].
  do 3 (split; [done|]).
  split; [intros q Hq; by apply lookup_insert_ne|].
  eexists. split; [apply lookup_insert_eq|]. split.
  - intros [v|e] w0; by eexists.
  - intros v w0. 
    match goal with |- context [task ?h ?w0] =>
      destruct (task_frame h w0) as [_ ->] end.
    done.
Qed.

Lemma keep_replay (l : list event) (w : world) :
  Forall keep l ->
  scenes (st (replay l w)) = scenes (st w)
  /\ saving (st (replay l w)) = saving (st w)
  /\ loading (st (replay l w)) = loading (st w).
Proof.
  intros F. revert w. induction F as [|e l K F IH]; intros w; [done|].
  simpl. destruct (IH (record e w)) as (-> & -> & ->). by destruct e.
Qed.

(** A task of a handler that emits [Q]-events is a list of [Q]-events,
    and the handler it leaves suspended emits [Q]-events. *)
Lemma task_emits (Q : event -> Prop) (h : handler) (w : world) :
  (forall r, Q (Sent r)) -> (forall a, Q (Pause a)) -> emits Q h ->
  exists l s,
    Forall Q l
    /\ task h w = finish s (replay l w)
    /\ match s with
       | Suspended r k => forall rep, emits Q (k rep)
       | Finished _ => True
       end.
Proof.
  intros HS HP E. destruct (run_task_emits Q h w HS E) as (l & El & F & Hs).
  destruct (run_task h w) as [s w'] eqn:R. simpl in El, Hs. subst w'.
  exists (l ++ cleanup_events l w), s. split; [|split; [by apply task_shape|done]].
  apply Forall_app. split; [done|]. unfold cleanup_events.
  case_decide; [done|]. destruct (currentAudio (st w)); by repeat constructor.
Qed.

(** A task of a handler that keeps the list keeps it, keeps the busy
    flags and the promises below the next one, and leaves a handler of
    the same kind suspended. *)
Lemma keep_task (h : handler) (w : world) :
  emits keep h ->
  scenes (st (task h w)) = scenes (st w)
  /\ saving (st (task h w)) = saving (st w)
  /\ loading (st (task h w)) = loading (st w)
  /\ forall p r k, pending (task h w) !! p = Some (r, k) ->
       pending w !! p = Some (r, k) \/ forall rep, emits keep (k rep).
Proof.
  intros E. destruct (task_emits keep h w) as (l & s & F & -> & Hs); try done.
  destruct (keep_replay l w F) as (Es & Ev & El).
  destruct (replay_pending l w) as [Ep _].
  destruct s as [o|r k]; simpl; rewrite ?Es, ?Ev, ?El, ?Ep; repeat split; auto.
  intros p r' k' Hp. apply lookup_insert_Some in Hp as [[_ [= <- <-]]|[_ Hp]]; auto.
Qed.

Lemma invoke_keep (cb : callback) (err : js_error) : emits keep (invoke cb err).
Proof. destruct cb; unfold invoke, emit, perform; quiet_handler. Qed.

(** Every handler the page starts keeps the list, but the save handler
    and a suspended handler that is resumed. *)
Lemma handler_of_keep (w : world) (a : action) (h : handler) :
  handler_of w a = Some h ->
  (exists i, a = ClickSave i /\ saving (st w) = false /\ loading (st w) = false)
  \/ (exists q server r k, a = Settled q server
        /\ pending w !! q = Some (r, k) /\ h = k (settle server r))
  \/ emits keep h.
Proof.
  intros H. unfold EditorPage.handler_of in H.
  destruct a; simpl in H;
    try (right; right; repeat (case_match; simplify_option_eq);
         unfold handleEditScene, playAudio, handleExport, await, emit, perform;
         solve [quiet_handler]).
  - left. exists index. repeat (case_match; simplify_option_eq); eauto.
  - right; right. destruct (audios w !! a) as [x|]; [|done]. simpl in H.
    destruct (onended x); [|done]. injection H as <-. apply invoke_keep.
  - right; right. destruct (audios w !! a) as [x|]; [|done]. simpl in H.
    destruct (onerror x); [|done]. injection H as <-. apply invoke_keep.
  - right; right. destruct (audios w !! a) as [x|]; [|done]. simpl in H.
    destruct (play_catch x); [|done]. injection H as <-. apply invoke_keep.
  - right; right. destruct (intervals w !! timer); [|done].
    injection H as <-. apply invoke_keep.
  - right; right. destruct (timeouts w !! n); [|done].
    injection H as <-. apply invoke_keep.
  - right; left. destruct (pending w !! promise) as [[r k]|] eqn:P; [|done].
    injection H as <-. eauto 10.
Qed.

Lemma consume_pending (a : action) (w : world) (p : nat)
    (x : request * (reply -> handler)) :
  pending (consume a w) !! p = Some x -> pending w !! p = Some x.
Proof.
  destruct a; try done. simpl. intros H. by apply lookup_delete_Some in H as [_ H].
Qed.

Lemma finished_task_pending (h : handler) (w : world) (o : outcome unit) :
  fst (run_task h w) = Finished o -> pending (task h w) = pending w.
Proof.
  intros F. destruct (run_task_replay h w) as [l E].
  destruct (run_task h w) as [s w'] eqn:R. simpl in F, E. subst s w'.
  rewrite (task_shape h w _ l R). simpl. apply replay_pending.
Qed.

Lemma save_offered_of_handler (w : world) (i : nat) (h : handler) :
  handler_of w (ClickSave i) = Some h -> exists sc, save_offered w i sc.
Proof.
  unfold EditorPage.handler_of. intros H.
  destruct (saving (st w)) eqn:V; [done|].
  destruct (loading (st w)) eqn:L; [done|].
  destruct (scenes (st w) !! i) as [sc|] eqn:S; [|done]. simpl in H.
  exists sc. repeat split; try done. by case_bool_decide.
Qed.

Lemma one_writer_dispatch (w : world) (a : action) :
  one_writer w -> one_writer (dispatch w a).
Proof.
  intros [wr I]. destruct (handler_of w a) as [h|] eqn:H;
    [|unfold EditorPage.dispatch; rewrite H; by exists wr].
  destruct (handler_of_keep w a h H)
    as [(i & -> & Sv & Lo)|[(q & server & r & k & -> & P & ->)|K]].
  - destruct (save_offered_of_handler w i h H) as [sc O].
    destruct (save_begins w i sc O) as (_ & _ & Sv1 & _ & Po & k & Pk & Fk & _).
    exists (Some (next_promise w)). intros p r' k' Hp.
    destruct (decide (p = next_promise w)) as [->|Ne].
    + rewrite Pk in Hp. injection Hp as <- <-. right. auto.
    + rewrite (Po p Ne) in Hp. left.
      destruct (I p r' k' Hp) as [Kp|(_ & _ & [B|B])]; [done|congruence..].
  - unfold EditorPage.dispatch. rewrite H.
    set (w0 := consume (Settled q server) w).
    destruct (I q r k P) as [Kq|(-> & Fq & B)].
    + destruct (keep_task (k (settle server r)) w0 (Kq _)) as (_ & Ev & El & Hp).
      exists wr. intros p r' k' Hp'. rewrite Ev, El.
      destruct (Hp p r' k' Hp') as [Hp0|Kp]; [|by left].
      apply consume_pending in Hp0. by apply (I p r' k').
    + destruct (Fq (settle server r) w0) as [o Ho].
      exists None. intros p r' k' Hp. left.
      rewrite (finished_task_pending _ _ _ Ho) in Hp. subst w0. simpl in Hp.
      apply lookup_delete_Some in Hp as [Ne Hp].
      destruct (I p r' k' Hp) as [Kp|([= ->] & _)]; done.
  - unfold EditorPage.dispatch. rewrite H.
    destruct (keep_task h (consume a w) K) as (_ & Ev & El & Hp).
    destruct (consume_frame a w) as (_ & _ & _ & Es & _).
    exists wr. intros p r' k' Hp'. rewrite Ev, El, Es.
    destruct (Hp p r' k' Hp') as [Hp0|Kp]; [|by left].
    apply consume_pending in Hp0. by apply (I p r' k').
Qed.

Lemma one_writer_mounted : one_writer mounted.
Proof.
  exists (Some 0). intros p r k Hp. right.
  unfold EditorPage.mounted, task, commit in Hp. simpl in Hp.
  apply lookup_insert_Some in Hp as [[<- [= <- <-]]|[_ Hp]];
    [|by rewrite lookup_empty in Hp].
  split; [done|]. split; [|by right].
  intros [v|e] w; simpl; [destruct v|]; by eexists.
Qed.

Lemma one_writer_session (acts : list action) (w : world) :
  one_writer w -> one_writer (session w acts).
Proof.
  revert w. induction acts as [|a acts IH]; intros w I; [done|].
  simpl. by apply IH, one_writer_dispatch.
Qed.

(** While a save is in flight nothing else writes the scene list. *)
Lemma saving_under_dispatch (p : nat) (r : request) (k : reply -> handler)
    (l : list scene) (w : world) (a : action) :
  saving_under p r k l w -> settles p a = false ->
  saving_under p r k l (dispatch w a).
Proof.
  intros (Lp & Pp & Sc & Sv & Ot) Na.
  destruct (dispatch_pending_other w a p Na Lp) as [Lp' Pp'].
  destruct (handler_of w a) as [h|] eqn:H;
    [|unfold EditorPage.dispatch; by rewrite H].
  assert (emits keep h) as K.
  { destruct (handler_of_keep w a h H)
      as [(i & -> & Sv' & _)|[(q & server & r' & k' & -> & P & ->)|K]];
      [congruence| |done].
    apply (Ot q r' k'); [|done]. intros ->. simpl in Na.
    by rewrite Nat.eqb_refl in Na. }
  split; [done|]. split; [by rewrite Pp'|].
  unfold EditorPage.dispatch in *. rewrite H in *.
  destruct (keep_task h (consume a w) K) as (Es & Ev & _ & Hp).
  destruct (consume_frame a w) as (_ & _ & _ & Est & _).
  rewrite Es, Ev, Est. do 2 (split; [done|]).
  intros q r' k' Ne Hq. destruct (Hp q r' k' Hq) as [Hq0|Kq]; [|done].
  apply consume_pending in Hq0. by apply (Ot q r' k').
Qed.

Lemma saving_under_session (p : nat) (r : request) (k : reply -> handler)
    (l : list scene) (acts : list action) (w : world) :
  saving_under p r k l w -> existsb (settles p) acts = false ->
  saving_under p r k l (session w acts).
Proof.
  revert w. induction acts as [|a acts IH]; intros w I N; [done|].
  simpl in N. apply orb_false_elim in N as [Na N].
  simpl. apply IH; [by apply saving_under_dispatch|done].
Qed.

(** C7: when the save of scene [id sc] succeeds, whatever else happened
    on the page while the request was in flight, the entries of the scene
    list with that id get the draft text as description and are otherwise
    the same, every other entry is the same, and the list keeps its
    length and order. *)
Theorem save_updates_one_scene (before acts : list action) (index : nat)
    (sc : scene) (server : request -> reply) (v : value) :
  let w := session mounted before in
  let draft := editText (st w) in
  let clicked := dispatch w (ClickSave index) in
  let w1 := session clicked acts in
  let w2 := dispatch w1 (Settled (next_promise w) server) in
  save_offered w index sc ->
  existsb (settles (next_promise w)) acts = false ->
  server (save_request (id sc) draft) = Resolved v ->
  events_since w clicked = [SetSaving true; Sent (save_request (id sc) draft)]
  /\ length (scenes (st w2)) = length (scenes (st w1))
  /\ map id (scenes (st w2)) = map id (scenes (st w1))
  /\ forall i s, scenes (st w1) !! i = Some s ->
       scenes (st w2) !! i =
         Some (if String.eqb (id s) (id sc)
               then {| id := id s; timestamp := timestamp s;
                       description := draft;
                       thumbnail_path := thumbnail_path s;
                       audio_path := audio_path s |}
               else s).
Proof.
  intros w draft clicked w1 w2 O N R.
  assert (one_writer w) as [wr I] by apply one_writer_session, one_writer_mounted.
  destruct (save_begins w index sc O) as (Ev & Sc & Sv & Np & Po & k & Pk & Fk & Hk).
  fold draft clicked in Ev, Sc, Sv, Np, Po, Pk, Hk.
  split; [done|].
  assert (saving_under (next_promise w) (save_request (id sc) draft) k
            (scenes (st w)) clicked) as U.
  { split; [lia|]. do 3 (split; [done|]). intros q r' k' Ne Hq.
    rewrite (Po q Ne) in Hq. destruct O as (Lo & Sa & _).
    destruct (I q r' k' Hq) as [Kq|(_ & _ & [B|B])]; [done|congruence..]. }
  apply (saving_under_session _ _ _ _ acts) in U; [|done].
  destruct U as (_ & P1 & S1 & _). fold w1 in P1, S1.
  assert (scenes (st w2)
          = map (fun s => if String.eqb (id s) (id sc)
                          then with_description draft s else s)
                (scenes (st w1))) as ->.
  { subst w2. unfold EditorPage.dispatch, EditorPage.handler_of. rewrite P1.
    unfold EditorPage.save_request in *. simpl. rewrite R, S1. apply Hk. }
  apply saved_list.
Qed.

End EditorPageProperties.

Lemma one_clip_at_a_time_witness :
  let w := door_playing in
  let w' := EditorPage.dispatch "http://localhost:8001" "p1" w (EditorPage.ClickPlay 1) in
  EditorPage.displayed w 1 street_scene
  /\ EditorPage.currentAudio (EditorPage.st w) = Some 0
  /\ EditorPage.currentAudio (EditorPage.st w') = Some 1
  /\ EditorPage.at_most_one_playing w.
Proof.
  assert (EditorPage.displayed door_playing 1 street_scene) as D.
  { split; [reflexivity|]. split; [reflexivity|]. discriminate. }
  destruct (one_clip_at_a_time "http://localhost:8001" "p1"
              [EditorPage.Settled 0 (editor_server [door_scene; street_scene]);
               EditorPage.ClickPlay 0]
              (EditorPage.ClickPlay 1)) as [A P].
  destruct (P 1 street_scene 0 eq_refl D eq_refl) as (E & C & _ & _).
  split; [exact D|]. split; [reflexivity|]. split; [exact C|].
  exact (A [] _ eq_refl).
Defined.

Lemma load_needs_both_fetches_witness :
  map EditorPage.shown
    (EditorPage.cards_of
       (EditorPage.render "http://localhost:8001" "p1"
          (EditorPage.st (editor_session [door_scene; street_scene] []))))
  = [door_scene; street_scene].
Proof.
  exact (proj2 (proj2 (proj2 (load_needs_both_fetches "http://localhost:8001" "p1"
                                (editor_server [door_scene; street_scene]))))).
Defined.

Lemma save_updates_one_scene_witness :
  let server := editor_server [door_scene; street_scene] in
  let acts := [EditorPage.ClickPlay 1;
               EditorPage.TypeText 0 "A red door opens slowly."] in
  let w := door_edited in
  let w1 := EditorPage.session "http://localhost:8001" "p1"
              (EditorPage.dispatch "http://localhost:8001" "p1" w
                 (EditorPage.ClickSave 0)) acts in
  let w2 := EditorPage.dispatch "http://localhost:8001" "p1" w1
              (EditorPage.Settled 1 server) in
  EditorPage.save_offered w 0 door_scene
  /\ existsb (EditorPage.settles (EditorPage.next_promise w)) acts = false
  /\ EditorPage.scenes (EditorPage.st w2) !! 0%nat
     = Some {| EditorPage.id := "s1"; EditorPage.timestamp := 1 # 2;
               EditorPage.description := "A red door opens.";
               EditorPage.thumbnail_path := "/data/p1/thumbs/s1.jpg";
               EditorPage.audio_path := "/data/p1/audio/s1.mp3" |}
  /\ EditorPage.scenes (EditorPage.st w2) !! 1%nat = Some street_scene.
Proof.
  assert (EditorPage.save_offered door_edited 0 door_scene) as O by by repeat split.
  destruct (save_updates_one_scene "http://localhost:8001" "p1"
              [EditorPage.Settled 0 (editor_server [door_scene; street_scene]);
               EditorPage.ClickEdit 0; EditorPage.TypeText 0 "A red door opens."]
              [EditorPage.ClickPlay 1;
               EditorPage.TypeText 0 "A red door opens slowly."]
              0 door_scene (editor_server [door_scene; street_scene])
              EditorPage.Undefined O eq_refl eq_refl) as (_ & _ & _ & F).
  split; [exact O|]. split; [reflexivity|].
  split; [exact (F 0%nat door_scene eq_refl)|exact (F 1%nat street_scene eq_refl)].
Defined.

Lemma edit_stops_audio_then_seeds_draft_witness :
  let w := door_playing in
  let w' := EditorPage.dispatch "http://localhost:8001" "p1" w (EditorPage.ClickEdit 1) in
  EditorPage.displayed w 1 street_scene
  /\ EditorPage.events_since w w' =
       [EditorPage.Pause 0; EditorPage.SetCurrentTime 0 0;
        EditorPage.SetCurrentAudio None;
        EditorPage.SetEditingScene (Some "s2");
        EditorPage.SetEditText "A street at night.";
        EditorPage.Pause 0].
Proof.
  assert (EditorPage.displayed door_playing 1 street_scene) as D.
  { split; [reflexivity|]. split; [reflexivity|]. discriminate. }
  split; [exact D|].
  exact (proj1 (edit_stops_audio_then_seeds_draft "http://localhost:8001" "p1"
                  door_playing 1 street_scene D)).
Defined.

Lemma export_timer_cancelled_witness :
  let w := dialog_open in
  let refuse := fun _ : EditorPage.request => EditorPage.Rejected export_refused in
  let acts := [EditorPage.Tick 0; EditorPage.Settled 1 refuse; EditorPage.Tick 0] in
  let w' := EditorPage.session "http://localhost:8001" "p1"
              (EditorPage.dispatch "http://localhost:8001" "p1" w EditorPage.ConfirmExport)
              acts in
  EditorPage.export_offered w
  /\ In (EditorPage.Settled (EditorPage.next_promise w) refuse) acts
  /\ EditorPage.intervals w' !! 0%nat = None
  /\ EditorPage.exportProgress (EditorPage.st w') = 0%float.
Proof.
  assert (EditorPage.export_offered dialog_open) as O by by repeat split.
  set (refuse := fun _ : EditorPage.request => EditorPage.Rejected export_refused).
  assert (In (EditorPage.Settled (EditorPage.next_promise dialog_open) refuse)
             [EditorPage.Tick 0; EditorPage.Settled 1 refuse; EditorPage.Tick 0]) as Hin.
  { right. left. reflexivity. }
  destruct (export_timer_cancelled "http://localhost:8001" "p1" dialog_open _ refuse
              O Hin) as (_ & N & _).
  split; [exact O|]. split; [exact Hin|]. split; [exact N|]. reflexivity.
Defined.

(** * The rest of the upload screen *)

Section HomePageFurther.
Import HomePage.
Variable BACKEND_URL : string.
Variable server : request -> reply.

Local Abbreviation dispatch := (HomePage.dispatch BACKEND_URL server).
Local Abbreviation session := (HomePage.session BACKEND_URL server).
Local Abbreviation gesture_step := (HomePage.gesture_step BACKEND_URL server).
Local Abbreviation gestures := (HomePage.gestures BACKEND_URL server).
Local Abbreviation upload_request := (HomePage.upload_request BACKEND_URL).
Local Abbreviation analyze_request := (HomePage.analyze_request BACKEND_URL).

(** The state after one action, field by field. *)
Lemma dispatch_state (w : world) (a : action) :
  selectedFile (st (dispatch w a)) = last_video (selectedFile (st w)) [a]
  /\ uploading (st (dispatch w a)) = uploading (st w)
  /\ dragActive (st (dispatch w a))
     = match a with Drop _ => false | _ => dragActive (st w) end.
Proof.
  destruct w as [[sel u d] l].
  destruct a as [[fs]|[fs]|];
    unfold HomePage.dispatch, handler_of, handleDrop, handleFileSelect, handleUpload,
      last_video, is_video; simpl.
  - destruct fs as [|f fs]; simpl; [done|].
    by destruct (startsWith (type f) "video/").
  - destruct fs as [|f fs]; simpl; [done|].
    by destruct (startsWith (type f) "video/").
  - destruct sel as [f|]; simpl; [|done]. destruct u; simpl; [done|].
    destruct (server _) as [r1|e1]; simpl; [destruct (server _) as [r2|e2]|]; done.
Qed.

(** The requests of one action: those of the upload flow when the
    button is there and enabled, none otherwise. *)
Lemma dispatch_requests (w : world) (a : action) :
  requests (events_since w (dispatch w a)) =
    match a, selectedFile (st w), uploading (st w) with
    | ClickUpload, Some f, false =>
        upload_request f ::
        match server (upload_request f) with
        | Resolved r => [analyze_request (template (id r))]
        | Rejected _ => []
        end
    | _, _, _ => []
    end.
Proof.
  destruct a as [e|e|].
  - destruct (dispatch_spec BACKEND_URL server w (Drop e)) as (evs & E & _).
    rewrite (events_since_app _ _ _ E).
    revert E. destruct w as [s l], e as [fs].
    unfold HomePage.dispatch, handler_of, handleDrop. simpl.
    destruct fs as [|f fs]; simpl;
      [|destruct (startsWith (type f) "video/"); simpl];
      rewrite <- ?app_assoc; intros E; apply app_inv_head in E; by subst.
  - destruct (dispatch_spec BACKEND_URL server w (Change e)) as (evs & E & _).
    rewrite (events_since_app _ _ _ E).
    revert E. destruct w as [s l], e as [fs].
    unfold HomePage.dispatch, handler_of, handleFileSelect. simpl.
    destruct fs as [|f fs]; simpl;
      [rewrite <- (app_nil_r l) at 1
      |destruct (startsWith (type f) "video/"); simpl];
      rewrite <- ?app_assoc; intros E; apply app_inv_head in E; by subst.
  - destruct (selectedFile (st w)) as [f|] eqn:Sel.
    + destruct (uploading (st w)) eqn:U.
      * destruct w as [[sel u d] l]. simpl in Sel, U. subst.
        unfold HomePage.dispatch, events_since. simpl. by rewrite drop_all.
      * destruct (upload_flow BACKEND_URL server w f Sel U) as (_ & _ & ->).
        simpl. destruct (server (upload_request f)) as [r1|e1]; simpl; [|done].
        by destruct (server (analyze_request (template (id r1)))).
    + destruct w as [[sel u d] l]. simpl in Sel. subst.
      unfold HomePage.dispatch, events_since. simpl. by rewrite drop_all.
Qed.

(** A drag event over the drop zone logs its two calls and, for the
    three types the zone listens to, the new highlight. *)
Lemma move_spec (w : world) (e : drag_move) :
  let w' := gesture_step w (Move e) in
  log w' = log w ++
    [PreventDefault; StopPropagation] ++
    (if String.eqb (event_type e) "dragenter" || String.eqb (event_type e) "dragover"
     then [SetDragActive true]
     else if String.eqb (event_type e) "dragleave" then [SetDragActive false]
     else [])
  /\ selectedFile (st w') = selectedFile (st w)
  /\ uploading (st w') = uploading (st w)
  /\ dragActive (st w')
     = if String.eqb (event_type e) "dragenter" || String.eqb (event_type e) "dragover"
       then true
       else if String.eqb (event_type e) "dragleave" then false
       else dragActive (st w).
Proof.
  destruct w as [s l], e as [t]. unfold HomePage.gesture_step, handleDrag. simpl.
  destruct (String.eqb t "dragenter" || String.eqb t "dragover"); simpl;
    [|destruct (String.eqb t "dragleave"); simpl];
    by rewrite <- ?app_assoc.
Qed.

Lemma gesture_step_log (w : world) (g : gesture) :
  log (gesture_step w g) = log w ++ events_since w (gesture_step w g).
Proof.
  destruct g as [e|a].
  - destruct (move_spec w e) as (E & _). by rewrite (events_since_app _ _ _ E).
  - apply dispatch_log.
Qed.

Lemma gestures_log (gs : list gesture) (w : world) :
  log (gestures w gs) = log w ++ events_since w (gestures w gs).
Proof.
  revert w. induction gs as [|g gs IH]; intros w; simpl.
  - unfold events_since. by rewrite drop_all, app_nil_r.
  - symmetry. rewrite IH at 1. rewrite gesture_step_log, <- app_assoc.
    apply (f_equal (app (log w))), events_since_app.
    rewrite IH at 1. by rewrite gesture_step_log, <- app_assoc.
Qed.

(** An action logs the same on two screens that agree on the selection
    and on the uploading flag. *)
Lemma dispatch_agree (w1 w2 : world) (a : action) :
  selectedFile (st w1) = selectedFile (st w2) ->
  uploading (st w1) = uploading (st w2) ->
  beyond_drag (events_since w1 (dispatch w1 a))
  = beyond_drag (events_since w2 (dispatch w2 a)).
Proof.
  destruct w1 as [[sel u d1] l1], w2 as [[sel' u' d2] l2]. simpl. intros <- <-.
  destruct a as [[fs]|[fs]|];
    unfold HomePage.dispatch, handler_of, handleDrop, handleFileSelect, handleUpload,
      events_since; simpl.
  - destruct fs as [|f fs]; simpl;
      [|destruct (startsWith (type f) "video/"); simpl];
      by rewrite <- ?app_assoc, !drop_app_length.
  - destruct fs as [|f fs]; simpl;
      [by rewrite !drop_all
      |destruct (startsWith (type f) "video/"); simpl; by rewrite !drop_app_length].
  - destruct sel as [f|]; simpl; [|by rewrite !drop_all].
    destruct u; simpl; [by rewrite !drop_all|].
    destruct (server _) as [r1|e1]; simpl;
      [destruct (server _) as [r2|e2]; simpl|];
      by rewrite <- ?app_assoc, !drop_app_length.
Qed.

Lemma since_step (w w1 w2 : world) :
  log w1 = log w ++ events_since w w1 ->
  log w2 = log w1 ++ events_since w1 w2 ->
  events_since w w2 = events_since w w1 ++ events_since w1 w2.
Proof.
  intros E1 E2. apply events_since_app. by rewrite E2, E1 at 1; rewrite <- app_assoc.
Qed.

Lemma beyond_drag_app (l l' : list event) :
  beyond_drag (l ++ l') = beyond_drag l ++ beyond_drag l'.
Proof. apply List.filter_app. Qed.

Lemma requests_app (l l' : list event) :
  requests (l ++ l') = requests l ++ requests l'.
Proof. apply omap_app. Qed.

Lemma gestures_agree (gs : list gesture) (w1 w2 : world) :
  selectedFile (st w1) = selectedFile (st w2) ->
  uploading (st w1) = uploading (st w2) ->
  selectedFile (st (gestures w1 gs)) = selectedFile (st (session w2 (acts_of gs)))
  /\ uploading (st (gestures w1 gs)) = uploading (st (session w2 (acts_of gs)))
  /\ beyond_drag (events_since w1 (gestures w1 gs))
     = beyond_drag (events_since w2 (session w2 (acts_of gs))).
Proof.
  revert w1 w2. induction gs as [|g gs IH]; intros w1 w2 S U.
  - split; [done|]. split; [done|]. unfold events_since. simpl. by rewrite !drop_all.
  - change (gestures w1 (g :: gs)) with (gestures (gesture_step w1 g) gs).
    destruct g as [e|a].
    + change (acts_of (Move e :: gs)) with (acts_of gs).
      destruct (move_spec w1 e) as (E & S1 & U1 & _).
      destruct (IH (gesture_step w1 (Move e)) w2) as (S' & U' & B);
        [congruence|congruence|].
      split; [done|]. split; [done|].
      rewrite (since_step w1 (gesture_step w1 (Move e))
                 (gestures (gesture_step w1 (Move e)) gs));
        [|apply gesture_step_log|apply gestures_log].
      rewrite beyond_drag_app, B, (events_since_app _ _ _ E).
      by destruct (String.eqb (event_type e) "dragenter"
                   || String.eqb (event_type e) "dragover"),
                  (String.eqb (event_type e) "dragleave").
    + change (acts_of (Act a :: gs)) with (a :: acts_of gs).
      change (gesture_step w1 (Act a)) with (dispatch w1 a).
      change (session w2 (a :: acts_of gs))
        with (session (dispatch w2 a) (acts_of gs)).
      destruct (dispatch_state w1 a) as (S1 & U1 & _).
      destruct (dispatch_state w2 a) as (S2 & U2 & _).
      destruct (IH (dispatch w1 a) (dispatch w2 a)) as (S' & U' & B);
        [congruence|congruence|].
      split; [done|]. split; [done|].
      rewrite (since_step w1 (dispatch w1 a) (gestures (dispatch w1 a) gs));
        [|apply dispatch_log|apply gestures_log].
      rewrite (since_step w2 (dispatch w2 a) (session (dispatch w2 a) (acts_of gs)));
        [|apply dispatch_log|apply session_log].
      by rewrite !beyond_drag_app, B, (dispatch_agree w1 w2 a S U).
Qed.

Lemma session_last_video (acts : list action) (w : world) :
  selectedFile (st (session w acts)) = last_video (selectedFile (st w)) acts
  /\ uploading (st (session w acts)) = uploading (st w).
Proof.
  revert w. induction acts as [|a acts IH]; intros w; simpl; [done|].
  destruct (IH (dispatch w a)) as (-> & ->).
  destruct (dispatch_state w a) as (-> & -> & _). done.
Qed.

Lemma last_video_None (acts : list action) (sel : option file) :
  last_video sel acts = None -> sel = None.
Proof.
  revert sel. induction acts as [|a acts IH]; intros sel; simpl; [done|].
  intros E. apply IH in E. destruct (offered a) as [f|]; [|done].
  by destruct (is_video f).
Qed.

(** X1: the highlight of the drop zone after one gesture: on after a
    dragenter or a dragover, off after a dragleave and after every drop
    (whatever was dropped), and as before after anything else. *)
Theorem drop_zone_highlight (w : world) (g : gesture) :
  highlighted (render (st (gesture_step w g))) =
    match g with
    | Move e =>
        if String.eqb (event_type e) "dragenter" || String.eqb (event_type e) "dragover"
        then true
        else if String.eqb (event_type e) "dragleave" then false
        else highlighted (render (st w))
    | Act (Drop _) => false
    | Act _ => highlighted (render (st w))
    end.
Proof.
  unfold render, highlighted. destruct g as [e|a].
  - by destruct (move_spec w e) as (_ & _ & _ & ->).
  - change (gesture_step w (Act a)) with (dispatch w a).
    destruct (dispatch_state w a) as (_ & _ & ->). by destruct a.
Qed.

(** X2: the drag events over the drop zone change the highlight and
    nothing else: with them or without them the screen ends with the same
    selection and the same uploading flag, and logs the same toasts,
    requests and navigations in the same order. *)
Theorem drag_moves_change_highlight_only (gs : list gesture) (w : world) :
  let w1 := gestures w gs in
  let w2 := session w (acts_of gs) in
  selectedFile (st w1) = selectedFile (st w2)
  /\ uploading (st w1) = uploading (st w2)
  /\ beyond_drag (events_since w w1) = beyond_drag (events_since w w2).
Proof. by apply gestures_agree. Qed.


(** X4: after any list of actions the selection is the first file of
    the last selection or drop that offered a video; selections and drops
    of other files, empty ones and uploads do not change it. *)
Theorem selection_is_last_video_offered (acts : list action) (w : world) :
  selectedFile (st (session w acts)) = last_video (selectedFile (st w)) acts.
Proof. apply session_last_video. Qed.

(** X5: as long as no video was offered the screen sends nothing,
    whatever else is done on it: there is no upload button to press. *)
Theorem nothing_sent_without_video (gs : list gesture) :
  last_video None (acts_of gs) = None ->
  let w := gestures mounted gs in
  requests (events_since mounted w) = []
  /\ upload_button (render (st w)) = None.
Proof.
  intros L w.
  destruct (gestures_agree gs mounted mounted eq_refl eq_refl) as (S & _ & B).
  fold w in S, B.
  assert (forall acts w0, selectedFile (st w0) = None ->
            last_video None acts = None ->
            requests (events_since w0 (session w0 acts)) = []) as N.
  { clear. induction acts as [|a acts IH]; intros w0 S0 L; simpl.
    - unfold events_since. by rewrite drop_all.
    - simpl in L. pose proof (last_video_None _ _ L) as La.
      rewrite La in L.
      destruct (dispatch_state w0 a) as (S1 & _). rewrite S0 in S1.
      unfold last_video in S1. simpl in S1. rewrite La in S1.
      rewrite (since_step w0 (dispatch w0 a) (session (dispatch w0 a) acts));
        [|apply dispatch_log|apply session_log].
      rewrite requests_app, (IH _ S1 L), dispatch_requests, S0. by destruct a. }
  split.
  - assert (forall evs, requests (beyond_drag evs) = requests evs) as R.
    { clear. induction evs as [|e evs IH]; [done|]. destruct e; simpl; by rewrite ?IH. }
    rewrite <- R, B, R. by apply N.
  - simpl. rewrite S. destruct (session_last_video (acts_of gs) mounted) as (-> & _).
    simpl. by rewrite L.
Qed.

(** X6: an upload sets the uploading flag before it sends anything and
    clears it as its last step, however the two requests settle: the
    button is enabled again afterwards.  While the flag is set the button
    does nothing. *)
Theorem uploading_flag_brackets_upload (w : world) (f : file) :
  selectedFile (st w) = Some f ->
  (uploading (st w) = false ->
   let w' := dispatch w ClickUpload in
   (exists mid, events_since w w' = SetUploading true :: mid ++ [SetUploading false]
                /\ forall b, SetUploading b ∉ mid)
   /\ upload_button (render (st w'))
      = Some {| disabled := false; label := "Upload and Analyze" |})
  /\ (uploading (st w) = true ->
      upload_button (render (st w)) = Some {| disabled := true; label := "Processing..." |}
      /\ dispatch w ClickUpload = w).
Proof.
  intros Sel. split.
  - intros U w'. destruct (upload_flow BACKEND_URL server w f Sel U) as (S' & U' & E).
    fold w' in S', U', E. split.
    + match type of E with
      | _ = _ ++ ?X ++ _ => exists (Sent (upload_request f) :: X)
      end.
      split; [by rewrite E|]. intros b Hb.
      destruct (server (upload_request f)) as [r1|e1]; simpl in Hb;
        [destruct (server (analyze_request (template (id r1)))) as [r2|e2];
         simpl in Hb|];
        repeat (apply elem_of_cons in Hb as [Hb|Hb]; [discriminate|]);
        inversion Hb.
    + simpl. by rewrite S', U'.
  - intros U. split; [simpl; by rewrite Sel, U|].
    destruct w as [[sel u d] l]. simpl in Sel, U. subst.
    by unfold HomePage.dispatch.
Qed.

(** X7: the handler does not check that the upload response carries an
    id.  When it carries none, the analysis is requested for the project
    "undefined" and, if that request succeeds, the screen navigates to
    the editor of "undefined". *)
Theorem upload_without_id (w : world) (f : file) :
  selectedFile (st w) = Some f -> uploading (st w) = false ->
  server (upload_request f) = Resolved {| id := None |} ->
  let evs := events_since w (dispatch w ClickUpload) in
  requests evs = [upload_request f; analyze_request "undefined"]
  /\ error_toasts evs
     = match server (analyze_request "undefined") with
       | Resolved _ => []
       | Rejected _ => ["Failed to upload video"]
       end
  /\ navigations evs
     = match server (analyze_request "undefined") with
       | Resolved _ => ["/editor/undefined"]
       | Rejected _ => []
       end.
Proof.
  intros Sel U Up evs. subst evs.
  destruct (upload_flow BACKEND_URL server w f Sel U) as (_ & _ & ->).
  rewrite Up. simpl.
  by destruct (server (analyze_request "undefined")).
Qed.

(** X8: whatever is done on the screen, drag events included, the
    file named in the drop zone is a video, and the upload button is
    there exactly when a file is named. *)
Theorem drop_zone_names_a_video (gs : list gesture) :
  let s := st (gestures mounted gs) in
  match selectedFile s with
  | Some f =>
      is_video f = true /\ dropzone_text (render s) = name f
      /\ is_Some (upload_button (render s))
  | None =>
      dropzone_text (render s) = "Drag and drop your video here"
      /\ upload_button (render s) = None
  end.
Proof.
  intros s. subst s.
  destruct (gestures_agree gs mounted mounted eq_refl eq_refl) as (S & _ & _).
  pose proof (session_video_selected BACKEND_URL server (acts_of gs) mounted
                mounted_video_selected) as V.
  unfold video_selected in V. rewrite <- S in V. simpl.
  destruct (selectedFile (st (gestures mounted gs))) as [f|]; [|done].
  split; [by apply V|]. split; [done|]. by eexists.
Qed.

End HomePageFurther.

(** * The rest of the editor *)

Section EditorPageFurther.
Import EditorPage.
Variable BACKEND_URL : string.
Variable projectId : string.

Local Abbreviation dispatch := (EditorPage.dispatch BACKEND_URL projectId).
Local Abbreviation session := (EditorPage.session BACKEND_URL projectId).
Local Abbreviation handler_of := (EditorPage.handler_of BACKEND_URL projectId).
Local Abbreviation mounted := (EditorPage.mounted BACKEND_URL projectId).
Local Abbreviation run_task := (run_task exec sent).
Local Abbreviation save_request := (EditorPage.save_request BACKEND_URL).
Local Abbreviation export_request := (EditorPage.export_request BACKEND_URL projectId).
Local Abbreviation ticking := (EditorPage.ticking BACKEND_URL projectId).
Local Abbreviation audio_url := (EditorPage.audio_url BACKEND_URL projectId).
Local Abbreviation render := (EditorPage.render BACKEND_URL projectId).
Local Abbreviation download_from := (EditorPage.download_from BACKEND_URL).

(** *** Saving and leaving edit mode *)

(** The handler a save leaves suspended, resumed: what it logs on
    success and on failure. *)
Lemma save_resumes (w : world) (index : nat) (sc : scene) :
  save_offered w index sc ->
  let draft := editText (st w) in
  exists k,
    pending (dispatch w (ClickSave index)) !! next_promise w
    = Some (save_request (id sc) draft, k)
    /\ (forall v w0,
          task (k (Resolved v)) w0
          = replay [SetScenes (map (fun s => if String.eqb (id s) (id sc)
                                             then with_description draft s else s)
                                   (scenes (st w)));
                    SetEditingScene None;
                    Toast success "Scene updated successfully!";
                    SetSaving false] w0)
    /\ (forall err w0,
          task (k (Rejected err)) w0
          = replay [ConsoleError "Save error:" err;
                    Toast error "Failed to save scene";
                    SetSaving false] w0).
Proof.
  intros O draft. subst draft. unfold EditorPage.dispatch.
  rewrite (save_offered_handler BACKEND_URL projectId _ _ _ O). clear O. unfold EditorPage.save_request.
  destruct w as [s au iv nt tos pe np lg]. destruct s. simpl.
  unfold task at 1, commit. simpl. rewrite decide_True by done. simpl.
  eexists. split; [apply lookup_insert_eq|]. split.
  - intros v w0. unfold task, commit. simpl. by rewrite decide_True.
  - intros err w0. unfold task, commit. simpl. by rewrite decide_True.
Qed.

(** The page when the save confirmed at a reachable page settles,
    whatever happened in between: the handler that is resumed is the one
    the save left, and the page is still saving. *)
Lemma save_in_flight (before acts : list action) (index : nat) (sc : scene)
    (k : reply -> handler) :
  let w := session mounted before in
  let clicked := dispatch w (ClickSave index) in
  let w1 := session clicked acts in
  save_offered w index sc ->
  existsb (settles (next_promise w)) acts = false ->
  pending clicked !! next_promise w = Some (save_request (id sc) (editText (st w)), k) ->
  pending w1 !! next_promise w = Some (save_request (id sc) (editText (st w)), k)
  /\ scenes (st w1) = scenes (st w)
  /\ saving (st w1) = true.
Proof.
  intros w clicked w1 O N Pk.
  assert (one_writer w) as [wr I] by apply (one_writer_session BACKEND_URL projectId), one_writer_mounted.
  destruct (save_begins BACKEND_URL projectId w index sc O) as (Ev & Sc & Sv & Np & Po & k' & Pk' & _).
  fold clicked in Ev, Sc, Sv, Np, Po, Pk'.
  assert (saving_under (next_promise w) (save_request (id sc) (editText (st w))) k
            (scenes (st w)) clicked) as U.
  { split; [lia|]. do 3 (split; [done|]). intros q r' k'' Ne Hq.
    rewrite (Po q Ne) in Hq. destruct O as (Lo & Sa & _).
    destruct (I q r' k'' Hq) as [Kq|(_ & _ & [B|B])]; [done|congruence..]. }
  apply (saving_under_session BACKEND_URL projectId _ _ _ _ acts) in U; [|done].
  by destruct U as (_ & P1 & S1 & V1 & _).
Qed.

(** The log and the state after a suspended handler that logs [l] and
    finishes was resumed by [a]. *)
Lemma resumed_replay (w : world) (a : action) (l : list event) :
  let w' := replay l (consume a w) in
  log w' = log w ++ l /\ events_since w w' = l.
Proof.
  intros w'. assert (log w' = log w ++ l) as E.
  { subst w'. rewrite log_replay. by destruct (consume_frame a w) as (_ & _ & _ & _ & _ & ->). }
  split; [done|]. by apply since_app.
Qed.

(** X9: when the save of a scene fails, whatever else happened on the
    page while the request was in flight, the handler logs the error,
    shows the error toast and clears the saving flag; the scene list is
    the one before the click, and the edit mode and the draft are as they
    were when the request settled.  With nothing in between, the state is
    the one before the click, so that Save is offered again. *)
Theorem failed_save_keeps_draft (before acts : list action) (index : nat)
    (sc : scene) (server : request -> reply) (err : js_error) :
  let w := session mounted before in
  let draft := editText (st w) in
  let clicked := dispatch w (ClickSave index) in
  let w1 := session clicked acts in
  let w2 := dispatch w1 (Settled (next_promise w) server) in
  save_offered w index sc ->
  existsb (settles (next_promise w)) acts = false ->
  server (save_request (id sc) draft) = Rejected err ->
  events_since w1 w2 =
    [ConsoleError "Save error:" err; Toast error "Failed to save scene";
     SetSaving false]
  /\ scenes (st w2) = scenes (st w)
  /\ editingScene (st w2) = editingScene (st w1)
  /\ editText (st w2) = editText (st w1)
  /\ saving (st w2) = false
  /\ (acts = [] -> st w2 = st w /\ save_offered w2 index sc).
Proof.
  intros w draft clicked w1 w2 O N R.
  destruct (save_resumes w index sc O) as (k & Pk & _ & Hk).
  fold draft clicked in Pk.
  destruct (save_in_flight before acts index sc k O N Pk) as (P1 & S1 & V1).
  fold w clicked w1 draft in P1, S1, V1.
  assert (w2 = replay [ConsoleError "Save error:" err;
                       Toast error "Failed to save scene"; SetSaving false]
                 (consume (Settled (next_promise w) server) w1)) as E.
  { subst w2. unfold EditorPage.dispatch, EditorPage.handler_of. rewrite P1.
    unfold EditorPage.save_request in *. simpl. rewrite R. apply Hk. }
  destruct (resumed_replay w1 (Settled (next_promise w) server)
              [ConsoleError "Save error:" err; Toast error "Failed to save scene";
               SetSaving false]) as (_ & Ev).
  rewrite <- E in Ev. split; [done|].
  assert (scenes (st w2) = scenes (st w1) /\ editingScene (st w2) = editingScene (st w1)
          /\ editText (st w2) = editText (st w1) /\ saving (st w2) = false)
    as (A & B & C & D) by (by rewrite E).
  rewrite A, S1. do 4 (split; [done|]).
  intros ->. assert (st w2 = st w) as Es.
  { rewrite E. subst w1 clicked. simpl.
    unfold EditorPage.dispatch. rewrite (save_offered_handler BACKEND_URL projectId _ _ _ O).
    match goal with |- context [task ?h ?w0] =>
      destruct (task_frame h w0) as [_ ->] end.
    destruct O as (_ & Sa & _). destruct w as [s au iv nt tos pe np lg].
    destruct s. simpl in *. by subst. }
  split; [done|]. unfold save_offered. by rewrite Es.
Qed.

(** X10: when the save of a scene succeeds, whatever else happened on
    the page while the request was in flight, the handler sets the list
    to the update of the list of the render it was started in, leaves the
    edit mode (of whatever scene is being edited by then), shows the
    success toast and clears the saving flag; the draft buffer stays. *)
Theorem successful_save_leaves_edit_mode (before acts : list action) (index : nat)
    (sc : scene) (server : request -> reply) (v : value) :
  let w := session mounted before in
  let draft := editText (st w) in
  let clicked := dispatch w (ClickSave index) in
  let w1 := session clicked acts in
  let w2 := dispatch w1 (Settled (next_promise w) server) in
  save_offered w index sc ->
  existsb (settles (next_promise w)) acts = false ->
  server (save_request (id sc) draft) = Resolved v ->
  events_since w1 w2 =
    [SetScenes (map (fun s => if String.eqb (id s) (id sc)
                              then with_description draft s else s)
                    (scenes (st w)));
     SetEditingScene None;
     Toast success "Scene updated successfully!";
     SetSaving false]
  /\ editingScene (st w2) = None
  /\ saving (st w2) = false
  /\ editText (st w2) = editText (st w1)
  /\ forall i, ~ exists h, handler_of w2 (ClickSave i) = Some h.
Proof.
  intros w draft clicked w1 w2 O N R.
  destruct (save_resumes w index sc O) as (k & Pk & Hk & _).
  fold draft clicked in Pk, Hk.
  destruct (save_in_flight before acts index sc k O N Pk) as (P1 & S1 & V1).
  fold w clicked w1 draft in P1, S1, V1.
  set (l := [SetScenes (map (fun s => if String.eqb (id s) (id sc)
                                      then with_description draft s else s)
                            (scenes (st w)));
             SetEditingScene None;
             Toast success "Scene updated successfully!";
             SetSaving false]).
  assert (w2 = replay l (consume (Settled (next_promise w) server) w1)) as E.
  { subst w2. unfold EditorPage.dispatch, EditorPage.handler_of. rewrite P1.
    unfold EditorPage.save_request in *. simpl. rewrite R. apply Hk. }
  destruct (resumed_replay w1 (Settled (next_promise w) server) l) as (_ & Ev).
  rewrite <- E in Ev. split; [done|].
  assert (editingScene (st w2) = None /\ saving (st w2) = false
          /\ editText (st w2) = editText (st w1))
    as (A & B & C) by (by rewrite E).
  do 3 (split; [done|]).
  intros i [h H]. unfold EditorPage.handler_of in H. rewrite B, A in H.
  destruct (loading (st w2)); [done|].
  destruct (scenes (st w2) !! i) as [s|]; [|done]. simpl in H. discriminate.
Qed.

(** *** Edit mode *)

(** A state setter that leaves the tracked clip alone is one task. *)
Lemma emit_task (e : event) (w : world) :
  currentAudio (st (record e w)) = currentAudio (st w) ->
  task (emit e) w = record e w.
Proof.
  intros E. unfold task, commit. simpl. by rewrite decide_True.
Qed.

Lemma editing_handler (w : world) (index : nat) (sc : scene) :
  loading (st w) = false -> scenes (st w) !! index = Some sc ->
  editingScene (st w) = Some (id sc) ->
  (forall text, handler_of w (TypeText index text) = Some (emit (SetEditText text)))
  /\ handler_of w (ClickCancel index) = Some (emit (SetEditingScene None)).
Proof.
  intros L S E. unfold EditorPage.handler_of. rewrite L, S. simpl.
  by rewrite bool_decide_eq_true_2.
Qed.

(** Pressing Edit on a card: the log and the state of the task. *)
Lemma edit_begins (w : world) (index : nat) (sc : scene) :
  displayed w index sc ->
  let w' := dispatch w (ClickEdit index) in
  editingScene (st w') = Some (id sc)
  /\ editText (st w') = description sc
  /\ scenes (st w') = scenes (st w)
  /\ loading (st w') = false
  /\ Forall (fun e => ~ is_sent e) (events_since w w').
Proof.
  intros O w'. subst w'. unfold EditorPage.dispatch.
  rewrite (displayed_handler BACKEND_URL projectId _ _ _ O).
  destruct O as (L & _). revert L.
  destruct w as [s au iv nt tos pe np lg]. destruct s. simpl. intros ->.
  destruct currentAudio0 as [a|]; simpl; unfold task, commit; simpl;
    (do 4 (split; [done|]));
    match goal with
    | |- Forall _ (events_since ?w0 ?w1) =>
        erewrite (since_app w0 _ w1);
        [|simpl; rewrite <- ?app_assoc; reflexivity]
    end;
    repeat constructor; simpl; tauto.
Qed.

(** X11: cancelling an edit sends nothing and leaves the scene list as
    it is, whatever was typed; the next edit of the card starts from the
    stored description again, not from what was typed. *)
Theorem cancel_discards_draft (w : world) (index : nat) (sc : scene) (text : string) :
  loading (st w) = false -> scenes (st w) !! index = Some sc ->
  editingScene (st w) = Some (id sc) ->
  let w1 := dispatch w (TypeText index text) in
  let w2 := dispatch w1 (ClickCancel index) in
  let w3 := dispatch w2 (ClickEdit index) in
  editText (st w1) = text
  /\ events_since w w2 = [SetEditText text; SetEditingScene None]
  /\ scenes (st w2) = scenes (st w)
  /\ editingScene (st w2) = None
  /\ editText (st w3) = description sc
  /\ editingScene (st w3) = Some (id sc)
  /\ Forall (fun e => ~ is_sent e) (events_since w2 w3).
Proof.
  intros L S E w1 w2 w3.
  destruct (editing_handler w index sc L S E) as (T & _).
  assert (w1 = record (SetEditText text) w) as E1.
  { subst w1. unfold EditorPage.dispatch. rewrite T. by apply emit_task. }
  assert (w2 = record (SetEditingScene None) w1) as E2.
  { destruct (editing_handler w1 index sc) as (_ & C); try (by rewrite E1).
    subst w2. unfold EditorPage.dispatch. rewrite C. by apply emit_task. }
  assert (displayed w2 index sc) as D.
  { rewrite E2, E1. repeat split; try done. }
  destruct (edit_begins w2 index sc D) as (A1 & A2 & _ & _ & A5).
  fold w3 in A1, A2, A5.
  split; [by rewrite E1|]. split.
  { apply since_app. rewrite E2, E1, !log_record. by rewrite <- app_assoc. }
  split; [by rewrite E2, E1|]. split; [by rewrite E2|]. done.
Qed.

(** X12: one scene is edited at a time.  Pressing Edit on another card
    while a card is in edit mode puts that card in edit mode with its
    stored description as draft; the first card leaves edit mode and
    what was typed in it is dropped, with no request sent. *)
Theorem editing_another_scene_drops_draft (w : world) (i j : nat) (si sj : scene) :
  loading (st w) = false ->
  scenes (st w) !! i = Some si -> scenes (st w) !! j = Some sj ->
  editingScene (st w) = Some (id si) -> id sj <> id si ->
  let w' := dispatch w (ClickEdit j) in
  editText (st w') = description sj
  /\ scenes (st w') = scenes (st w)
  /\ Forall (fun e => ~ is_sent e) (events_since w w')
  /\ (exists c, cards_of (render (st w')) !! j = Some c
                /\ number c = S j /\ shown c = sj /\ editing c = true)
  /\ (exists c, cards_of (render (st w')) !! i = Some c
                /\ number c = S i /\ shown c = si /\ editing c = false).
Proof.
  intros L Si Sj E Ne w'.
  assert (displayed w j sj) as D.
  { repeat split; try done. rewrite E. congruence. }
  destruct (edit_begins w j sj D) as (A1 & A2 & A3 & A4 & A5).
  fold w' in A1, A2, A3, A4, A5.
  do 3 (split; [done|]).
  unfold EditorPage.render. rewrite A4. simpl. rewrite !list_lookup_imap, A3, Si, Sj.
  simpl. rewrite A1. split; eexists; (split; [reflexivity|]); simpl;
    (split; [lia|]); (split; [done|]).
  - by apply bool_decide_eq_true_2.
  - apply bool_decide_eq_false_2. congruence.
Qed.

(** *** The export, from the request to the download *)

(** The handler an export leaves suspended, resumed step by step: what
    each of its tasks logs and the request it waits for next, by how the
    requests settle. *)
Lemma export_resumes (w : world) :
  export_offered w ->
  let t := next_timer w in
  let format := exportFormat (st w) in
  exists k,
    pending (dispatch w ConfirmExport) !! next_promise w
    = Some (export_request format, k)
    /\ (forall err w0,
          task (k (Rejected err)) w0
          = replay [ClearInterval t; ConsoleError "Export error:" err;
                    toast_value error (display_message err);
                    SetExportProgress 0; SetEstimatedTime 0;
                    SetExporting false] w0)
    /\ forall v, exists k1,
         (forall w0,
            task (k (Resolved v)) w0
            = suspend (Sleep 500) k1
                (replay [ClearInterval t; SetExportProgress 100; Sent (Sleep 500)] w0))
         /\ exists k2,
              (forall w0,
                 task (k1 (Resolved Undefined)) w0
                 = suspend (Fetch (download_from v)) k2
                     (replay [Toast success "Starting download...";
                              Sent (Fetch (download_from v))] w0))
              /\ (forall e w0,
                    task (k2 (Rejected e)) w0 = replay (download_failed e) w0)
              /\ (forall f w0, ok_of f = false ->
                    task (k2 (Resolved f)) w0
                    = replay (download_failed
                                {| message := "Download failed";
                                   response_detail := None |}) w0)
              /\ forall f, ok_of f = true -> exists k3,
                   (forall w0,
                      task (k2 (Resolved f)) w0
                      = suspend (ReadBlob (download_from v)) k3
                          (replay [Sent (ReadBlob (download_from v))] w0))
                   /\ (forall e w0,
                         task (k3 (Rejected e)) w0 = replay (download_failed e) w0)
                   /\ forall b w0,
                        let link := download_link (project (st w)) format b in
                        task (k3 (Resolved b)) w0
                        = replay [ObjectURLCreated (content_of b) (href link);
                                  AppendLink link; ClickLink link;
                                  TimeoutSet (RemoveLink link (href link)) 100;
                                  Toast success "Download started!";
                                  TimeoutSet CloseDialog 1500;
                                  SetExporting false] w0.
Proof.
  intros O t format. subst t format. unfold EditorPage.dispatch.
  rewrite (export_offered_handler BACKEND_URL projectId _ O). clear O.
  unfold EditorPage.export_request, EditorPage.download_from.
  destruct w as [s au iv nt tos pe np lg]. destruct s. simpl.
  unfold task at 1, commit. simpl. rewrite decide_True by done. simpl.
  eexists. split; [apply lookup_insert_eq|]. split.
  { intros err w0. unfold task, commit, display_message, or_else. simpl.
    destruct (detail_or _ _) as [m|]; [destruct (Nat.ltb 100 (js_length m))|];
      simpl; by rewrite decide_True. }
  intros v. eexists. split.
  { intros w0. unfold task, commit. simpl. rewrite decide_True by done. reflexivity. }
  eexists. split.
  { intros w0. unfold task, commit. simpl. rewrite decide_True by done. reflexivity. }
  split.
  { intros e w0. unfold task, commit. simpl. by rewrite decide_True. }
  split.
  { intros f w0 F. destruct f; simpl in F; subst; try discriminate;
      unfold task, commit; simpl; by rewrite decide_True. }
  intros f F. destruct f; simpl in F; subst; try discriminate.
  eexists. split.
  { intros w0. unfold task, commit. simpl.
    rewrite decide_True by done. reflexivity. }
  split.
  { intros e w0. unfold task, commit. simpl. by rewrite decide_True. }
  intros b w0. unfold task, commit, download_link. simpl.
  by rewrite decide_True.
Qed.

(** Settling a promise commutes with the events of the task that
    follows: events do not touch the promises. *)
Lemma record_settled (e : event) (q : nat) (server : request -> reply) (w : world) :
  record e (consume (Settled q server) w) = consume (Settled q server) (record e w).
Proof. by destruct e. Qed.

Lemma replay_settled (l : list event) (q : nat) (server : request -> reply)
    (w : world) :
  replay l (consume (Settled q server) w) = consume (Settled q server) (replay l w).
Proof.
  revert w. induction l as [|e l IH]; intros w; [done|].
  change (replay l (record e (consume (Settled q server) w))
          = consume (Settled q server) (replay l (record e w))).
  by rewrite record_settled, IH.
Qed.

Lemma settle_step (w : world) (q : nat) (server : request -> reply)
    (r : request) (k : reply -> handler) :
  pending w !! q = Some (r, k) ->
  dispatch w (Settled q server)
  = task (k (settle server r)) (consume (Settled q server) w).
Proof.
  intros P. unfold EditorPage.dispatch, EditorPage.handler_of. by rewrite P.
Qed.

(** A suspended handler is resumed and waits for the next request. *)
Lemma resume_suspends (w : world) (q : nat) (server : request -> reply)
    (r r' : request) (k k' : reply -> handler) (l : list event) :
  pending w !! q = Some (r, k) ->
  (forall w0, task (k (settle server r)) w0 = suspend r' k' (replay l w0)) ->
  let w' := dispatch w (Settled q server) in
  events_since w w' = l
  /\ pending w' !! next_promise w = Some (r', k')
  /\ next_promise w' = S (next_promise w)
  /\ st w' = st (replay l w)
  /\ timeouts w' = timeouts (replay l w)
  /\ intervals w' = intervals (replay l w).
Proof.
  intros P H w'.
  assert (w' = suspend r' k' (consume (Settled q server) (replay l w))) as ->.
  { subst w'. by rewrite (settle_step _ _ _ _ _ P), H, replay_settled. }
  destruct (replay_pending l w) as [_ Np].
  split; [apply since_app; simpl; apply log_replay|].
  simpl. rewrite Np. split; [apply lookup_insert_eq|]. done.
Qed.

(** A suspended handler is resumed and runs to its end. *)
Lemma resume_finishes (w : world) (q : nat) (server : request -> reply)
    (r : request) (k : reply -> handler) (l : list event) :
  pending w !! q = Some (r, k) ->
  (forall w0, task (k (settle server r)) w0 = replay l w0) ->
  let w' := dispatch w (Settled q server) in
  events_since w w' = l
  /\ next_promise w' = next_promise w
  /\ pending w' = delete q (pending w)
  /\ st w' = st (replay l w)
  /\ timeouts w' = timeouts (replay l w)
  /\ intervals w' = intervals (replay l w).
Proof.
  intros P H w'.
  assert (w' = consume (Settled q server) (replay l w)) as ->.
  { subst w'. by rewrite (settle_step _ _ _ _ _ P), H, replay_settled. }
  destruct (replay_pending l w) as [Pe Np].
  split; [apply since_app; simpl; apply log_replay|].
  simpl. by rewrite Pe, Np.
Qed.

(** The page while only the timer of an export ticks. *)
Lemma ticking_frame (w : world) (n : nat) :
  export_offered w ->
  let W := ticking w n in
  loading (st W) = false
  /\ showExportDialog (st W) = true
  /\ exporting (st W) = true
  /\ estimatedTime (st W) = estimate (scenes (st w))
  /\ timeouts W = timeouts w
  /\ next_promise W = S (next_promise w).
Proof.
  intros O. induction n as [|n IH].
  - change (ticking w 0) with (dispatch w ConfirmExport).
    unfold EditorPage.dispatch.
    rewrite (export_offered_handler BACKEND_URL projectId _ O).
    destruct O as (L & D & _). revert L D.
    destruct w as [s au iv nt tos pe np lg]. destruct s. simpl. intros -> ->.
    unfold task, commit. simpl. by rewrite decide_True.
  - destruct (ticking_spec BACKEND_URL projectId w n O) as (_ & _ & _ & ->).
    simpl. exact IH.
Qed.

(** The page [n] ticks into an export waits under the promise of the
    export request with the handler the export left. *)
Lemma ticking_pending (w : world) (n : nat) (k : reply -> handler) :
  export_offered w ->
  pending (dispatch w ConfirmExport) !! next_promise w
  = Some (export_request (exportFormat (st w)), k) ->
  pending (ticking w n) !! next_promise w
  = Some (export_request (exportFormat (st w)), k).
Proof.
  intros O P. destruct (ticking_spec BACKEND_URL projectId w n O) as (_ & -> & _).
  exact P.
Qed.

(** What the error toast is given: the detail of the response, else
    the message of the error, else a default; a string of more than 100
    UTF-16 code units is replaced, and a detail that is not a string is
    passed as it is. *)
Lemma display_message_spec (err : js_error) :
  (forall s, display_message err = Text s -> js_length s <= 100 /\ s <> "")
  /\ (display_message err = NotText <-> response_detail err = Some NotText)
  /\ (forall d, response_detail err = Some (Text d) -> d <> "" ->
        display_message err
        = Text (if Nat.ltb 100 (js_length d)
                then "Video export failed. Please check if all scenes have valid audio."
                else d))
  /\ (response_detail err = None \/ response_detail err = Some (Text "") ->
      let m := if String.eqb (message err) "" then "Failed to export video"
               else message err in
      display_message err
      = Text (if Nat.ltb 100 (js_length m)
              then "Video export failed. Please check if all scenes have valid audio."
              else m)).
Proof.
  unfold display_message, detail_or, or_else.
  assert ((if String.eqb (message err) "" then "Failed to export video"
           else message err) <> "") as Hm
    by by destruct (String.eqb_spec (message err) "").
  set (m := if String.eqb (message err) "" then _ else _) in *.
  split; [|split; [|split]].
  - intros s. destruct (response_detail err) as [[d|]|]; [| |];
      try destruct (String.eqb_spec d "");
      repeat match goal with
             | |- context [Nat.ltb 100 (js_length ?x)] =>
                 destruct (Nat.ltb_spec 100 (js_length x))
             end;
      intros [= <-]; (split; [simpl; lia|done]).
  - destruct (response_detail err) as [[d|]|]; [| |];
      try destruct (String.eqb d "");
      repeat match goal with
             | |- context [Nat.ltb 100 (js_length ?x)] =>
                 destruct (Nat.ltb 100 (js_length x))
             end; split; done.
  - intros d -> Hd. destruct (String.eqb_spec d ""); [done|].
    by destruct (Nat.ltb 100 (js_length d)).
  - intros [->| ->]; simpl; by destruct (Nat.ltb 100 (js_length m)).
Qed.

(** X13: when the export request fails, after any number of ticks,
    the handler stops the timer, shows one error toast and resets the
    indicator and the estimate; it schedules nothing and downloads
    nothing, the dialog stays open and its confirm button is offered
    again.  The toast is given the detail of the response, else the
    message of the error, else "Failed to export video"; a string of
    more than 100 UTF-16 code units is replaced by a fixed text, so a
    text shown is not empty and has at most 100 code units; a detail
    that is not a string is passed to the toast as it is. *)
Theorem export_failure_reported (w : world) (n : nat) (server : request -> reply)
    (err : js_error) :
  export_offered w ->
  server (export_request (exportFormat (st w))) = Rejected err ->
  let W := ticking w n in
  let w' := dispatch W (Settled (next_promise w) server) in
  events_since W w' =
    [ClearInterval (next_timer w); ConsoleError "Export error:" err;
     toast_value error (display_message err);
     SetExportProgress 0; SetEstimatedTime 0; SetExporting false]
  /\ (forall s, display_message err = Text s -> js_length s <= 100 /\ s <> "")
  /\ (display_message err = NotText <-> response_detail err = Some NotText)
  /\ (forall d, response_detail err = Some (Text d) -> d <> "" ->
        display_message err
        = Text (if Nat.ltb 100 (js_length d)
                then "Video export failed. Please check if all scenes have valid audio."
                else d))
  /\ (response_detail err = None \/ response_detail err = Some (Text "") ->
      let m := if String.eqb (message err) "" then "Failed to export video"
               else message err in
      display_message err
      = Text (if Nat.ltb 100 (js_length m)
              then "Video export failed. Please check if all scenes have valid audio."
              else m))
  /\ export_offered w'
  /\ exportProgress (st w') = 0%float
  /\ estimatedTime (st w') = 0%Z
  /\ timeouts w' = timeouts w
  /\ pending w' !! next_promise w = None.
Proof.
  intros O R W w'.
  destruct (export_resumes w O) as (k & Pk & Hk & _).
  pose proof (ticking_pending w n k O Pk) as PW. fold W in PW.
  destruct (ticking_frame w n O) as (L & D & _ & _ & To & Np). fold W in L, D, To, Np.
  destruct (resume_finishes W (next_promise w) server _ k
              [ClearInterval (next_timer w); ConsoleError "Export error:" err;
               toast_value error (display_message err);
               SetExportProgress 0; SetEstimatedTime 0; SetExporting false] PW)
    as (Ev & _ & Pe & St & Ti & _).
  { intros w0. unfold EditorPage.export_request in *. simpl. rewrite R. apply Hk. }
  fold w' in Ev, Pe, St, Ti.
  split; [done|].
  destruct (display_message_spec err) as (A & B & C & C').
  do 4 (split; [done|]).
  clear A B C C' Ev. destruct (display_message err) as [m|].
  all: split; [unfold export_offered; rewrite St; simpl; by rewrite L, D|].
  all: split; [by rewrite St|]; split; [by rewrite St|].
  all: split; [by rewrite Ti|]; rewrite Pe; apply lookup_delete_eq.
Qed.

Lemma timeout_step (w : world) (n : nat) (cb : callback) :
  timeouts w !! n = Some cb ->
  dispatch w (Timeout n) = task (invoke cb no_error) (consume (Timeout n) w).
Proof.
  intros T. unfold EditorPage.dispatch, EditorPage.handler_of. by rewrite T.
Qed.

Lemma close_dialog_task (w : world) :
  task (invoke CloseDialog no_error) w
  = replay [SetShowExportDialog false; SetExportProgress 0; SetEstimatedTime 0] w.
Proof. unfold task, commit. simpl. by rewrite decide_True. Qed.

(** The first two tasks of an export whose request succeeded: the
    timer is stopped and the indicator set to 100, and 500 ms later the
    download is requested from the address of the response. *)
Lemma export_reaches_download (w : world) (n : nat) (server : request -> reply)
    (v : value) :
  export_offered w ->
  server (export_request (exportFormat (st w))) = Resolved v ->
  let p := next_promise w in
  let W := ticking w n in
  let w1 := dispatch W (Settled p server) in
  let w2 := dispatch w1 (Settled (S p) server) in
  events_since W w1
  = [ClearInterval (next_timer w); SetExportProgress 100; Sent (Sleep 500)]
  /\ events_since w1 w2
     = [Toast success "Starting download..."; Sent (Fetch (download_from v))]
  /\ next_promise w2 = S (S (S p))
  /\ st w2 = st (replay [ClearInterval (next_timer w); SetExportProgress 100] W)
  /\ timeouts w2 = timeouts w
  /\ intervals w2 !! next_timer w = None
  /\ exists k2,
       pending w2 !! S (S p) = Some (Fetch (download_from v), k2)
       /\ (forall e w0, task (k2 (Rejected e)) w0 = replay (download_failed e) w0)
       /\ (forall f w0, ok_of f = false ->
             task (k2 (Resolved f)) w0
             = replay (download_failed
                         {| message := "Download failed";
                            response_detail := None |}) w0)
       /\ forall f, ok_of f = true -> exists k3,
            (forall w0,
               task (k2 (Resolved f)) w0
               = suspend (ReadBlob (download_from v)) k3
                   (replay [Sent (ReadBlob (download_from v))] w0))
            /\ (forall e w0,
                  task (k3 (Rejected e)) w0 = replay (download_failed e) w0)
            /\ forall b w0,
                 let link := download_link (project (st w)) (exportFormat (st w)) b in
                 task (k3 (Resolved b)) w0
                 = replay [ObjectURLCreated (content_of b) (href link);
                           AppendLink link; ClickLink link;
                           TimeoutSet (RemoveLink link (href link)) 100;
                           Toast success "Download started!";
                           TimeoutSet CloseDialog 1500;
                           SetExporting false] w0.
Proof.
  intros O R p W w1 w2.
  destruct (export_resumes w O) as (k & Pk & _ & Hv).
  destruct (Hv v) as (k1 & H1 & k2 & H2 & Rest). clear Hv.
  pose proof (ticking_pending w n k O Pk) as PW. fold W in PW.
  destruct (ticking_frame w n O) as (_ & _ & _ & _ & To & Np). fold W in To, Np.
  destruct (resume_suspends W p server _ (Sleep 500) k k1
              [ClearInterval (next_timer w); SetExportProgress 100; Sent (Sleep 500)]
              PW) as (Ev1 & P1 & Np1 & St1 & Ti1 & In1).
  { intros w0. unfold EditorPage.export_request in *. simpl. rewrite R. apply H1. }
  fold w1 in Ev1, P1, Np1, St1, Ti1, In1. rewrite Np in P1, Np1.
  destruct (resume_suspends w1 (S p) server _ (Fetch (download_from v)) k1 k2
              [Toast success "Starting download..."; Sent (Fetch (download_from v))]
              P1) as (Ev2 & P2 & Np2 & St2 & Ti2 & In2).
  { intros w0. simpl. apply H2. }
  fold w2 in Ev2, P2, Np2, St2, Ti2, In2. rewrite Np1 in P2, Np2.
  do 3 (split; [done|]).
  split; [rewrite St2; simpl; by rewrite St1|].
  split; [rewrite Ti2; simpl; by rewrite Ti1|].
  split; [rewrite In2; simpl; rewrite In1; simpl; apply lookup_delete_eq|].
  exists k2. by split.
Qed.

(** X14: an export whose request succeeds and whose file can be
    fetched, task by task: the timer is stopped and the indicator set to
    100; after 500 ms the file is requested from the address in the
    response; its blob is put behind a link named "exported_", the
    original file name (or "video"), a dot and the format, which is
    clicked once; the link is removed after 100 ms and the dialog closed
    after 1500 ms.  At the end the exporting flag is cleared and the
    indicator is still at 100; when the second timeout fires the dialog
    is closed and the indicator and the estimate are 0. *)
Theorem export_success_downloads (w : world) (n : nat) (server : request -> reply)
    (v f b : value) :
  export_offered w ->
  server (export_request (exportFormat (st w))) = Resolved v ->
  server (Fetch (download_from v)) = Resolved f -> ok_of f = true ->
  server (ReadBlob (download_from v)) = Resolved b ->
  let p := next_promise w in
  let W := ticking w n in
  let w1 := dispatch W (Settled p server) in
  let w2 := dispatch w1 (Settled (S p) server) in
  let w3 := dispatch w2 (Settled (S (S p)) server) in
  let w4 := dispatch w3 (Settled (S (S (S p))) server) in
  let w5 := dispatch w4 (Timeout (S (length (timeouts w)))) in
  let link := download_link (project (st w)) (exportFormat (st w)) b in
  events_since W w1
  = [ClearInterval (next_timer w); SetExportProgress 100; Sent (Sleep 500)]
  /\ events_since w1 w2
     = [Toast success "Starting download..."; Sent (Fetch (download_from v))]
  /\ events_since w2 w3 = [Sent (ReadBlob (download_from v))]
  /\ events_since w3 w4
     = [ObjectURLCreated (content_of b) (href link);
        AppendLink link; ClickLink link;
        TimeoutSet (RemoveLink link (href link)) 100;
        Toast success "Download started!";
        TimeoutSet CloseDialog 1500;
        SetExporting false]
  /\ exporting (st w4) = false
  /\ exportProgress (st w4) = 100%float
  /\ showExportDialog (st w4) = true
  /\ timeouts w4 = timeouts w ++ [RemoveLink link (href link); CloseDialog]
  /\ events_since w4 w5
     = [SetShowExportDialog false; SetExportProgress 0; SetEstimatedTime 0]
  /\ showExportDialog (st w5) = false
  /\ exportProgress (st w5) = 0%float.
Proof.
  intros O R Rf Ok Rb p W w1 w2 w3 w4 w5 link.
  destruct (export_reaches_download w n server v O R)
    as (Ev1 & Ev2 & Np2 & St2 & Ti2 & _ & k2 & P2 & _ & _ & Hok).
  fold p W w1 w2 in Ev1, Ev2, Np2, St2, Ti2, P2.
  destruct (Hok f Ok) as (k3 & H3 & _ & H4). clear Hok.
  destruct (ticking_frame w n O) as (_ & D & _). fold W in D.
  destruct (resume_suspends w2 (S (S p)) server _ (ReadBlob (download_from v)) k2 k3
              [Sent (ReadBlob (download_from v))] P2)
    as (Ev3 & P3 & Np3 & St3 & Ti3 & _).
  { intros w0. simpl. rewrite Rf. apply H3. }
  fold w3 in Ev3, P3, Np3, St3, Ti3. rewrite Np2 in P3.
  destruct (resume_finishes w3 (S (S (S p))) server _ k3
              [ObjectURLCreated (content_of b) (href link);
               AppendLink link; ClickLink link;
               TimeoutSet (RemoveLink link (href link)) 100;
               Toast success "Download started!";
               TimeoutSet CloseDialog 1500;
               SetExporting false] P3)
    as (Ev4 & _ & _ & St4 & Ti4 & _).
  { intros w0. simpl. rewrite Rb. apply H4. }
  fold w4 in Ev4, St4, Ti4.
  do 4 (split; [done|]).
  assert (timeouts w4 = timeouts w ++ [RemoveLink link (href link); CloseDialog])
    as T4.
  { rewrite Ti4. simpl. rewrite Ti3. simpl. rewrite Ti2. by rewrite <- app_assoc. }
  split; [by rewrite St4|].
  split; [rewrite St4; simpl; rewrite St3; simpl; by rewrite St2|].
  split; [rewrite St4; simpl; rewrite St3; simpl; by rewrite St2|].
  split; [done|].
  assert (w5 = replay [SetShowExportDialog false; SetExportProgress 0;
                       SetEstimatedTime 0]
                 (consume (Timeout (S (length (timeouts w)))) w4)) as E5.
  { subst w5. rewrite (timeout_step w4 _ CloseDialog); [apply close_dialog_task|].
    rewrite T4, lookup_app_r by lia.
    by replace (S (length (timeouts w)) - length (timeouts w)) with 1 by lia. }
  split; [rewrite E5; by apply resumed_replay|].
  by rewrite E5.
Qed.

(** X15: a download that fails does not fail the export.  When the
    file cannot be fetched (the request is rejected or its response is
    not ok) or its blob cannot be read, the handler logs the error and
    shows "Download failed. Please try again."; it clicks no link and
    does not run the error path of the export: the indicator stays at
    100, the dialog is closed after 1500 ms as on success, and the
    exporting flag is cleared. *)
Theorem failed_download_ends_export (w : world) (n : nat)
    (server : request -> reply) (v : value) (e : js_error) :
  export_offered w ->
  server (export_request (exportFormat (st w))) = Resolved v ->
  let p := next_promise w in
  let W := ticking w n in
  let w2 := session W [Settled p server; Settled (S p) server] in
  let w3 := dispatch w2 (Settled (S (S p)) server) in
  let w4 := dispatch w3 (Settled (S (S (S p))) server) in
  let ended (before after : world) :=
    events_since before after = download_failed e
    /\ exporting (st after) = false
    /\ exportProgress (st after) = 100%float
    /\ showExportDialog (st after) = true
    /\ timeouts after = timeouts w ++ [CloseDialog] in
  (server (Fetch (download_from v)) = Rejected e -> ended w2 w3)
  /\ (forall f, server (Fetch (download_from v)) = Resolved f -> ok_of f = false ->
        e = {| message := "Download failed"; response_detail := None |} ->
        ended w2 w3)
  /\ (forall f, server (Fetch (download_from v)) = Resolved f -> ok_of f = true ->
        server (ReadBlob (download_from v)) = Rejected e ->
        events_since w2 w3 = [Sent (ReadBlob (download_from v))] /\ ended w3 w4).
Proof.
  intros O R p W w2 w3 w4 ended.
  destruct (export_reaches_download w n server v O R)
    as (_ & _ & Np2 & St2 & Ti2 & _ & k2 & P2 & Hrej & Hno & Hok).
  change (EditorPage.dispatch BACKEND_URL projectId
            (EditorPage.dispatch BACKEND_URL projectId (ticking w n)
               (Settled (next_promise w) server))
            (Settled (S (next_promise w)) server)) with w2 in Np2, St2, Ti2, P2.
  fold p in Np2, P2.
  destruct (ticking_frame w n O) as (_ & D & _). fold W in D.
  assert (forall k r, pending w2 !! S (S p) = Some (r, k) ->
            (forall w0, task (k (settle server r)) w0 = replay (download_failed e) w0) ->
            ended w2 w3) as Fails.
  { intros k r P H.
    destruct (resume_finishes w2 (S (S p)) server r k (download_failed e) P H)
      as (Ev & _ & _ & St & Ti & _). fold w3 in Ev, St, Ti.
    split; [done|]. split; [by rewrite St|].
    split; [rewrite St; simpl; by rewrite St2|].
    split; [rewrite St; simpl; by rewrite St2|].
    rewrite Ti. simpl. by rewrite Ti2. }
  split; [|split].
  - intros Rf. apply (Fails k2 _ P2). intros w0. simpl. rewrite Rf. apply Hrej.
  - intros f Rf Ok ->. apply (Fails k2 _ P2). intros w0. simpl. rewrite Rf.
    by apply Hno.
  - intros f Rf Ok Rb. destruct (Hok f Ok) as (k3 & H3 & H4 & _).
    destruct (resume_suspends w2 (S (S p)) server _ (ReadBlob (download_from v)) k2 k3
                [Sent (ReadBlob (download_from v))] P2)
      as (Ev3 & P3 & Np3 & St3 & Ti3 & _).
    { intros w0. simpl. rewrite Rf. apply H3. }
    fold w3 in Ev3, P3, Np3, St3, Ti3. rewrite Np2 in P3.
    split; [done|].
    destruct (resume_finishes w3 (S (S (S p))) server _ k3 (download_failed e) P3)
      as (Ev & _ & _ & St & Ti & _).
    { intros w0. simpl. rewrite Rb. apply H4. }
    fold w4 in Ev, St, Ti.
    split; [done|]. split; [by rewrite St|].
    split; [rewrite St; simpl; rewrite St3; simpl; by rewrite St2|].
    split; [rewrite St; simpl; rewrite St3; simpl; by rewrite St2|].
    rewrite Ti. simpl. rewrite Ti3. simpl. by rewrite Ti2.
Qed.

(** X16: the timeout that closes the dialog does not look at the
    export that is running when it fires.  If one is left from an earlier
    export when the next export is confirmed, then when it fires the
    dialog is closed and the indicator and the estimate are reset to 0,
    while the new export is still in flight with its timer running and
    the exporting flag set. *)
Theorem stale_close_hides_running_export (w : world) (i : nat) :
  export_offered w -> timeouts w !! i = Some CloseDialog ->
  let w1 := dispatch w ConfirmExport in
  let w2 := dispatch w1 (Timeout i) in
  events_since w1 w2
  = [SetShowExportDialog false; SetExportProgress 0; SetEstimatedTime 0]
  /\ render_dialog (st w2) = None
  /\ exporting (st w2) = true
  /\ estimatedTime (st w2) = 0%Z
  /\ intervals w2 !! next_timer w = Some (ProgressTick (estimate (scenes (st w))))
  /\ is_Some (pending w2 !! next_promise w).
Proof.
  intros O T w1 w2.
  destruct (ticking_frame w 0 O) as (_ & _ & Ex & _ & To & _).
  change (ticking w 0) with w1 in Ex, To.
  destruct (export_begins BACKEND_URL projectId w O)
    as (_ & In & _ & _ & _ & k & Pk & _).
  fold w1 in In, Pk.
  assert (w2 = replay [SetShowExportDialog false; SetExportProgress 0;
                       SetEstimatedTime 0] (consume (Timeout i) w1)) as E.
  { subst w2. rewrite (timeout_step w1 i CloseDialog); [apply close_dialog_task|].
    by rewrite To. }
  split; [rewrite E; by apply resumed_replay|].
  rewrite E. simpl.
  split; [unfold render_dialog; simpl; by rewrite orb_true_r|].
  split; [done|]. split; [done|]. split; [done|]. by eexists.
Qed.

(** *** The callbacks of the audio elements *)

Ltac emits_steps :=
  repeat first
    [ apply emits_try_finally
    | apply emits_try_catch
    | apply emits_bind
    | apply emits_Call
    | apply emits_Await
    | apply emits_Ret
    | apply emits_Throw
    | intro
    | exact I
    | reflexivity
    | match goal with
      | |- emits _ (match ?x with _ => _ end) => destruct x
      | |- emits _ (let (_, _) := ?x in _) => destruct x
      | |- _ (event_of (Emit (toast_value _ ?d)) _) => destruct d; exact I
      end ].

Lemma invoke_wired (cb : callback) (err : js_error) : emits wired (invoke cb err).
Proof. destruct cb; unfold invoke, emit, perform; emits_steps. Qed.

(** Every handler the page starts wires the elements as [playAudio]
    does, if the suspended handlers do. *)
Lemma handler_of_wired (w : world) (a : action) (h : handler) :
  wired_inv w -> handler_of w a = Some h -> emits wired h.
Proof.
  intros [_ Pw] H. unfold EditorPage.handler_of in H.
  destruct a; simpl in H;
    try (repeat (case_match; simplify_option_eq);
         unfold handleEditScene, playAudio, handleSaveScene, handleExport,
           await, emit, perform;
         solve [emits_steps]).
  - destruct (audios w !! a) as [x|]; [|done]. simpl in H.
    destruct (onended x); [|done]. injection H as <-. apply invoke_wired.
  - destruct (audios w !! a) as [x|]; [|done]. simpl in H.
    destruct (onerror x); [|done]. injection H as <-. apply invoke_wired.
  - destruct (audios w !! a) as [x|]; [|done]. simpl in H.
    destruct (play_catch x); [|done]. injection H as <-. apply invoke_wired.
  - destruct (intervals w !! timer); [|done].
    injection H as <-. apply invoke_wired.
  - destruct (timeouts w !! n); [|done].
    injection H as <-. apply invoke_wired.
  - destruct (pending w !! promise) as [[r k]|] eqn:P; [|done].
    injection H as <-. by apply (Pw promise r k).
Qed.

Lemma callbacks_wired_alter (f : audio -> audio) (a : nat) (l : list audio) :
  (forall x,
     ((forall cb, onended x = Some cb -> cb = OnEnded)
      /\ (forall cb, onerror x = Some cb -> cb = OnError)
      /\ (forall cb, play_catch x = Some cb -> cb = OnPlayRejected)) ->
     (forall cb, onended (f x) = Some cb -> cb = OnEnded)
     /\ (forall cb, onerror (f x) = Some cb -> cb = OnError)
     /\ (forall cb, play_catch (f x) = Some cb -> cb = OnPlayRejected)) ->
  callbacks_wired l -> callbacks_wired (alter f a l).
Proof.
  intros Hf C b x Hx. apply playing_alter in Hx as (y & Hy & [->|[_ ->]]).
  - by apply (C b).
  - apply Hf. by apply (C b).
Qed.

Lemma wired_record (e : event) (w : world) :
  wired e -> callbacks_wired (audios w) -> callbacks_wired (audios (record e w)).
Proof.
  intros We C. destruct e; simpl in *; try done.
  - intros b x Hx. apply lookup_app_Some in Hx as [Hx|[_ Hx]]; [by apply (C b)|].
    apply list_lookup_singleton_Some in Hx as [_ <-]. by repeat split.
  - subst. apply callbacks_wired_alter; [|done].
    intros x (A & B & D). repeat split; try done. simpl. by intros cb' [= <-].
  - subst. apply callbacks_wired_alter; [|done].
    intros x (A & B & D). repeat split; try done. simpl. by intros cb' [= <-].
  - apply callbacks_wired_alter; [|done]. by intros x (A & B & D).
  - apply callbacks_wired_alter; [|done]. by intros x (A & B & D).
  - subst. apply callbacks_wired_alter; [|done].
    intros x (A & B & D). repeat split; try done. simpl. by intros cb' [= <-].
Qed.

Lemma wired_replay (l : list event) (w : world) :
  Forall wired l -> callbacks_wired (audios w) ->
  callbacks_wired (audios (replay l w)).
Proof.
  intros F. revert w. induction F as [|e l We F IH]; intros w C; [done|].
  simpl. apply IH. by apply wired_record.
Qed.

Lemma wired_dispatch (w : world) (a : action) :
  wired_inv w -> wired_inv (dispatch w a).
Proof.
  intros I. unfold EditorPage.dispatch.
  destruct (handler_of w a) as [h|] eqn:H; [|done].
  pose proof (handler_of_wired w a h I H) as E.
  destruct I as [C Pw].
  destruct (task_emits wired h (consume a w)) as (l & s & F & -> & Hs); try done.
  destruct (consume_frame a w) as (_ & _ & _ & _ & Ea & _).
  destruct (replay_pending l (consume a w)) as [Ep _].
  assert (callbacks_wired (audios (replay l (consume a w)))) as C'.
  { apply wired_replay; [done|]. by rewrite Ea. }
  destruct s as [o|r k]; simpl; (split; [done|]).
  - intros p r k Hp. rewrite Ep in Hp. apply consume_pending in Hp.
    by apply (Pw p r k).
  - intros p r' k' Hp. simpl in Hp.
    apply lookup_insert_Some in Hp as [[_ [= <- <-]]|[_ Hp]]; [done|].
    rewrite Ep in Hp. apply consume_pending in Hp. by apply (Pw p r' k').
Qed.

Lemma wired_mounted : wired_inv mounted.
Proof.
  unfold EditorPage.mounted.
  match goal with |- wired_inv (task ?h ?w0) =>
    destruct (task_emits wired h w0) as (l & s & F & -> & Hs)
  end; try done.
  { unfold loadProject, await, emit, perform. emits_steps. }
  assert (callbacks_wired (audios (replay l
            {| st := initial; audios := []; intervals := ∅; next_timer := 0;
               timeouts := []; pending := ∅; next_promise := 0; log := [] |}))) as C.
  { apply wired_replay; [done|]. intros a x Hx. simpl in Hx.
    by rewrite lookup_nil in Hx. }
  match goal with |- wired_inv (finish s (replay l ?w0)) =>
    destruct (replay_pending l w0) as [Ep _]
  end.
  destruct s as [o|r k]; simpl; (split; [done|]).
  - intros p r k Hp. rewrite Ep in Hp. simpl in Hp. by rewrite lookup_empty in Hp.
  - intros p r' k' Hp. simpl in Hp.
    apply lookup_insert_Some in Hp as [[_ [= <- <-]]|[_ Hp]]; [done|].
    rewrite Ep in Hp. simpl in Hp. by rewrite lookup_empty in Hp.
Qed.

Lemma wired_session (acts : list action) (w : world) :
  wired_inv w -> wired_inv (session w acts).
Proof.
  revert w. induction acts as [|a acts IH]; intros w I; [done|].
  simpl. by apply IH, wired_dispatch.
Qed.

(** The handler of a callback of an audio element of a reachable page. *)
Lemma audio_callback_handler (w : world) (a : action) (h : handler) :
  wired_inv w -> audio_callback a = true -> handler_of w a = Some h ->
  exists pre,
    h = (fold_right (fun e k => emit e ;; k) (emit (SetCurrentAudio None)) pre)%prog
    /\ Forall quiet pre
    /\ match a with
       | AudioEnded _ => pre = []
       | _ => In (Toast error "Failed to play audio") pre
       end.
Proof.
  intros [C _] A H. unfold EditorPage.handler_of in H.
  destruct a; try discriminate; simpl in H.
  - destruct (audios w !! a) as [x|] eqn:X; [|done]. simpl in H.
    destruct (onended x) as [cb|] eqn:Cb; [|done]. injection H as <-.
    destruct (C a x X) as (E1 & _). rewrite (E1 cb Cb). by exists [].
  - destruct (audios w !! a) as [x|] eqn:X; [|done]. simpl in H.
    destruct (onerror x) as [cb|] eqn:Cb; [|done]. injection H as <-.
    destruct (C a x X) as (_ & E2 & _). rewrite (E2 cb Cb).
    exists [Toast error "Failed to play audio"]. split; [done|].
    split; [by repeat constructor|by left].
  - destruct (audios w !! a) as [x|] eqn:X; [|done]. simpl in H.
    destruct (play_catch x) as [cb|] eqn:Cb; [|done]. injection H as <-.
    destruct (C a x X) as (_ & _ & E3). rewrite (E3 cb Cb).
    exists [ConsoleError "Audio play error:" err; Toast error "Failed to play audio"].
    split; [done|]. split; [by repeat constructor|right; by left].
Qed.

Lemma run_emits (pre : list event) (e0 : event) (w : world) :
  run_task (fold_right (fun e k => emit e ;; k) (emit e0) pre)%prog w
  = (Finished (Done tt), replay (pre ++ [e0]) w).
Proof.
  revert w. induction pre as [|e pre IH]; intros w; [done|].
  simpl. apply IH.
Qed.

(** X17: when a clip ends, fails to load or cannot be played, on any
    reachable page and whichever element the callback belongs to, the
    page tracks no clip afterwards and no clip is playing (the clip that
    was tracked is paused by the render that follows); the two error
    callbacks show "Failed to play audio".  An element without the
    callback changes nothing. *)
Theorem clip_end_or_error_untracks (acts : list action) (a : action) :
  audio_callback a = true ->
  let w := session mounted acts in
  let w' := dispatch w a in
  (handler_of w a = None /\ w' = w)
  \/ (currentAudio (st w') = None
      /\ (forall c, ~ playing w' c)
      /\ (forall t, currentAudio (st w) = Some t -> In (Pause t) (events_since w w'))
      /\ match a with
         | AudioEnded _ =>
             Forall (fun e => match e with Toast _ _ => False | _ => True end)
                    (events_since w w')
         | _ => In (Toast error "Failed to play audio") (events_since w w')
         end).
Proof.
  intros A w w'.
  destruct (handler_of w a) as [h|] eqn:H;
    [right|left; split; [done|]; subst w'; unfold EditorPage.dispatch; by rewrite H].
  assert (wired_inv w) as Wi by apply wired_session, wired_mounted.
  assert (audio_inv w) as Ai
    by apply (session_inv BACKEND_URL projectId), mounted_inv.
  destruct (audio_callback_handler w a h Wi A H) as (pre & -> & Qp & Hpre).
  assert (consume a w = w) as Ec by (by destruct a).
  assert (w' = replay ((pre ++ [SetCurrentAudio None])
                       ++ cleanup_events (pre ++ [SetCurrentAudio None]) w) w) as E.
  { subst w'. unfold EditorPage.dispatch. rewrite H, Ec.
    by rewrite (task_shape _ _ _ _ (run_emits pre (SetCurrentAudio None) w)). }
  assert (currentAudio (st w') = None) as N.
  { by rewrite E, cleanup_events_st, replay_app. }
  assert (events_since w w'
          = (pre ++ [SetCurrentAudio None])
            ++ cleanup_events (pre ++ [SetCurrentAudio None]) w) as Ev.
  { apply since_app. by rewrite E, log_replay. }
  split; [done|]. split.
  { destruct (dispatch_safe BACKEND_URL projectId w a Ai) as (_ & _ & _ & T & _).
    fold w' in T. intros c Pc. apply T in Pc. congruence. }
  split.
  { intros t Ht. rewrite Ev. apply in_or_app. right. unfold cleanup_events.
    rewrite decide_False; [rewrite Ht; by left|].
    rewrite replay_app. simpl. congruence. }
  rewrite Ev. destruct a; try discriminate.
  - subst pre. unfold cleanup_events. simpl.
    case_decide; [by repeat constructor|].
    destruct (currentAudio (st w)); by repeat constructor.
  - apply in_or_app. left. apply in_or_app. by left.
  - apply in_or_app. left. apply in_or_app. by left.
Qed.

Lemma play_handler (w : world) (index : nat) (sc : scene) :
  displayed w index sc ->
  handler_of w (ClickPlay index)
  = Some (playAudio BACKEND_URL projectId (currentAudio (st w)) (audio_path sc)).
Proof.
  intros (L & S & E). unfold EditorPage.handler_of. rewrite L, S. simpl.
  by rewrite bool_decide_eq_false_2.
Qed.

(** X18: pressing Play on a card of a reachable page, whether a clip
    is tracked or not, creates one new audio element for the audio file
    of the card, tracks it and starts it from the beginning; afterwards
    that element is the only one playing.  No request is sent by the
    handler. *)
Theorem play_starts_one_new_clip (acts : list action) (index : nat) (sc : scene) :
  let w := session mounted acts in
  let w' := dispatch w (ClickPlay index) in
  let b := length (audios w) in
  displayed w index sc ->
  length (audios w') = S b
  /\ currentAudio (st w') = Some b
  /\ (exists x, audios w' !! b = Some x
                /\ src x = audio_url (audio_path sc)
                /\ paused x = false /\ currentTime x = 0%Q)
  /\ (forall c, playing w' c <-> c = b)
  /\ Forall (fun e => ~ is_sent e) (events_since w w').
Proof.
  intros w w' b D.
  assert (audio_inv w) as Ai
    by apply (session_inv BACKEND_URL projectId), mounted_inv.
  destruct (dispatch_safe BACKEND_URL projectId w (ClickPlay index) Ai)
    as (_ & _ & _ & T & _).
  fold w' in T.
  set (l := play_events (currentAudio (st w)) b (audio_url (audio_path sc))).
  assert (w' = replay (l ++ cleanup_events l w) w) as E.
  { subst w'. unfold EditorPage.dispatch. rewrite (play_handler w index sc D).
    change (consume (ClickPlay index) w) with w.
    by rewrite (task_shape _ _ _ _ (playAudio_run BACKEND_URL projectId w (audio_path sc))). }
  assert (events_since w w' = l ++ cleanup_events l w) as Ev.
  { apply since_app. by rewrite E, log_replay. }
  assert (currentAudio (st w') = Some b) as Cb.
  { rewrite E, cleanup_events_st. subst l. unfold play_events.
    by destruct (currentAudio (st w)). }
  assert (length (audios w') = S b
          /\ exists x, audios w' !! b = Some x
                       /\ src x = audio_url (audio_path sc)
                       /\ paused x = false /\ currentTime x = 0%Q) as [Le Hx].
  { rewrite E. subst l. unfold cleanup_events, play_events.
    destruct Ai as (_ & V & _).
    destruct (currentAudio (st w)) as [t|] eqn:C; simpl.
    - specialize (V t C). fold b in V.
      rewrite decide_False by (rewrite ?length_alter; intros [= Eq]; lia).
      simpl. split.
      + repeat (rewrite length_alter || rewrite length_app). simpl. lia.
      + eexists. rewrite (list_lookup_alter_ne _ _ t b) by lia.
        rewrite !list_lookup_alter_eq.
        rewrite lookup_app_r by (rewrite !length_alter; lia).
        rewrite !length_alter. fold b. rewrite Nat.sub_diag. simpl. done.
    - split.
      + repeat (rewrite length_alter || rewrite length_app). simpl. lia.
      + eexists. rewrite !list_lookup_alter_eq.
        rewrite lookup_app_r by lia. fold b. rewrite Nat.sub_diag. simpl. done. }
  split; [done|]. split; [done|]. split; [done|]. split.
  { intros c. split.
    - intros Pc. apply T in Pc. congruence.
    - intros ->. destruct Hx as (x & Lx & _ & Px & _). by exists x. }
  rewrite Ev. subst l. unfold cleanup_events, play_events.
  destruct (currentAudio (st w)) as [t|]; simpl;
    try case_decide; repeat constructor; simpl; tauto.
Qed.

(** *** Leaving the page *)

(** X19: when the page is left, on any reachable page, the clip that
    is tracked is paused, so that no clip is playing afterwards; its
    position is not reset, since the cleanup of the mount, which would
    reset it, closes over the first render, where no clip is tracked. *)
Theorem unmount_pauses_tracked_clip (acts : list action) :
  let w := session mounted acts in
  let w' := unmount w in
  events_since w w'
  = match currentAudio (st w) with Some a => [Pause a] | None => [] end
  /\ (forall c, ~ playing w' c)
  /\ forall a x, currentAudio (st w) = Some a -> audios w !! a = Some x ->
       exists x', audios w' !! a = Some x'
                  /\ paused x' = true /\ currentTime x' = currentTime x.
Proof.
  intros w w'.
  assert (audio_inv w) as (T & _)
    by apply (session_inv BACKEND_URL projectId), mounted_inv.
  unfold tracked in T. subst w'. unfold unmount, mount_cleanup, audio_cleanup.
  simpl. destruct (currentAudio (st w)) as [a|]; simpl.
  - split; [apply since_app; by rewrite log_record|]. split.
    + intros c Pc. by apply (only_pause a w T) in Pc.
    + intros a' x [= <-] Hx. exists (pause x). split; [|done].
      by rewrite list_lookup_alter_eq, Hx.
  - split; [unfold events_since; by rewrite drop_all|]. split.
    + intros c Pc. by apply T in Pc.
    + intros a x C. discriminate.
Qed.

(** *** File names *)

Lemma split_nonempty (sep : ascii) (s : string) : split sep s <> [].
Proof.
  destruct s as [|c s]; simpl; [done|].
  destruct (Ascii.eqb c sep); [done|]. by destruct (split sep s).
Qed.

Lemma split_app (sep : ascii) (d r : string) :
  split sep (d ++ String sep r)%string = split sep d ++ split sep r.
Proof.
  induction d as [|c d IH]; simpl.
  - by rewrite Ascii.eqb_refl.
  - destruct (Ascii.eqb c sep); [by rewrite IH|].
    rewrite IH. pose proof (split_nonempty sep d).
    by destruct (split sep d).
Qed.

Lemma split_plain (sep : ascii) (s : string) :
  ~ In sep (list_ascii_of_string s) -> split sep s = [s].
Proof.
  induction s as [|c s IH]; simpl; [done|]. intros N.
  destruct (Ascii.eqb_spec c sep) as [->|_]; [tauto|].
  rewrite IH; [done|tauto].
Qed.

Lemma pop_file_name (dir name : string) :
  ~ In "/"%char (list_ascii_of_string name) ->
  pop (split "/" (dir ++ "/" ++ name)%string) = name /\ pop (split "/" name) = name.
Proof.
  intros N. unfold pop. change ("/" ++ name)%string with (String "/" name).
  rewrite split_app, (split_plain _ _ N). split; [|done].
  by rewrite last_last.
Qed.

(** X20: the audio clip and the thumbnail of a scene are requested by
    file name: of a path the server stored, only what follows the last
    "/" is put in the address, after the project id; a path with no "/"
    is used whole. *)
Theorem media_addressed_by_file_name (s : state) (index : nat) (sc : scene)
    (dir name dir' name' : string) :
  ~ In "/"%char (list_ascii_of_string name) ->
  ~ In "/"%char (list_ascii_of_string name') ->
  loading s = false -> scenes s !! index = Some sc ->
  audio_path sc = (dir ++ "/" ++ name)%string ->
  thumbnail_path sc = (dir' ++ "/" ++ name')%string ->
  audio_url (audio_path sc)
  = (EditorPage.API BACKEND_URL ++ "/audio/" ++ projectId ++ "/" ++ name)%string
  /\ audio_url name = audio_url (audio_path sc)
  /\ exists c, cards_of (render s) !! index = Some c
       /\ number c = S index /\ shown c = sc
       /\ thumbnailUrl c
          = (EditorPage.API BACKEND_URL ++ "/thumbnail/" ++ projectId ++ "/"
               ++ name')%string.
Proof.
  intros N N' L S Ea Et.
  destruct (pop_file_name dir name N) as [P1 P2].
  destruct (pop_file_name dir' name' N') as [P1' _].
  unfold EditorPage.audio_url. rewrite Ea, P1, P2. do 2 (split; [done|]).
  unfold EditorPage.render. rewrite L. simpl. rewrite list_lookup_imap, S. simpl.
  eexists. split; [reflexivity|]. simpl. rewrite Et, P1'.
  split; [lia|]. done.
Qed.

(** *** The format of an export *)





(** *** Before and after the load *)

(** X23: until the load settles the page shows the spinner and offers
    no control: whatever the user does, nothing happens. *)
Theorem nothing_offered_while_loading (acts : list action) :
  forallb control acts = true ->
  session mounted acts = mounted
  /\ EditorPage.render BACKEND_URL projectId (st (session mounted acts)) = Spinner.
Proof.
  intros C.
  assert (forall a, control a = true -> dispatch mounted a = mounted) as Step.
  { intros a Ca. unfold EditorPage.dispatch, EditorPage.handler_of.
    by destruct a. }
  assert (session mounted acts = mounted) as ->.
  { induction acts as [|a acts IH]; [done|].
    simpl in C. apply andb_prop in C as [Ca C].
    change (session mounted (a :: acts)) with (session (dispatch mounted a) acts).
    rewrite (Step a Ca). by apply IH. }
  done.
Qed.

(** The handler the mount leaves suspended, resumed by a failure. *)
Lemma load_resumes :
  exists k,
    pending mounted !! 0
    = Some (PromiseAll (EditorPage.get_project BACKEND_URL projectId)
                       (EditorPage.get_scenes BACKEND_URL projectId), k)
    /\ forall err w0,
         task (k (Rejected err)) w0
         = replay [ConsoleError "Load error:" err; Toast error "Failed to load project";
                   SetLoading false] w0.
Proof.
  unfold EditorPage.mounted. unfold task at 1, commit. simpl.
  eexists. split; [apply lookup_insert_eq|].
  intros err w0. unfold task, commit. simpl. by rewrite decide_True.
Qed.

(** X24: the export is not guarded by the load.  After a load that
    failed the page shows no scenes, and the export dialog can be opened
    and confirmed: the request for the default format is sent, with the
    least estimate (5 seconds), and the file would be saved as
    "exported_video.mp4". *)
Theorem export_after_failed_load (server : request -> reply) (err : js_error) :
  settle server (PromiseAll (EditorPage.get_project BACKEND_URL projectId)
                            (EditorPage.get_scenes BACKEND_URL projectId))
  = Rejected err ->
  let w := session mounted [Settled 0 server; OpenExport] in
  let w' := dispatch w ConfirmExport in
  EditorPage.render BACKEND_URL projectId (st w) = Page None [] true
  /\ export_offered w
  /\ events_since w w'
     = [SetExporting true; SetExportProgress 0; SetEstimatedTime 5;
        IntervalSet (next_timer w) (ProgressTick 5) 500;
        Toast info "Exporting video as MP4...";
        Sent (export_request "mp4")]
  /\ forall b, download (download_link (project (st w)) (exportFormat (st w)) b)
               = "exported_video.mp4".
Proof.
  intros R w w'.
  destruct load_resumes as (k & Pk & Hk).
  destruct (resume_finishes mounted 0 server _ k
              [ConsoleError "Load error:" err; Toast error "Failed to load project";
               SetLoading false] Pk) as (_ & _ & _ & St1 & _).
  { intros w0. rewrite R. apply Hk. }
  set (w1 := dispatch mounted (Settled 0 server)) in *.
  assert (st w1 = apply_setter (SetLoading false) initial) as E1 by done.
  assert (w = record (SetShowExportDialog true) w1) as E.
  { subst w. change (session mounted [Settled 0 server; OpenExport])
      with (dispatch w1 OpenExport).
    unfold EditorPage.dispatch at 1, EditorPage.handler_of. rewrite E1. simpl.
    by apply emit_task. }
  assert (project (st w) = None /\ scenes (st w) = [] /\ loading (st w) = false
          /\ showExportDialog (st w) = true /\ exporting (st w) = false
          /\ exportFormat (st w) = "mp4") as (Pr & Sc & Lo & Sh & Ex & Fo).
  { rewrite E. simpl. by rewrite E1. }
  assert (export_offered w) as O by done.
  split; [unfold EditorPage.render; by rewrite Lo, Pr, Sc, Sh|].
  split; [done|].
  destruct (export_begins BACKEND_URL projectId w O) as (Ev & _).
  fold w' in Ev. rewrite Ev, Sc, Fo. split; [done|].
  intros b. unfold download_link. by rewrite Pr.
Qed.

(** *** The life of an export *)




















(** *** The arithmetic of the indicator *)










(** *** The indicator during an export *)



(** *** The estimated time in the export dialog *)






End EditorPageFurther.

(** Concrete instances of the properties above. *)


Lemma nothing_sent_without_video_witness :
  let gs := [HomePage.Move {| HomePage.event_type := "dragenter" |};
             HomePage.Act (HomePage.Drop {| HomePage.dataTransfer_files := [notes_pdf] |});
             HomePage.Act HomePage.ClickUpload] in
  HomePage.last_video None (HomePage.acts_of gs) = None
  /\ HomePage.requests
       (HomePage.events_since HomePage.mounted
          (HomePage.gestures "http://localhost:8001" server_ok HomePage.mounted gs))
     = [].
Proof.
  split; [reflexivity|].
  exact (proj1 (nothing_sent_without_video "http://localhost:8001" server_ok
                  [HomePage.Move {| HomePage.event_type := "dragenter" |};
                   HomePage.Act (HomePage.Drop
                                   {| HomePage.dataTransfer_files := [notes_pdf] |});
                   HomePage.Act HomePage.ClickUpload] eq_refl)).
Defined.

Lemma uploading_flag_brackets_upload_witness :
  HomePage.selectedFile (HomePage.st clip_selected) = Some clip_mp4
  /\ HomePage.upload_button
       (HomePage.render
          (HomePage.st (HomePage.dispatch "http://localhost:8001" server_no_analysis
                          clip_selected HomePage.ClickUpload)))
     = Some {| HomePage.disabled := false; HomePage.label := "Upload and Analyze" |}.
Proof.
  split; [reflexivity|].
  exact (proj2 (proj1 (uploading_flag_brackets_upload "http://localhost:8001"
                         server_no_analysis clip_selected clip_mp4 eq_refl)
                  eq_refl)).
Defined.

Lemma upload_without_id_witness :
  HomePage.navigations
    (HomePage.events_since clip_selected
       (HomePage.dispatch "http://localhost:8001" server_no_id clip_selected
          HomePage.ClickUpload))
  = ["/editor/undefined"].
Proof.
  exact (proj2 (proj2 (upload_without_id "http://localhost:8001" server_no_id
                         clip_selected clip_mp4 eq_refl eq_refl eq_refl))).
Defined.

Lemma failed_save_keeps_draft_witness :
  let w := door_edited in
  let clicked := EditorPage.dispatch "http://localhost:8001" "p1" w
                   (EditorPage.ClickSave 0) in
  let w2 := EditorPage.dispatch "http://localhost:8001" "p1"
              (EditorPage.session "http://localhost:8001" "p1" clicked [])
              (EditorPage.Settled (EditorPage.next_promise w) editor_offline) in
  EditorPage.save_offered w 0 door_scene
  /\ EditorPage.saving (EditorPage.st w2) = false
  /\ EditorPage.scenes (EditorPage.st w2) = EditorPage.scenes (EditorPage.st w).
Proof.
  assert (EditorPage.save_offered door_edited 0 door_scene) as O by by repeat split.
  destruct (failed_save_keeps_draft "http://localhost:8001" "p1"
              [EditorPage.Settled 0 (editor_server [door_scene; street_scene]);
               EditorPage.ClickEdit 0; EditorPage.TypeText 0 "A red door opens."]
              [] 0 door_scene editor_offline offline O eq_refl eq_refl)
    as (_ & S & _ & _ & V & _).
  split; [exact O|]. split; [exact V|exact S].
Defined.

Lemma successful_save_leaves_edit_mode_witness :
  let w := door_edited in
  let acts := [EditorPage.ClickCancel 0; EditorPage.ClickEdit 1] in
  let clicked := EditorPage.dispatch "http://localhost:8001" "p1" w
                   (EditorPage.ClickSave 0) in
  let w1 := EditorPage.session "http://localhost:8001" "p1" clicked acts in
  let w2 := EditorPage.dispatch "http://localhost:8001" "p1" w1
              (EditorPage.Settled (EditorPage.next_promise w)
                 (editor_server [door_scene; street_scene])) in
  EditorPage.save_offered w 0 door_scene
  /\ existsb (EditorPage.settles (EditorPage.next_promise w)) acts = false
  /\ EditorPage.editingScene (EditorPage.st w2) = None
  /\ EditorPage.saving (EditorPage.st w2) = false.
Proof.
  assert (EditorPage.save_offered door_edited 0 door_scene) as O by by repeat split.
  destruct (successful_save_leaves_edit_mode "http://localhost:8001" "p1"
              [EditorPage.Settled 0 (editor_server [door_scene; street_scene]);
               EditorPage.ClickEdit 0; EditorPage.TypeText 0 "A red door opens."]
              [EditorPage.ClickCancel 0; EditorPage.ClickEdit 1]
              0 door_scene (editor_server [door_scene; street_scene])
              EditorPage.Undefined O eq_refl eq_refl)
    as (_ & E & S & _).
  split; [exact O|]. split; [reflexivity|]. split; [exact E|exact S].
Defined.

Lemma cancel_discards_draft_witness :
  let w1 := EditorPage.dispatch "http://localhost:8001" "p1" door_edited
              (EditorPage.TypeText 0 "A blue door.") in
  let w2 := EditorPage.dispatch "http://localhost:8001" "p1" w1
              (EditorPage.ClickCancel 0) in
  let w3 := EditorPage.dispatch "http://localhost:8001" "p1" w2
              (EditorPage.ClickEdit 0) in
  EditorPage.editingScene (EditorPage.st door_edited)
  = Some (EditorPage.id door_scene)
  /\ EditorPage.editText (EditorPage.st w1) = "A blue door."
  /\ EditorPage.editText (EditorPage.st w3) = EditorPage.description door_scene.
Proof.
  split; [reflexivity|].
  destruct (cancel_discards_draft "http://localhost:8001" "p1" door_edited 0
              door_scene "A blue door." eq_refl eq_refl eq_refl)
    as (T1 & _ & _ & _ & T & _).
  split; [exact T1|exact T].
Defined.

Lemma editing_another_scene_drops_draft_witness :
  let w' := EditorPage.dispatch "http://localhost:8001" "p1" door_edited
              (EditorPage.ClickEdit 1) in
  EditorPage.editingScene (EditorPage.st door_edited)
  = Some (EditorPage.id door_scene)
  /\ EditorPage.editText (EditorPage.st w') = EditorPage.description street_scene.
Proof.
  split; [reflexivity|].
  assert (EditorPage.id street_scene <> EditorPage.id door_scene) as Ne
    by discriminate.
  exact (proj1 (editing_another_scene_drops_draft "http://localhost:8001" "p1"
                  door_edited 0 1 door_scene street_scene
                  eq_refl eq_refl eq_refl eq_refl Ne)).
Defined.

Lemma export_failure_reported_witness :
  let refuse := fun _ : EditorPage.request => EditorPage.Rejected export_refused in
  let W := EditorPage.ticking "http://localhost:8001" "p1" dialog_open 3 in
  let w' := EditorPage.dispatch "http://localhost:8001" "p1" W
              (EditorPage.Settled (EditorPage.next_promise dialog_open) refuse) in
  EditorPage.export_offered dialog_open
  /\ In (EditorPage.Toast error "Export failed") (EditorPage.events_since W w')
  /\ EditorPage.export_offered w'
  /\ EditorPage.exportProgress (EditorPage.st w') = 0%float.
Proof.
  assert (EditorPage.export_offered dialog_open) as O by by repeat split.
  destruct (export_failure_reported "http://localhost:8001" "p1" dialog_open 3
              (fun _ => EditorPage.Rejected export_refused) export_refused O eq_refl)
    as (E & _ & _ & _ & _ & O' & P & _).
  split; [exact O|]. split; [|split; [exact O'|exact P]].
  cbv zeta. rewrite E. simpl. tauto.
Defined.

Lemma export_success_downloads_witness :
  let server := editor_server [door_scene] in
  let w := dialog_open in
  let p := EditorPage.next_promise w in
  let W := EditorPage.ticking "http://localhost:8001" "p1" w 2 in
  let w1 := EditorPage.dispatch "http://localhost:8001" "p1" W
              (EditorPage.Settled p server) in
  let w2 := EditorPage.dispatch "http://localhost:8001" "p1" w1
              (EditorPage.Settled (S p) server) in
  let w3 := EditorPage.dispatch "http://localhost:8001" "p1" w2
              (EditorPage.Settled (S (S p)) server) in
  let w4 := EditorPage.dispatch "http://localhost:8001" "p1" w3
              (EditorPage.Settled (S (S (S p))) server) in
  EditorPage.export_offered w
  /\ EditorPage.exporting (EditorPage.st w4) = false
  /\ EditorPage.exportProgress (EditorPage.st w4) = 100%float.
Proof.
  assert (EditorPage.export_offered dialog_open) as O by by repeat split.
  destruct (export_success_downloads "http://localhost:8001" "p1" dialog_open 2
              (editor_server [door_scene])
              (EditorPage.ExportData (Some "/api/download/p1"))
              (EditorPage.FetchResponse true) (EditorPage.BlobData "video")
              O eq_refl eq_refl eq_refl eq_refl)
    as (_ & _ & _ & _ & X & P & _).
  split; [exact O|]. split; [exact X|exact P].
Defined.

Lemma failed_download_ends_export_witness :
  let w := dialog_open in
  let p := EditorPage.next_promise w in
  let W := EditorPage.ticking "http://localhost:8001" "p1" w 2 in
  let w2 := EditorPage.session "http://localhost:8001" "p1" W
              [EditorPage.Settled p no_download; EditorPage.Settled (S p) no_download] in
  let w3 := EditorPage.dispatch "http://localhost:8001" "p1" w2
              (EditorPage.Settled (S (S p)) no_download) in
  EditorPage.export_offered w
  /\ EditorPage.events_since w2 w3 = EditorPage.download_failed offline
  /\ EditorPage.exportProgress (EditorPage.st w3) = 100%float.
Proof.
  assert (EditorPage.export_offered dialog_open) as O by by repeat split.
  destruct (failed_download_ends_export "http://localhost:8001" "p1" dialog_open 2
              no_download (EditorPage.ExportData (Some "/api/download/p1"))
              offline O eq_refl) as (F & _).
  destruct (F eq_refl) as (E & _ & P & _).
  split; [exact O|]. split; [exact E|exact P].
Defined.

Lemma stale_close_hides_running_export_witness :
  let w1 := EditorPage.dispatch "http://localhost:8001" "p1" export_done
              EditorPage.ConfirmExport in
  let w2 := EditorPage.dispatch "http://localhost:8001" "p1" w1
              (EditorPage.Timeout 1) in
  EditorPage.export_offered export_done
  /\ EditorPage.timeouts export_done !! 1%nat = Some EditorPage.CloseDialog
  /\ EditorPage.render_dialog (EditorPage.st w2) = None
  /\ EditorPage.exporting (EditorPage.st w2) = true.
Proof.
  assert (EditorPage.export_offered export_done) as O by by repeat split.
  assert (EditorPage.timeouts export_done !! 1%nat = Some EditorPage.CloseDialog)
    as T by reflexivity.
  destruct (stale_close_hides_running_export "http://localhost:8001" "p1"
              export_done 1 O T) as (_ & R & X & _).
  split; [exact O|]. split; [exact T|]. split; [exact R|exact X].
Defined.

Lemma clip_end_or_error_untracks_witness :
  let w := EditorPage.session "http://localhost:8001" "p1"
             (EditorPage.mounted "http://localhost:8001" "p1")
             [EditorPage.Settled 0 (editor_server [door_scene; street_scene]);
              EditorPage.ClickPlay 0] in
  let w' := EditorPage.dispatch "http://localhost:8001" "p1" w
              (EditorPage.AudioError 0) in
  EditorPage.audio_callback (EditorPage.AudioError 0) = true
  /\ EditorPage.currentAudio (EditorPage.st w) = Some 0
  /\ EditorPage.currentAudio (EditorPage.st w') = None.
Proof.
  split; [reflexivity|]. split; [reflexivity|].
  destruct (clip_end_or_error_untracks "http://localhost:8001" "p1"
              [EditorPage.Settled 0 (editor_server [door_scene; street_scene]);
               EditorPage.ClickPlay 0]
              (EditorPage.AudioError 0) eq_refl) as [[H _]|[N _]].
  - discriminate H.
  - exact N.
Defined.

Lemma play_starts_one_new_clip_witness :
  let w := EditorPage.session "http://localhost:8001" "p1"
             (EditorPage.mounted "http://localhost:8001" "p1")
             [EditorPage.Settled 0 (editor_server [door_scene; street_scene]);
              EditorPage.ClickPlay 0] in
  let w' := EditorPage.dispatch "http://localhost:8001" "p1" w
              (EditorPage.ClickPlay 1) in
  EditorPage.displayed w 1 street_scene
  /\ length (EditorPage.audios w') = S (length (EditorPage.audios w))
  /\ EditorPage.currentAudio (EditorPage.st w') = Some (length (EditorPage.audios w)).
Proof.
  assert (EditorPage.displayed door_playing 1 street_scene) as D.
  { split; [reflexivity|]. split; [reflexivity|]. discriminate. }
  destruct (play_starts_one_new_clip "http://localhost:8001" "p1"
              [EditorPage.Settled 0 (editor_server [door_scene; street_scene]);
               EditorPage.ClickPlay 0] 1 street_scene D) as (L & C & _).
  split; [exact D|]. split; [exact L|exact C].
Defined.

Lemma media_addressed_by_file_name_witness :
  EditorPage.audio_path door_scene = ("/data/p1/audio" ++ "/" ++ "s1.mp3")%string
  /\ EditorPage.audio_url "http://localhost:8001" "p1" (EditorPage.audio_path door_scene)
     = (EditorPage.API "http://localhost:8001" ++ "/audio/" ++ "p1" ++ "/"
          ++ "s1.mp3")%string.
Proof.
  split; [reflexivity|].
  assert (forall name : string,
            forallb (fun c => negb (Ascii.eqb c "/")) (list_ascii_of_string name) = true ->
            ~ In "/"%char (list_ascii_of_string name)) as No.
  { intros name H C. rewrite forallb_forall in H. specialize (H _ C).
    by rewrite Ascii.eqb_refl in H. }
  exact (proj1 (media_addressed_by_file_name "http://localhost:8001" "p1"
                  (EditorPage.st door_playing) 0 door_scene
                  "/data/p1/audio" "s1.mp3" "/data/p1/thumbs" "s1.jpg"
                  (No "s1.mp3" eq_refl) (No "s1.jpg" eq_refl)
                  eq_refl eq_refl eq_refl eq_refl)).
Defined.


Lemma nothing_offered_while_loading_witness :
  let acts := [EditorPage.ClickEdit 0; EditorPage.OpenExport;
               EditorPage.ConfirmExport] in
  forallb EditorPage.control acts = true
  /\ EditorPage.session "http://localhost:8001" "p1"
       (EditorPage.mounted "http://localhost:8001" "p1") acts
     = EditorPage.mounted "http://localhost:8001" "p1".
Proof.
  split; [reflexivity|].
  exact (proj1 (nothing_offered_while_loading "http://localhost:8001" "p1"
                  [EditorPage.ClickEdit 0; EditorPage.OpenExport;
                   EditorPage.ConfirmExport] eq_refl)).
Defined.

Lemma export_after_failed_load_witness :
  let w := EditorPage.session "http://localhost:8001" "p1"
             (EditorPage.mounted "http://localhost:8001" "p1")
             [EditorPage.Settled 0 editor_offline; EditorPage.OpenExport] in
  EditorPage.settle editor_offline
    (EditorPage.PromiseAll (EditorPage.get_project "http://localhost:8001" "p1")
                           (EditorPage.get_scenes "http://localhost:8001" "p1"))
  = EditorPage.Rejected offline
  /\ EditorPage.export_offered w.
Proof.
  split; [reflexivity|].
  destruct (export_after_failed_load "http://localhost:8001" "p1" editor_offline
              offline eq_refl) as (_ & O & _).
  exact O.
Defined.



